(** * A shallow embedding of the calculator's expression pipeline

    The development follows the JavaScript sources:
    - the parser (tokenize, parseToRPN, parse) and its tables,
    - the evaluator (evaluateOperation, evaluate, evaluateExpression,
      evaluateWithState),
    - MathUtils (factorial, permutation, combination),
    - the integration module (adaptiveSimpson, integrate,
      createFunctionFromExpression, detectDiscontinuities),
    - the solver module (bisection, newton, secant, brent, solve,
      findAllRoots),
    - the arithmetic of the Complex class (add, multiply, conjugate,
      magnitude, equals).

    JavaScript numbers are IEEE-754 binary64 values and are modelled by the
    primitive floats of the standard library.  JavaScript strings are
    sequences of UTF-16 code units and are modelled as lists of code units.
    Built-ins of the language runtime that are not code of the repository
    (parseFloat, Math.pow, Math.sin, ...) are collected in a record that the
    embedded functions take as a parameter. *)

From Stdlib Require Import String Ascii.
From Stdlib Require Import ZArith NArith List Floats Lia Bool Permutation.
Import ListNotations.

Set Implicit Arguments.
Set Warnings "-inexact-float".

(* ------------------------------------------------------------------ *)
(** ** JavaScript strings *)

(** A string is the list of its UTF-16 code units. *)
Definition jsstring := list N.

(** ASCII literals: every byte is its own code unit. *)
Definition str (s : string) : jsstring :=
  map N_of_ascii (list_ascii_of_string s).
Arguments str s%_string.

Fixpoint jseq (a b : jsstring) : bool :=
  match a, b with
  | [], [] => true
  | x :: a', y :: b' => N.eqb x y && jseq a' b'
  | _, _ => false
  end.

(** Code units of the non-ASCII characters that occur in the sources. *)
Definition u_MINUS : N := 0x2212.        (* U+2212  minus sign            *)
Definition u_TIMES : N := 0xD7.          (* U+00D7  multiplication sign   *)
Definition u_DIVIDE : N := 0xF7.         (* U+00F7  division sign         *)
Definition u_MOD_Y : N := 0x2B8.         (* U+02B8  modifier small y      *)
Definition u_SUP_MINUS : N := 0x207B.    (* U+207B  superscript minus     *)
Definition u_SUP_ONE : N := 0xB9.        (* U+00B9  superscript one       *)
Definition u_SQRT : N := 0x221A.         (* U+221A  square root           *)
Definition u_CBRT : N := 0x221B.         (* U+221B  cube root             *)
Definition u_ROOT4 : N := 0x221C.        (* U+221C  fourth root           *)
Definition u_PI : N := 0x3C0.            (* U+03C0  greek small pi        *)

(** [s.substr(i, len)]. *)
Definition substr (s : jsstring) (i len : nat) : jsstring :=
  firstn len (skipn i s).

(** The characters matched by [\s] in a regular expression. *)
Definition is_whitespace (c : N) : bool :=
  ((9 <=? c) && (c <=? 13) || (c =? 32) || (c =? 0xA0) || (c =? 0x1680)
   || (0x2000 <=? c) && (c <=? 0x200A) || (c =? 0x2028) || (c =? 0x2029)
   || (c =? 0x202F) || (c =? 0x205F) || (c =? 0x3000) || (c =? 0xFEFF))%N.

(** [expression.replace(/\s+/g, '')]. *)
Definition remove_whitespace (s : jsstring) : jsstring :=
  filter (fun c => negb (is_whitespace c)) s.

(** Objects used as string-keyed tables keep their keys in insertion
    order, which is the order [for ... in] enumerates them in.  [lookup]
    is the property read [tbl[k]], [None] standing for [undefined]; only
    own properties are modelled (the tokenizer makes no token whose
    symbol names an inherited property). *)
Fixpoint lookup {A} (tbl : list (jsstring * A)) (k : jsstring) : option A :=
  match tbl with
  | [] => None
  | (k', v) :: tbl' => if jseq k' k then Some v else lookup tbl' k
  end.

(** [obj[k] = v]: overwrite in place, or append a new key. *)
Fixpoint assign {A} (tbl : list (jsstring * A)) (k : jsstring) (v : A)
  : list (jsstring * A) :=
  match tbl with
  | [] => [(k, v)]
  | (k', v') :: tbl' =>
      if jseq k' k then (k', v) :: tbl' else (k', v') :: assign tbl' k v
  end.

(* ------------------------------------------------------------------ *)
(** ** Built-ins of the language runtime *)

Record Native := {
  parseFloat : jsstring -> float;
  toUpperCase : jsstring -> jsstring;
  Math_pow : float -> float -> float;
  Math_rem : float -> float -> float;      (* the [%] operator *)
  Math_sin : float -> float;
  Math_cos : float -> float;
  Math_tan : float -> float;
  Math_asin : float -> float;
  Math_acos : float -> float;
  Math_atan : float -> float;
  Math_sinh : float -> float;
  Math_cosh : float -> float;
  Math_tanh : float -> float;
  Math_log10 : float -> float;
  Math_log : float -> float;
  Math_cbrt : float -> float;
  Math_round : float -> float
}.

Definition Math_PI : float := 0x1.921fb54442d18p+1%float.
Definition Math_E : float := 0x1.5bf0a8b145769p+1%float.

(** [Number.isInteger]: finite with no fractional part. *)
Definition Number_isInteger (x : float) : bool :=
  match Prim2SF x with
  | S754_zero _ => true
  | S754_finite _ m e =>
      if (0 <=? e)%Z then true
      else (Z.pos m mod 2 ^ (- e) =? 0)%Z
  | _ => false
  end.

(** The global [isFinite] on numbers. *)
Definition isFinite (x : float) : bool := is_finite x.

(** The number for the integer [z] (rounded to nearest when [z] needs
    more than 53 bits). *)
Definition float_of_Z (z : Z) : float :=
  SF2Prim (binary_normalize prec emax z 0 false).

(* ------------------------------------------------------------------ *)
(** ** Errors and completions *)

(** One constructor per [new Error(...)] message template of the sources;
    [TypeError] is the runtime's error for a property read on
    [undefined]. *)
Inductive error :=
| DivisionByZero                      (* 'Division by zero' *)
| InvalidDomain (fn : jsstring)       (* 'Invalid domain for <fn>' *)
| FactorialDomain                     (* 'Factorial requires non-negative integer' *)
| PermutationIntegers                 (* 'Permutation requires integers' *)
| PermutationNonNegative              (* 'Permutation requires non-negative values' *)
| CombinationIntegers                 (* 'Combination requires integers' *)
| CombinationNonNegative              (* 'Combination requires non-negative values' *)
| UnknownOperator (op : jsstring)     (* 'Unknown operator: <op>' *)
| UnknownConstant (c : jsstring)      (* 'Unknown constant: <c>' *)
| UndefinedVariable (v : jsstring)    (* 'Undefined variable: <v>' *)
| InsufficientOperands                (* 'Insufficient operands for operator' *)
| UnknownFunction (f : jsstring)      (* 'Unknown function: <f>' *)
| InsufficientArguments (f : jsstring)(* 'Insufficient arguments for function <f>' *)
| UnknownTokenType                    (* 'Unknown token type: <type>' *)
| InvalidExpression (n : nat)         (* 'Invalid expression: stack has <n> items' *)
| MismatchedParentheses               (* 'Mismatched parentheses' *)
| TypeError
| InvalidFunctionType                 (* 'Invalid function type' *)
| BoundsNotFinite                     (* 'Integration bounds must be finite' *)
| Singularity                         (* 'Function has singularity at or near bounds' *)
| NonFiniteValue                      (* 'Function returned non-finite value' *)
| IntegrationError (cause : error)    (* 'Integration error: <message>' *)
| NoSignChange                        (* 'Function must have different signs at bounds' *)
| DerivativeTooSmall                  (* 'Derivative too small, Newton method failed' *)
| NewtonNoConvergence                 (* 'Newton method did not converge' *)
| SecantDivisionByZero                (* 'Division by zero in secant method' *)
| SecantNoConvergence                 (* 'Secant method did not converge' *)
| BrentNoConvergence                  (* 'Brent method did not converge' *)
| BisectionRequiresBounds             (* 'Bisection requires bounds [a, b]' *)
| SolverError (cause : error).        (* 'Solver error: <message>' *)

(** A call returns a value, throws, or (in the embedding only) exhausts
    the iteration budget given to a loop. *)
Inductive completion (A : Type) :=
| Ok (a : A)
| Throw (e : error)
| OutOfFuel.
Arguments Throw {A} e.
Arguments OutOfFuel {A}.

Definition rbind {A B} (r : completion A) (k : A -> completion B) : completion B :=
  match r with
  | Ok a => k a
  | Throw e => Throw e
  | OutOfFuel => OutOfFuel
  end.

Declare Scope completion_scope.
Delimit Scope completion_scope with comp.
Notation "x <- r ;; k" := (rbind r (fun x => k))
  (at level 61, r at next level, right associativity) : completion_scope.
Notation "' p <- r ;; k" := (rbind r (fun p => k))
  (at level 61, p pattern, r at next level, right associativity) : completion_scope.

(* ------------------------------------------------------------------ *)
(** ** Parser tables *)

Inductive Token :=
| NUMBER (value : float)
| OPERATOR (value : jsstring)
| FUNCTION (value : jsstring)
| LPAREN
| RPAREN
| COMMA
| CONSTANT (value : jsstring)
| VARIABLE (value : jsstring).

Inductive Associativity := assoc_left | assoc_right.

Record OperatorSpec := {
  precedence : nat;
  associativity : Associativity;
  op_args : nat
}.

Definition OPERATORS : list (jsstring * OperatorSpec) :=
  [ (str "+",            {| precedence := 1; associativity := assoc_left;  op_args := 2 |});
    ([u_MINUS],          {| precedence := 1; associativity := assoc_left;  op_args := 2 |});
    (str "-",            {| precedence := 1; associativity := assoc_left;  op_args := 2 |});
    ([u_TIMES],          {| precedence := 2; associativity := assoc_left;  op_args := 2 |});
    (str "*",            {| precedence := 2; associativity := assoc_left;  op_args := 2 |});
    ([u_DIVIDE],         {| precedence := 2; associativity := assoc_left;  op_args := 2 |});
    (str "/",            {| precedence := 2; associativity := assoc_left;  op_args := 2 |});
    (str "^",            {| precedence := 3; associativity := assoc_right; op_args := 2 |});
    (str "x" ++ [u_MOD_Y], {| precedence := 3; associativity := assoc_right; op_args := 2 |});
    (str "%",            {| precedence := 2; associativity := assoc_left;  op_args := 2 |}) ].

Inductive FunctionType := type_trig | type_hyp | type_none.

Record FunctionSpec := {
  args : nat;
  type : FunctionType;
  inverse : bool
}.

Definition fn (t : FunctionType) (inv : bool) : FunctionSpec :=
  {| args := 1; type := t; inverse := inv |}.

Definition FUNCTIONS : list (jsstring * FunctionSpec) :=
  [ (str "sin",  fn type_trig false);
    (str "cos",  fn type_trig false);
    (str "tan",  fn type_trig false);
    (str "sin" ++ [u_SUP_MINUS; u_SUP_ONE], fn type_trig true);
    (str "cos" ++ [u_SUP_MINUS; u_SUP_ONE], fn type_trig true);
    (str "tan" ++ [u_SUP_MINUS; u_SUP_ONE], fn type_trig true);
    (str "asin", fn type_trig true);
    (str "acos", fn type_trig true);
    (str "atan", fn type_trig true);
    (str "sinh", fn type_hyp false);
    (str "cosh", fn type_hyp false);
    (str "tanh", fn type_hyp false);
    (str "log",  fn type_none false);
    (str "ln",   fn type_none false);
    ([u_SQRT],   fn type_none false);
    (str "sqrt", fn type_none false);
    ([u_CBRT],   fn type_none false);
    ([u_ROOT4],  fn type_none false);
    (str "abs",  fn type_none false);
    (str "Abs",  fn type_none false) ].

Definition CONSTANTS : list (jsstring * float) :=
  [ ([u_PI],   Math_PI);
    (str "pi", Math_PI);
    (str "e",  Math_E);
    (str "E",  Math_E) ].

(* ------------------------------------------------------------------ *)
(** ** tokenize *)

Definition is_digit (c : N) : bool := ((48 <=? c) && (c <=? 57))%N.
Definition is_number_char (c : N) : bool := is_digit c || (c =? 46)%N.
Definition is_letter (c : N) : bool :=
  ((65 <=? c) && (c <=? 90) || (97 <=? c) && (c <=? 122))%N.

(** The inner [while] of the number branch: the longest run of digits and
    dots at the cursor. *)
Fixpoint scan_number (rest : jsstring) : jsstring :=
  match rest with
  | c :: rest' => if is_number_char c then c :: scan_number rest' else []
  | [] => []
  end.

(** [for (let name in table) if (expression.substr(i, name.length) === name)]:
    the first key, in the table's order, found at the cursor. *)
Fixpoint find_name {A} (tbl : list (jsstring * A)) (expression : jsstring)
  (i : nat) : option jsstring :=
  match tbl with
  | [] => None
  | (name, _) :: tbl' =>
      if jseq (substr expression i (length name)) name then Some name
      else find_name tbl' expression i
  end.

Definition last_token (tokens : list Token) : option Token :=
  match rev tokens with
  | t :: _ => Some t
  | [] => None
  end.

Definition is_operator_or_lparen (t : option Token) : bool :=
  match t with
  | Some (OPERATOR _) | Some LPAREN => true
  | _ => false
  end.

Section WithRuntime.

Variable rt : Native.

(** The body of the main [while (i < expression.length)] loop; each turn
    consumes at least one code unit. *)
Fixpoint tokenize_loop (fuel : nat) (expression : jsstring) (i : nat)
  (tokens : list Token) : completion (list Token) :=
  match nth_error expression i with
  | None => Ok tokens
  | Some char =>
    match fuel with
    | O => OutOfFuel
    | S fuel' =>
      if is_number_char char then
        let num := scan_number (skipn i expression) in
        tokenize_loop fuel' expression (i + length num)
          (tokens ++ [NUMBER (parseFloat rt num)])
      else
      match find_name FUNCTIONS expression i with
      | Some funcName =>
          tokenize_loop fuel' expression (i + length funcName)
            (tokens ++ [FUNCTION funcName])
      | None =>
      match find_name CONSTANTS expression i with
      | Some constName =>
          tokenize_loop fuel' expression (i + length constName)
            (tokens ++ [CONSTANT constName])
      | None =>
      match lookup OPERATORS [char] with
      | Some _ =>
          if ((char =? 45)%N || (char =? u_MINUS)%N)
             && ((i =? 0)%nat || (length tokens =? 0)%nat
                 || is_operator_or_lparen (last_token tokens))
          then
            tokenize_loop fuel' expression (i + 1)
              (tokens ++ [NUMBER (-1)%float] ++ [OPERATOR [u_TIMES]])
          else
            tokenize_loop fuel' expression (i + 1)
              (tokens ++ [OPERATOR [char]])
      | None =>
      if (char =? 40)%N then
        tokenize_loop fuel' expression (i + 1) (tokens ++ [LPAREN])
      else if (char =? 41)%N then
        tokenize_loop fuel' expression (i + 1) (tokens ++ [RPAREN])
      else if (char =? 44)%N then
        tokenize_loop fuel' expression (i + 1) (tokens ++ [COMMA])
      else if is_letter char then
        tokenize_loop fuel' expression (i + 1) (tokens ++ [VARIABLE [char]])
      else
        tokenize_loop fuel' expression (i + 1) tokens
      end end end
    end
  end.

Definition tokenize (expression : jsstring) : completion (list Token) :=
  let expression := remove_whitespace expression in
  tokenize_loop (length expression) expression 0 [].

End WithRuntime.

(* ------------------------------------------------------------------ *)
(** ** parseToRPN (shunting yard)

    The operator stack is a list whose head is the top of the stack; the
    output queue is a list in emission order. *)

(** The pop condition of the operator case. *)
Definition pops_before (op1 op2 : OperatorSpec) : bool :=
  match associativity op1 with
  | assoc_left => (precedence op1 <=? precedence op2)%nat
  | assoc_right => (precedence op1 <? precedence op2)%nat
  end.

(** The [while] of the operator case.  [op1] and [op2] are table reads
    that yield [undefined] for an unknown symbol; reading a property of
    [undefined] raises a TypeError. *)
Fixpoint pop_operators (op1 : option OperatorSpec) (output operatorStack : list Token)
  : completion (list Token * list Token) :=
  match operatorStack with
  | [] => Ok (output, [])
  | topToken :: rest =>
      match topToken with
      | OPERATOR v =>
          match op1, lookup OPERATORS v with
          | Some s1, Some s2 =>
              if pops_before s1 s2
              then pop_operators op1 (output ++ [topToken]) rest
              else Ok (output, operatorStack)
          | _, _ => Throw TypeError
          end
      | _ => Ok (output, operatorStack)
      end
  end.

(** The [while] shared by the comma and right-parenthesis cases: pop to
    the output until a left parenthesis is on top or the stack is empty. *)
Fixpoint pop_until_lparen (output operatorStack : list Token)
  : list Token * list Token :=
  match operatorStack with
  | [] => (output, [])
  | LPAREN :: _ => (output, operatorStack)
  | t :: rest => pop_until_lparen (output ++ [t]) rest
  end.

(** One turn of the [for] loop over the tokens. *)
Definition rpn_step (token : Token) (output operatorStack : list Token)
  : completion (list Token * list Token) :=
  match token with
  | NUMBER _ | CONSTANT _ | VARIABLE _ => Ok (output ++ [token], operatorStack)
  | FUNCTION _ => Ok (output, token :: operatorStack)
  | COMMA => Ok (pop_until_lparen output operatorStack)
  | OPERATOR v =>
      ('(output', stack') <- pop_operators (lookup OPERATORS v) output operatorStack ;;
       Ok (output', token :: stack'))%comp
  | LPAREN => Ok (output, token :: operatorStack)
  | RPAREN =>
      match pop_until_lparen output operatorStack with
      | (_, []) => Throw MismatchedParentheses
      | (output', _ :: stack') =>
          match stack' with
          | FUNCTION f :: stack'' => Ok (output' ++ [FUNCTION f], stack'')
          | _ => Ok (output', stack')
          end
      end
  end.

(** The final [while]: pop the remaining operators. *)
Fixpoint pop_remaining (output operatorStack : list Token) : completion (list Token) :=
  match operatorStack with
  | [] => Ok output
  | token :: rest =>
      match token with
      | LPAREN | RPAREN => Throw MismatchedParentheses
      | _ => pop_remaining (output ++ [token]) rest
      end
  end.

Fixpoint rpn_loop (tokens output operatorStack : list Token) : completion (list Token) :=
  match tokens with
  | [] => pop_remaining output operatorStack
  | token :: tokens' =>
      ('(output', stack') <- rpn_step token output operatorStack ;;
       rpn_loop tokens' output' stack')%comp
  end.

Definition parseToRPN (tokens : list Token) : completion (list Token) :=
  rpn_loop tokens [] [].

Definition parse (rt : Native) (expression : jsstring) : completion (list Token) :=
  (tokens <- tokenize rt expression ;; parseToRPN tokens)%comp.

(* ------------------------------------------------------------------ *)
(** ** MathUtils *)

Module MathUtils.

Open Scope float_scope.

(** [for (let i = 2; i <= n; i++) result *= i;] *)
Fixpoint factorial_loop (fuel : nat) (i n result : float) : completion float :=
  if i <=? n then
    match fuel with
    | O => OutOfFuel
    | S fuel' => factorial_loop fuel' (i + 1) n (result * i)
    end
  else Ok result.

(** The loop is entered only with [n <= 170], so 170 turns are enough. *)
Definition factorial (n : float) : completion float :=
  if negb (Number_isInteger n) || (n <? 0) then Throw FactorialDomain
  else if (n =? 0) || (n =? 1) then Ok 1
  else if 170 <? n then Ok infinity
  else factorial_loop 170 2 n 1.

(** The integer a number stands for (used only to size loop budgets). *)
Definition integer_value (x : float) : Z :=
  match Prim2SF x with
  | S754_finite s m e =>
      let v := if (0 <=? e)%Z then (Z.pos m * 2 ^ e)%Z else (Z.pos m / 2 ^ (- e))%Z in
      if s then (- v)%Z else v
  | _ => 0%Z
  end.

(** A loop that counts up to or down by [r] in unit steps ends within
    [r] turns, or never (when the step is absorbed by rounding). *)
Definition loop_budget (r : float) : nat := S (Z.to_nat (integer_value r)).

(** [for (let i = n; i > n - r; i--) result *= i;] *)
Fixpoint permutation_loop (fuel : nat) (i bound result : float) : completion float :=
  if bound <? i then
    match fuel with
    | O => OutOfFuel
    | S fuel' => permutation_loop fuel' (i - 1) bound (result * i)
    end
  else Ok result.

Definition permutation (n r : float) : completion float :=
  if negb (Number_isInteger n) || negb (Number_isInteger r) then Throw PermutationIntegers
  else if (n <? 0) || (r <? 0) then Throw PermutationNonNegative
  else if n <? r then Ok 0
  else if r =? 0 then Ok 1
  else permutation_loop (loop_budget r) n (n - r) 1.

(** [for (let i = 0; i < r; i++) { result *= (n - i); result /= (i + 1); }] *)
Fixpoint combination_loop (fuel : nat) (i n r result : float) : completion float :=
  if i <? r then
    match fuel with
    | O => OutOfFuel
    | S fuel' => combination_loop fuel' (i + 1) n r (result * (n - i) / (i + 1))
    end
  else Ok result.

Definition combination (rt : Native) (n r : float) : completion float :=
  if negb (Number_isInteger n) || negb (Number_isInteger r) then Throw CombinationIntegers
  else if (n <? 0) || (r <? 0) then Throw CombinationNonNegative
  else if n <? r then Ok 0
  else if (r =? 0) || (r =? n) then Ok 1
  else
    let r := if (n - r) <? r then n - r else r in
    (result <- combination_loop (loop_budget r) 0 n r 1 ;; Ok (Math_round rt result))%comp.

End MathUtils.

(* ------------------------------------------------------------------ *)
(** ** The evaluator *)

(** The case labels of [evaluateOperation] whose source text is not ASCII,
    code unit by code unit as the UTF-8 text of the evaluator's source file
    spells them.  They are not the symbols of the parser's tables: where
    the tables have U+2212, U+00D7, U+00F7, U+02B8, U+207B U+00B9, U+221A,
    U+221B and U+221C, the labels are the strings below. *)
Definition label_minus : jsstring := [0x201A; 0xE0; 0xED]%N.
Definition label_times : jsstring := [0x221A; 0xF3]%N.
Definition label_divide : jsstring := [0x221A; 0x2211]%N.
Definition label_power : jsstring := [0x78; 0xA0; 0x220F]%N.
Definition label_inverse (f : jsstring) : jsstring :=
  f ++ [0x201A; 0xC5; 0xAA; 0xAC; 0x3C0]%N.
Definition label_sqrt : jsstring := [0x201A; 0xE0; 0xF6]%N.
Definition label_cbrt : jsstring := [0x201A; 0xE0; 0xF5]%N.
Definition label_root4 : jsstring := [0x201A; 0xE0; 0xFA]%N.

(** Values stored in the memory registers: [null] or a number. *)
Inductive jsval := JNull | JNum (x : float).

(** The contents of a memory object. *)
Definition Memory := list (jsstring * jsval).

(** The [context] argument of [evaluate]; absent fields are [undefined]. *)
Record Context := {
  ctx_angleUnit : option jsstring;
  ctx_memory : option Memory
}.

(** What [evaluate] can read of [window.calculatorState], when present. *)
Record GlobalView := {
  gv_angleUnit : jsstring;
  gv_memory : Memory
}.

Section Evaluator.

Variable rt : Native.

Open Scope float_scope.

Definition toRadians (degrees : float) : float := degrees * (Math_PI / 180).
Definition toDegrees (radians : float) : float := radians * (180 / Math_PI).
Definition gradiansToRadians (gradians : float) : float := gradians * (Math_PI / 200).

Definition applyAngleUnit (value : float) (angleUnit : jsstring) : float :=
  if jseq angleUnit (str "DEG") then toRadians value
  else if jseq angleUnit (str "RAD") then value
  else if jseq angleUnit (str "GRAD") then gradiansToRadians value
  else value.

Definition applyInverseAngleUnit (value : float) (angleUnit : jsstring) : float :=
  if jseq angleUnit (str "DEG") then toDegrees value
  else if jseq angleUnit (str "RAD") then value
  else if jseq angleUnit (str "GRAD") then value * (200 / Math_PI)
  else value.

(** [args[i]]; an element that is not there is [undefined], which every
    use below converts to NaN. *)
Definition arg (args : list float) (i : nat) : float := nth i args nan.

Definition evaluateOperation (operator : jsstring) (args : list float)
  (angleUnit : jsstring) : completion float :=
  let case l := jseq operator l in
  if case (str "+") then Ok (arg args 0 + arg args 1)
  else if case label_minus || case (str "-") then Ok (arg args 0 - arg args 1)
  else if case label_times || case (str "*") then Ok (arg args 0 * arg args 1)
  else if case label_divide || case (str "/") then
    if arg args 1 =? 0 then Throw DivisionByZero
    else Ok (arg args 0 / arg args 1)
  else if case (str "^") || case label_power then Ok (Math_pow rt (arg args 0) (arg args 1))
  else if case (str "%") then Ok (Math_rem rt (arg args 0) (arg args 1))
  else if case (str "sin") then Ok (Math_sin rt (applyAngleUnit (arg args 0) angleUnit))
  else if case (str "cos") then Ok (Math_cos rt (applyAngleUnit (arg args 0) angleUnit))
  else if case (str "tan") then Ok (Math_tan rt (applyAngleUnit (arg args 0) angleUnit))
  else if case (label_inverse (str "sin")) || case (str "asin") then
    Ok (applyInverseAngleUnit (Math_asin rt (arg args 0)) angleUnit)
  else if case (label_inverse (str "cos")) || case (str "acos") then
    Ok (applyInverseAngleUnit (Math_acos rt (arg args 0)) angleUnit)
  else if case (label_inverse (str "tan")) || case (str "atan") then
    Ok (applyInverseAngleUnit (Math_atan rt (arg args 0)) angleUnit)
  else if case (str "sinh") then Ok (Math_sinh rt (arg args 0))
  else if case (str "cosh") then Ok (Math_cosh rt (arg args 0))
  else if case (str "tanh") then Ok (Math_tanh rt (arg args 0))
  else if case (str "log") then
    if arg args 0 <=? 0 then Throw (InvalidDomain (str "log"))
    else Ok (Math_log10 rt (arg args 0))
  else if case (str "ln") then
    if arg args 0 <=? 0 then Throw (InvalidDomain (str "ln"))
    else Ok (Math_log rt (arg args 0))
  else if case label_sqrt || case (str "sqrt") then
    if arg args 0 <? 0 then Throw (InvalidDomain (str "sqrt"))
    else Ok (sqrt (arg args 0))
  else if case label_cbrt then Ok (Math_cbrt rt (arg args 0))
  else if case label_root4 then Ok (Math_pow rt (arg args 0) (1 / 4))
  else if case (str "abs") || case (str "Abs") then Ok (abs (arg args 0))
  else if case (str "!") then
    if negb (Number_isInteger (arg args 0)) || (arg args 0 <? 0)
    then Throw FactorialDomain
    else MathUtils.factorial (arg args 0)
  else if case (str "nPr") then MathUtils.permutation (arg args 0) (arg args 1)
  else if case (str "nCr") then MathUtils.combination rt (arg args 0) (arg args 1)
  else Throw (UnknownOperator operator).

(** The [for] loop of [evaluate]; the head of [stack] is its top. *)
Fixpoint evaluate_loop (rpnTokens : list Token) (stack : list float)
  (angleUnit : jsstring) (memory : Memory) : completion (list float) :=
  match rpnTokens with
  | [] => Ok stack
  | token :: rest =>
      match token with
      | NUMBER value => evaluate_loop rest (value :: stack) angleUnit memory
      | CONSTANT value =>
          match lookup CONSTANTS value with
          | Some c => evaluate_loop rest (c :: stack) angleUnit memory
          | None => Throw (UnknownConstant value)
          end
      | VARIABLE value =>
          match lookup memory value with
          | Some (JNum varValue) => evaluate_loop rest (varValue :: stack) angleUnit memory
          | _ => Throw (UndefinedVariable value)
          end
      | OPERATOR value =>
          match stack with
          | b :: a :: stack' =>
              (result <- evaluateOperation value [a; b] angleUnit ;;
               evaluate_loop rest (result :: stack') angleUnit memory)%comp
          | _ => Throw InsufficientOperands
          end
      | FUNCTION value =>
          match lookup FUNCTIONS value with
          | None => Throw (UnknownFunction value)
          | Some funcInfo =>
              if (length stack <? args funcInfo)%nat
              then Throw (InsufficientArguments value)
              else
                let args' := rev (firstn (args funcInfo) stack) in
                (funcResult <- evaluateOperation value args' angleUnit ;;
                 evaluate_loop rest (funcResult :: skipn (args funcInfo) stack)
                   angleUnit memory)%comp
          end
      | _ => Throw UnknownTokenType
      end
  end.

(** [x || y] on strings: the empty string is falsy. *)
Definition truthy (s : option jsstring) : option jsstring :=
  match s with
  | Some [] | None => None
  | Some s' => Some s'
  end.

Definition evaluate (rpnTokens : list Token) (context : Context)
  (global : option GlobalView) : completion float :=
  let angleUnit :=
    match truthy (ctx_angleUnit context) with
    | Some u => u
    | None =>
        match truthy (option_map gv_angleUnit global) with
        | Some u => u
        | None => str "DEG"
        end
    end in
  let memory :=
    match ctx_memory context with
    | Some m => m
    | None =>
        match global with
        | Some g => gv_memory g
        | None => []
        end
    end in
  (stack <- evaluate_loop rpnTokens [] angleUnit memory ;;
   match stack with
   | [v] => Ok v
   | _ => Throw (InvalidExpression (length stack))
   end)%comp.

Definition evaluateExpression (expression : jsstring) (context : Context)
  (global : option GlobalView) : completion float :=
  (rpn <- parse rt expression ;; evaluate rpn context global)%comp.

End Evaluator.

(* ------------------------------------------------------------------ *)
(** ** An executable stand-in for the runtime

    Used to run the embedding on concrete inputs.  It agrees with the
    language's built-ins at the points the examples below use: decimal
    literals with fewer than sixteen digits, powers with a small
    non-negative integer exponent (and NaN for a negative base with a
    fractional exponent), cube roots of small perfect cubes, upper-casing
    of ASCII letters.  The other entries are placeholders. *)

Module TestRuntime.

Open Scope float_scope.

(** The digits at the head of [s], as a number and a count. *)
Fixpoint leading_digits (s : jsstring) (acc : Z) (n : nat) : Z * nat * jsstring :=
  match s with
  | c :: s' =>
      if is_digit c then leading_digits s' (acc * 10 + Z.of_N c - 48)%Z (S n)
      else (acc, n, s)
  | [] => (acc, n, [])
  end.

Definition parse_decimal (s : jsstring) : float :=
  let '(ip, ni, rest) := leading_digits s 0%Z 0%nat in
  match rest with
  | 46%N :: rest' =>
      let '(all, nf, _) := leading_digits rest' ip 0%nat in
      if ((ni + nf)%nat =? 0)%nat then nan
      else float_of_Z all / float_of_Z (10 ^ Z.of_nat nf)
  | _ => if (ni =? 0)%nat then nan else float_of_Z ip
  end.

Definition upper (c : N) : N :=
  if ((97 <=? c) && (c <=? 122))%N then (c - 32)%N else c.

Fixpoint power (x : float) (n : nat) : float :=
  match n with
  | O => 1
  | S n' => x * power x n'
  end.

Definition pow (x y : float) : float :=
  if Number_isInteger y && (0 <=? y) && (y <=? 64)
  then power x (Z.to_nat (MathUtils.integer_value y))
  else nan.

Definition cbrt (x : float) : float :=
  if abs x =? 0 then x
  else if abs x =? 1 then x
  else if abs x =? 8 then x / 4
  else if abs x =? 27 then x / 9
  else nan.

Definition runtime : Native :=
  {| parseFloat := parse_decimal;
     toUpperCase := map upper;
     Math_pow := pow;
     Math_rem := fun _ _ => nan;
     Math_sin := fun _ => nan;
     Math_cos := fun _ => nan;
     Math_tan := fun _ => nan;
     Math_asin := fun _ => nan;
     Math_acos := fun _ => nan;
     Math_atan := fun _ => nan;
     Math_sinh := fun _ => nan;
     Math_cosh := fun _ => nan;
     Math_tanh := fun _ => nan;
     Math_log10 := fun _ => nan;
     Math_log := fun _ => nan;
     Math_cbrt := cbrt;
     Math_round := fun x => x |}.

End TestRuntime.

(* ------------------------------------------------------------------ *)
(** ** The shared calculator state

    [window.calculatorState.memory] is a reference to an object.  The
    store keeps every allocated memory object by address, so that a
    mutation through one reference is seen through all of them. *)

Record Store := {
  heap : list Memory;
  state_memory : nat;              (* address held by [state.memory] *)
  state_angleUnit : jsstring       (* [state.angleUnit] *)
}.

Definition deref (st : Store) (address : nat) : Memory :=
  nth address (heap st) [].

(** The bindings a caller sees through [state.memory]. *)
Definition bindings (st : Store) : Memory := deref st (state_memory st).

Fixpoint update_nth {A} (l : list A) (n : nat) (x : A) : list A :=
  match l, n with
  | [], _ => []
  | _ :: l', O => x :: l'
  | y :: l', S n' => y :: update_nth l' n' x
  end.

(** [{ ...state.memory }]: a fresh object with the same bindings; the
    result is its address. *)
Definition spread_memory (st : Store) : nat * Store :=
  (length (heap st),
   {| heap := heap st ++ [bindings st];
      state_memory := state_memory st;
      state_angleUnit := state_angleUnit st |}).

(** [state.memory[key] = value]: mutates the object in place. *)
Definition write_memory (st : Store) (key : jsstring) (value : float) : Store :=
  {| heap := update_nth (heap st) (state_memory st)
               (assign (bindings st) key (JNum value));
     state_memory := state_memory st;
     state_angleUnit := state_angleUnit st |}.

(** [state.memory = address]. *)
Definition set_memory (st : Store) (address : nat) : Store :=
  {| heap := heap st;
     state_memory := address;
     state_angleUnit := state_angleUnit st |}.

(** Code that runs against the store. *)
Definition Eff (A : Type) : Type := Store -> completion A * Store.

Definition ret {A} (a : A) : Eff A := fun st => (Ok a, st).
Definition throw {A} (e : error) : Eff A := fun st => (Throw e, st).

Definition bind {A B} (m : Eff A) (k : A -> Eff B) : Eff B :=
  fun st =>
    match m st with
    | (Ok a, st') => k a st'
    | (Throw e, st') => (Throw e, st')
    | (OutOfFuel, st') => (OutOfFuel, st')
    end.

(** [try { m } catch (error) { handler(error) }]. *)
Definition try_catch {A} (m : Eff A) (handler : error -> Eff A) : Eff A :=
  fun st =>
    match m st with
    | (Throw e, st') => handler e st'
    | other => other
    end.

Declare Scope eff_scope.
Delimit Scope eff_scope with eff.
Notation "x <- m ;; k" := (bind m (fun x => k))
  (at level 61, m at next level, right associativity) : eff_scope.

Section WithState.

Variable rt : Native.

Definition evaluateWithState (expression : jsstring) : Eff float :=
  fun state =>
    (evaluateExpression rt expression
       {| ctx_angleUnit := Some (state_angleUnit state);
          ctx_memory := Some (bindings state) |}
       (Some {| gv_angleUnit := state_angleUnit state;
                gv_memory := bindings state |}),
     state).

Open Scope float_scope.

(* ---------------------------------------------------------------- *)
(** *** Integration module *)

(** The closure returned by [createFunctionFromExpression]. *)
Definition createFunctionFromExpression (expression : jsstring)
  (variable : jsstring) : float -> Eff float :=
  fun value state =>
    let (originalMemory, state) := spread_memory state in
    let state := write_memory state (toUpperCase rt variable) value in
    match evaluateWithState expression state with
    | (Ok result, state) => (Ok result, set_memory state originalMemory)
    | (Throw error, state) => (Throw error, set_memory state originalMemory)
    | (OutOfFuel, state) => (OutOfFuel, state)
    end.

(** [depth] is the remaining recursion budget ([maxDepth], a count). *)
Fixpoint adaptiveSimpson (f : float -> Eff float)
  (a b epsilon Sab fa fb fc : float) (depth : nat) {struct depth} : Eff float :=
  let c := (a + b) / 2 in
  let h := b - a in
  let d := (a + c) / 2 in
  let e := (c + b) / 2 in
  (fd <- f d ;;
   fe <- f e ;;
   if negb (isFinite fd) || negb (isFinite fe) then throw NonFiniteValue
   else
     let Sleft := (h / 12) * (fa + 4 * fd + fc) in
     let Sright := (h / 12) * (fc + 4 * fe + fb) in
     let S2 := Sleft + Sright in
     match depth with
     | O => ret (S2 + (S2 - Sab) / 15)
     | S depth' =>
         if abs (S2 - Sab) <=? 15 * epsilon then ret (S2 + (S2 - Sab) / 15)
         else
           left <- adaptiveSimpson f a c (epsilon / 2) Sleft fa fc fd depth' ;;
           right <- adaptiveSimpson f c b (epsilon / 2) Sright fc fb fe depth' ;;
           ret (left + right)
     end)%eff.

(** The first argument of [integrate], by its [typeof]. *)
Inductive Integrand :=
| ExpressionString (expression : jsstring)
| JSFunction (f : float -> Eff float)
| OtherValue.

Record IntegrateOptions := {
  io_tolerance : option float;
  io_maxDepth : option nat;
  io_variable : option jsstring
}.

Definition default {A} (o : option A) (d : A) : A :=
  match o with Some a => a | None => d end.

(** [integrate] calls itself once, with swapped bounds; [fuel] bounds the
    nesting of that call. *)
Fixpoint integrate_rec (fuel : nat) (func : Integrand) (a b : float)
  (options : IntegrateOptions) {struct fuel} : Eff float :=
  match fuel with
  | O => fun state => (OutOfFuel, state)
  | S fuel' =>
    let tolerance := default (io_tolerance options) 1e-8 in
    let maxDepth := default (io_maxDepth options) 20%nat in
    let variable := default (io_variable options) (str "x") in
    match
      match func with
      | ExpressionString expression =>
          Some (createFunctionFromExpression expression variable)
      | JSFunction f => Some f
      | OtherValue => None
      end
    with
    | None => throw InvalidFunctionType
    | Some f =>
      if negb (isFinite a) || negb (isFinite b) then throw BoundsNotFinite
      else if a =? b then ret 0
      else if b <? a then
        (r <- integrate_rec fuel' func b a options ;; ret (- r))%eff
      else
        try_catch
          (fa <- f a ;;
           fb <- f b ;;
           fc <- f ((a + b) / 2) ;;
           if negb (isFinite fa) || negb (isFinite fb) || negb (isFinite fc)
           then throw Singularity
           else
             let h := b - a in
             let Sab := (h / 6) * (fa + 4 * fc + fb) in
             adaptiveSimpson f a b tolerance Sab fa fb fc maxDepth)%eff
          (fun error => throw (IntegrationError error))
    end
  end.

Definition integrate : Integrand -> float -> float -> IntegrateOptions -> Eff float :=
  integrate_rec 2.

(* ---------------------------------------------------------------- *)
(** *** Solver module

    [maxIterations] is a count; each loop recurses on the number of turns
    that remain. *)

Record SolverOptions := {
  so_tolerance : option float;
  so_maxIterations : option nat
}.

(** The [while] loop of [bisection]. *)
Fixpoint bisection_loop (f : float -> Eff float) (tolerance : float)
  (remaining : nat) (a b fa fb : float) : Eff float :=
  match remaining with
  | O => ret ((a + b) / 2)
  | S remaining' =>
      let c := (a + b) / 2 in
      (fc <- f c ;;
       if (abs fc <? tolerance) || (abs (b - a) <? tolerance) then ret c
       else if fa * fc <? 0
       then bisection_loop f tolerance remaining' a c fa fc
       else bisection_loop f tolerance remaining' c b fc fb)%eff
  end.

Definition bisection (f : float -> Eff float) (a b : float)
  (options : SolverOptions) : Eff float :=
  let tolerance := default (so_tolerance options) 1e-8 in
  let maxIterations := default (so_maxIterations options) 100%nat in
  (fa <- f a ;;
   fb <- f b ;;
   if 0 <? fa * fb then throw NoSignChange
   else if abs fa <? tolerance then ret a
   else if abs fb <? tolerance then ret b
   else bisection_loop f tolerance maxIterations a b fa fb)%eff.

Record NewtonOptions := {
  no_tolerance : option float;
  no_maxIterations : option nat;
  no_derivative : option (float -> Eff float);
  no_h : option float
}.

(** The [while] loop of [newton]. *)
Fixpoint newton_loop (f df : float -> Eff float) (tolerance : float)
  (remaining : nat) (x : float) : Eff float :=
  match remaining with
  | O => throw NewtonNoConvergence
  | S remaining' =>
      (fx <- f x ;;
       if abs fx <? tolerance then ret x
       else
         dfx <- df x ;;
         if abs dfx <? 1e-12 then throw DerivativeTooSmall
         else
           let xNew := x - fx / dfx in
           if abs (xNew - x) <? tolerance then ret xNew
           else newton_loop f df tolerance remaining' xNew)%eff
  end.

Definition newton (f : float -> Eff float) (x0 : float)
  (options : NewtonOptions) : Eff float :=
  let tolerance := default (no_tolerance options) 1e-8 in
  let maxIterations := default (no_maxIterations options) 100%nat in
  let h := default (no_h options) 1e-7 in
  let df :=
    match no_derivative options with
    | Some derivative => derivative
    | None => fun x => (f1 <- f (x + h) ;; f2 <- f (x - h) ;; ret ((f1 - f2) / (2 * h)))%eff
    end in
  newton_loop f df tolerance maxIterations x0.

(** The [while] loop of [secant]. *)
Fixpoint secant_loop (f : float -> Eff float) (tolerance : float)
  (remaining : nat) (x0 x1 : float) : Eff float :=
  match remaining with
  | O => throw SecantNoConvergence
  | S remaining' =>
      (fx0 <- f x0 ;;
       fx1 <- f x1 ;;
       if abs fx1 <? tolerance then ret x1
       else if abs (fx1 - fx0) <? 1e-12 then throw SecantDivisionByZero
       else
         let x2 := x1 - fx1 * (x1 - x0) / (fx1 - fx0) in
         if abs (x2 - x1) <? tolerance then ret x2
         else secant_loop f tolerance remaining' x1 x2)%eff
  end.

Definition secant (f : float -> Eff float) (x0 x1 : float)
  (options : SolverOptions) : Eff float :=
  let tolerance := default (so_tolerance options) 1e-8 in
  let maxIterations := default (so_maxIterations options) 100%nat in
  secant_loop f tolerance maxIterations x0 x1.

(** The variables of [brent]'s [for] loop. *)
Record BrentState := {
  br_a : float; br_b : float; br_c : float; br_d : float; br_e : float;
  br_fa : float; br_fb : float; br_fc : float
}.

(** One turn of the [for] loop up to the call [f(b)]: either [return b],
    or the variables and the new [b]. *)
Definition brent_turn (tolerance : float) (s : BrentState)
  : float + BrentState :=
  let '{| br_a := a; br_b := b; br_c := c; br_d := d; br_e := e;
          br_fa := fa; br_fb := fb; br_fc := fc |} := s in
  if abs fb <? tolerance then inl b
  else
    let '(c, fc, d, e) :=
      if 0 <? fa * fb then (a, fa, b - a, b - a) else (c, fc, d, e) in
    let '(a, b, c, fa, fb, fc) :=
      if abs fc <? abs fb then (b, c, b, fb, fc, fb) else (a, b, c, fa, fb, fc) in
    let tol1 := 2 * tolerance * abs b + tolerance / 2 in
    let xm := (c - b) / 2 in
    if (abs xm <=? tol1) || (fb =? 0) then inl b
    else
      let '(d, e) :=
        if (tol1 <=? abs e) && (abs fb <? abs fa) then
          let s := fb / fa in
          let '(p, q) :=
            if a =? c then (2 * xm * s, 1 - s)
            else
              let q1 := fa / fc in
              let q2 := fb / fc in
              (s * (2 * xm * q1 * (q1 - q2) - (b - a) * (q2 - 1)),
               (q1 - 1) * (q2 - 1) * (s - 1)) in
          let '(p, q) := if 0 <? p then (p, - q) else (- p, q) in
          let s_val := e in
          let e := d in
          if (2 * p <? 3 * xm * q - abs (tol1 * q)) && (p <? abs (0.5 * s_val * q))
          then (p / q, e)
          else (xm, xm)
        else (xm, xm) in
      let a := b in
      let fa := fb in
      let b := if tol1 <? abs d then b + d
               else b + (if 0 <? xm then tol1 else - tol1) in
      inr {| br_a := a; br_b := b; br_c := c; br_d := d; br_e := e;
             br_fa := fa; br_fb := fb; br_fc := fc |}.

Fixpoint brent_loop (f : float -> Eff float) (tolerance : float)
  (remaining : nat) (s : BrentState) : Eff float :=
  match remaining with
  | O => throw BrentNoConvergence
  | S remaining' =>
      match brent_turn tolerance s with
      | inl b => ret b
      | inr s' =>
          (fb <- f (br_b s') ;;
           brent_loop f tolerance remaining'
             {| br_a := br_a s'; br_b := br_b s'; br_c := br_c s';
                br_d := br_d s'; br_e := br_e s';
                br_fa := br_fa s'; br_fb := fb; br_fc := br_fc s' |})%eff
      end
  end.

Definition brent (f : float -> Eff float) (a b : float)
  (options : SolverOptions) : Eff float :=
  let tolerance := default (so_tolerance options) 1e-8 in
  let maxIterations := default (so_maxIterations options) 100%nat in
  (fa <- f a ;;
   fb <- f b ;;
   if 0 <? fa * fb then throw NoSignChange
   else
     let '(a, b, fa, fb) :=
       if abs fa <? abs fb then (b, a, fb, fa) else (a, b, fa, fb) in
     brent_loop f tolerance maxIterations
       {| br_a := a; br_b := b; br_c := a; br_d := b - a; br_e := b - a;
          br_fa := fa; br_fb := fb; br_fc := fa |})%eff.

Record SolveOptions := {
  method : option jsstring;
  bounds : option (float * float);     (* [[a, b]], or absent *)
  tolerance : option float;
  maxIterations : option nat
}.

(** The search-window expansion of [solve]'s default case, over the
    remaining values of [i]; the result is the bracket found, if any. *)
Fixpoint expand_search (f : float -> Eff float) (initialGuess : float)
  (steps : list float) : Eff (option (float * float)) :=
  match steps with
  | [] => ret None
  | i :: steps' =>
      let range := i * 10 in
      let a := initialGuess - range in
      let b := initialGuess + range in
      (fa <- f a ;;
       fb <- f b ;;
       if fa * fb <=? 0 then ret (Some (a, b))
       else expand_search f initialGuess steps')%eff
  end.

(** The closure [f] that [solve] builds from its arguments. *)
Definition solve_f (expression variable : jsstring) : float -> Eff float :=
  fun value state =>
    let (originalMemory, state) := spread_memory state in
    let state := write_memory state (toUpperCase rt variable) value in
    match evaluateWithState expression state with
    | (Ok result, state) => (Ok result, set_memory state originalMemory)
    | (Throw error, state) => (Throw error, set_memory state originalMemory)
    | (OutOfFuel, state) => (OutOfFuel, state)
    end.

Definition solve (expression : jsstring) (variable : option jsstring)
  (initialGuess : option float) (options : SolveOptions) : Eff float :=
  let variable := default variable (str "x") in
  let initialGuess := default initialGuess 0 in
  let method := default (method options) (str "brent") in
  let tolerance := default (tolerance options) 1e-8 in
  let maxIterations := default (maxIterations options) 100%nat in
  let inner := {| so_tolerance := Some tolerance;
                  so_maxIterations := Some maxIterations |} in
  let inner_newton := {| no_tolerance := Some tolerance;
                         no_maxIterations := Some maxIterations;
                         no_derivative := None; no_h := None |} in
  let f := solve_f expression variable in
  try_catch
    (if jseq method (str "bisection") then
       match bounds options with
       | None => throw BisectionRequiresBounds
       | Some (a, b) => bisection f a b inner
       end
     else if jseq method (str "newton") then newton f initialGuess inner_newton
     else if jseq method (str "secant") then
       let x1 := match bounds options with
                 | Some (_, b) => b
                 | None => initialGuess + 1
                 end in
       secant f initialGuess x1 inner
     else
       let '(a, b) := default (bounds options) (initialGuess - 10, initialGuess + 10) in
       (fa <- f a ;;
        fb <- f b ;;
        if 0 <? fa * fb then
          found <- expand_search f initialGuess [1; 2; 3; 4; 5; 6; 7; 8; 9; 10] ;;
          match found with
          | Some (a, b) => brent f a b inner
          | None => newton f initialGuess inner_newton
          end
        else brent f a b inner)%eff)
    (fun error => throw (SolverError error)).

End WithState.

(* ------------------------------------------------------------------ *)
(** ** Vocabulary of the properties *)

(** The pop condition, in words: [op1] is left-associative and its
    precedence is at most that of [op2], or [op1] is right-associative
    and its precedence is below that of [op2]. *)
Definition pop_condition (op1 op2 : OperatorSpec) : Prop :=
  (associativity op1 = assoc_left /\ precedence op1 <= precedence op2) \/
  (associativity op1 = assoc_right /\ precedence op1 < precedence op2).

(** A token that the operator case pops for [op1]. *)
Definition popped_for (op1 : OperatorSpec) (t : Token) : Prop :=
  exists v op2, t = OPERATOR v /\ lookup OPERATORS v = Some op2 /\ pop_condition op1 op2.

(** Every operator token carries a symbol of the operator table (as all
    tokens made by the tokenizer do). *)
Definition known_operator (t : Token) : Prop :=
  match t with
  | OPERATOR v => lookup OPERATORS v <> None
  | _ => True
  end.

(** The loop stops at a stack whose top is not an operator or fails the
    pop condition. *)
Definition stops_at (op1 : OperatorSpec) (rest : list Token) : Prop :=
  match rest with
  | OPERATOR v :: _ =>
      forall op2, lookup OPERATORS v = Some op2 -> ~ pop_condition op1 op2
  | _ => True
  end.

Definition empty_context : Context :=
  {| ctx_angleUnit := None; ctx_memory := None |}.

(** No key of the table starts with the code unit [char]. *)
Definition no_name_starts_with {A} (tbl : list (jsstring * A)) (char : N) : bool :=
  forallb (fun p => match fst p with
                    | c :: _ => negb (c =? char)%N
                    | [] => false
                    end) tbl.

(** The last token is an operator or a left parenthesis, or there is no
    token yet, or the cursor is at the start of the input. *)
Definition unary_position (i : nat) (tokens : list Token) : Prop :=
  i = 0 \/ tokens = [] \/
  (exists before v, tokens = before ++ [OPERATOR v]) \/
  (exists before, tokens = before ++ [LPAREN]).

(** The number that stands for the natural [k]. *)
Definition number (k : nat) : float := float_of_Z (Z.of_nat k).

(** The product 1 * 2 * ... * k, multiplied up from the left in floating
    point. *)
Fixpoint iterated_product (k : nat) : float :=
  match k with
  | O => 1%float
  | S k' => (iterated_product k' * number k)%float
  end.

(** A completion is the return of the value [v]. *)
Definition returns_exactly (c : completion float) (v : float) : bool :=
  match c with
  | Ok a => PrimFloat.Leibniz.eqb a v
  | _ => false
  end.

(** Parenthesis nesting of a token sequence, scanned from depth [depth]:
    the depth at the end, or [None] when a right parenthesis arrives at
    depth 0. *)
Fixpoint paren_depth (depth : nat) (tokens : list Token) : option nat :=
  match tokens with
  | [] => Some depth
  | LPAREN :: tokens' => paren_depth (S depth) tokens'
  | RPAREN :: tokens' =>
      match depth with
      | O => None
      | S depth' => paren_depth depth' tokens'
      end
  | _ :: tokens' => paren_depth depth tokens'
  end.

(** The parentheses of the tokens are balanced. *)
Definition balanced (tokens : list Token) : Prop :=
  paren_depth 0 tokens = Some 0.

(** The number of left parentheses on the operator stack. *)
Fixpoint open_parens (operatorStack : list Token) : nat :=
  match operatorStack with
  | [] => 0
  | LPAREN :: rest => S (open_parens rest)
  | _ :: rest => open_parens rest
  end.

(** A token as the tokenizer makes them: operator and function symbols
    are keys of their tables. *)
Definition pipeline_token (t : Token) : Prop :=
  match t with
  | OPERATOR v => lookup OPERATORS v <> None
  | FUNCTION f => lookup FUNCTIONS f <> None
  | _ => True
  end.

(** No key of the table contains the code unit [char]. *)
Definition no_name_contains {A} (tbl : list (jsstring * A)) (char : N) : bool :=
  forallb (fun p => negb (existsb (N.eqb char) (fst p))) tbl.

(** A numeric literal of the tokenizer: a non-empty run of digits and
    decimal points. *)
Definition numeric_literal (n : jsstring) : Prop :=
  n <> [] /\ Forall (fun c => is_number_char c = true) n.

(** [state.memory] refers to an allocated object. *)
Definition well_formed (st : Store) : Prop :=
  state_memory st < length (heap st).

(** The code completes (returns or throws) and leaves the bindings seen
    through [state.memory] as they were before it ran. *)
Definition restores_bindings {A} (m : Eff A) : Prop :=
  forall st, well_formed st ->
    fst (m st) <> OutOfFuel /\
    well_formed (snd (m st)) /\
    bindings (snd (m st)) = bindings st.

(** Negation of a returned value; a throw passes through. *)
Definition negated (r : completion float) : completion float :=
  match r with
  | Ok v => Ok (- v)%float
  | other => other
  end.

(** A store with the registers of the application's initial state, and
    [state.memory] referring to them. *)
Definition sample_store : Store :=
  {| heap := [[(str "M", JNum 0); (str "A", JNull); (str "X", JNull)]];
     state_memory := 0;
     state_angleUnit := str "DEG" |}.

(** What the evaluator is given when the closure of [solve] or
    [integrate] runs the expression at a trial value. *)
Definition trial_context (rt : Native) (variable : jsstring) (value : float)
  (st : Store) : Context :=
  {| ctx_angleUnit := Some (state_angleUnit st);
     ctx_memory := Some (assign (bindings st) (toUpperCase rt variable) (JNum value)) |}.

Definition trial_global (rt : Native) (variable : jsstring) (value : float)
  (st : Store) : option GlobalView :=
  Some {| gv_angleUnit := state_angleUnit st;
          gv_memory := assign (bindings st) (toUpperCase rt variable) (JNum value) |}.

Definition newton_options : SolveOptions :=
  {| method := Some (str "newton"); bounds := None;
     tolerance := None; maxIterations := None |}.

Definition default_integrate_options : IntegrateOptions :=
  {| io_tolerance := None; io_maxDepth := None; io_variable := None |}.

(** A code unit that the tokenizer always passes over: not a digit or
    dot, not the first unit of a function or constant name, not an
    operator, parenthesis or comma, not a letter. *)
Definition skipped_char (c : N) : bool :=
  negb (is_number_char c)
  && no_name_starts_with FUNCTIONS c
  && no_name_starts_with CONSTANTS c
  && match lookup OPERATORS [c] with Some _ => false | None => true end
  && negb (c =? 40)%N && negb (c =? 41)%N && negb (c =? 44)%N
  && negb (is_letter c).

(** The angle unit and the memory that [evaluate] works with, as it
    resolves them from its context argument and the global state. *)
Definition resolved_angleUnit (context : Context) (global : option GlobalView)
  : jsstring :=
  match truthy (ctx_angleUnit context) with
  | Some u => u
  | None =>
      match truthy (option_map gv_angleUnit global) with
      | Some u => u
      | None => str "DEG"
      end
  end.

Definition resolved_memory (context : Context) (global : option GlobalView)
  : Memory :=
  match ctx_memory context with
  | Some m => m
  | None =>
      match global with
      | Some g => gv_memory g
      | None => []
      end
  end.

(** The value of a variable token in a memory. *)
Definition variable_value (memory : Memory) (name : jsstring) : completion float :=
  match lookup memory name with
  | Some (JNum x) => Ok x
  | _ => Throw (UndefinedVariable name)
  end.

(** The function names that tokenize as themselves: no key listed
    before them in the table matches where they start. *)
Definition tokenizes_as_itself (f : jsstring) : Prop :=
  find_name FUNCTIONS f 0 = Some f.

(** The single-unit symbols of the operator table. *)
Definition operator_char (c : N) : Prop := lookup OPERATORS [c] <> None.

(** A token that parseToRPN moves to its output: every token but the
    parentheses and the comma. *)
Definition emitted (t : Token) : bool :=
  match t with
  | LPAREN | RPAREN | COMMA => false
  | _ => true
  end.

(** Numbers, constants and variables. *)
Definition is_operand (t : Token) : bool :=
  match t with
  | NUMBER _ | CONSTANT _ | VARIABLE _ => true
  | _ => false
  end.

(** What parseToRPN pushes on its operator stack. *)
Definition stackable (t : Token) : Prop :=
  match t with
  | OPERATOR _ | FUNCTION _ | LPAREN => True
  | _ => False
  end.

(** The tokens the tokenizer makes, branch by branch of its loop. *)
Inductive tokenizer_made : Token -> Prop :=
| made_number x : tokenizer_made (NUMBER x)
| made_function expression i f :
    find_name FUNCTIONS expression i = Some f -> tokenizer_made (FUNCTION f)
| made_constant expression i c :
    find_name CONSTANTS expression i = Some c -> tokenizer_made (CONSTANT c)
| made_operator c :
    lookup OPERATORS [c] <> None -> tokenizer_made (OPERATOR [c])
| made_lparen : tokenizer_made LPAREN
| made_rparen : tokenizer_made RPAREN
| made_comma : tokenizer_made COMMA
| made_variable c :
    is_letter c = true -> tokenizer_made (VARIABLE [c]).

(** The function names that a string can reach. *)
Definition reachable_functions : list jsstring :=
  [ str "sin"; str "cos"; str "tan"; str "asin"; str "acos"; str "atan";
    str "log"; str "ln"; [u_SQRT]; str "sqrt"; [u_CBRT]; [u_ROOT4];
    str "abs"; str "Abs" ].

(** The errors that evaluating a string can throw. *)
Definition pipeline_error (e : error) : Prop :=
  match e with
  | MismatchedParentheses | InsufficientOperands | DivisionByZero => True
  | UndefinedVariable v => exists c, v = [c] /\ is_letter c = true
  | InsufficientArguments f => In f reachable_functions
  | InvalidExpression n => n <> 1
  | InvalidDomain f => In f [str "log"; str "ln"; str "sqrt"]
  | UnknownOperator op =>
      In op [[u_MINUS]; [u_TIMES]; [u_DIVIDE]; [u_SQRT]; [u_CBRT]; [u_ROOT4]]
  | _ => False
  end.

(** Every throw of the code is an error with the property [P]. *)
Definition throws_only {A} (P : error -> Prop) (m : Eff A) : Prop :=
  forall st e, fst (m st) = Throw e -> P e.

(** What a 'Solver error' can wrap: a message of one of the four
    methods, or an error of evaluating the expression. *)
Definition solver_cause (e : error) : Prop :=
  match e with
  | BisectionRequiresBounds | NoSignChange | NewtonNoConvergence
  | DerivativeTooSmall | SecantDivisionByZero | SecantNoConvergence
  | BrentNoConvergence => True
  | other => pipeline_error other
  end.

Definition solve_error (e : error) : Prop :=
  match e with
  | SolverError cause => solver_cause cause
  | _ => False
  end.

(** What an 'Integration error' can wrap. *)
Definition integration_cause (e : error) : Prop :=
  match e with
  | Singularity | NonFiniteValue => True
  | other => pipeline_error other
  end.

Definition integrate_error (e : error) : Prop :=
  match e with
  | BoundsNotFinite => True
  | IntegrationError cause => integration_cause cause
  | _ => False
  end.

(** The tokens whose symbol has no case in [evaluateOperation]: the
    operators U+2212, U+00D7 and U+00F7 and the functions U+221A, U+221B
    and U+221C of the parser's tables. *)
Definition dead_token (t : Token) : Prop :=
  In t [OPERATOR [u_MINUS]; OPERATOR [u_TIMES]; OPERATOR [u_DIVIDE];
        FUNCTION [u_SQRT]; FUNCTION [u_CBRT]; FUNCTION [u_ROOT4]].

(** The case labels of [evaluateOperation] whose branch reads the angle
    unit. *)
Definition angle_dependent : list jsstring :=
  [ str "sin"; str "cos"; str "tan";
    label_inverse (str "sin"); str "asin";
    label_inverse (str "cos"); str "acos";
    label_inverse (str "tan"); str "atan" ].

(** A token that is not an operation on angles. *)
Definition angle_free (t : Token) : Prop :=
  match t with
  | OPERATOR v | FUNCTION v => ~ In v angle_dependent
  | _ => True
  end.

(* ------------------------------------------------------------------ *)
(** ** More of the solver and integration modules *)

Section MoreAlgorithms.

Open Scope float_scope.

Record FindAllRootsOptions := {
  fo_divisions : option nat;
  fo_tolerance : option float
}.

(** The [for] loop of [findAllRoots]; [divisions] is a count, [i] the
    loop counter as the number it is in the source.  A throw of [brent]
    is caught and the loop goes on. *)
Fixpoint findAllRoots_loop (f : float -> Eff float) (a step tolerance : float)
  (remaining : nat) (i : float) (roots : list float) : Eff (list float) :=
  match remaining with
  | O => ret roots
  | S remaining' =>
      let x1 := a + i * step in
      let x2 := a + (i + 1) * step in
      fun state =>
        match brent f x1 x2
                {| so_tolerance := Some tolerance; so_maxIterations := None |} state with
        | (Ok root, state') =>
            let isNew :=
              forallb (fun r => tolerance * 10 <? abs (r - root)) roots in
            findAllRoots_loop f a step tolerance remaining' (i + 1)
              (if isNew then roots ++ [root] else roots) state'
        | (Throw _, state') =>
            findAllRoots_loop f a step tolerance remaining' (i + 1) roots state'
        | (OutOfFuel, state') => (OutOfFuel, state')
        end
  end.

Definition findAllRoots (f : float -> Eff float) (a b : float)
  (options : FindAllRootsOptions) : Eff (list float) :=
  let divisions := default (fo_divisions options) 20%nat in
  let tolerance := default (fo_tolerance options) 1e-8 in
  let step := (b - a) / number divisions in
  findAllRoots_loop f a step tolerance divisions 0 [].

(** The [for] loop of [detectDiscontinuities]; [samples] is a count. *)
Fixpoint detectDiscontinuities_loop (f : float -> Eff float) (a step : float)
  (remaining : nat) (i : float) (discontinuities : list float)
  : Eff (list float) :=
  match remaining with
  | O => ret discontinuities
  | S remaining' =>
      let x := a + i * step in
      fun state =>
        match f x state with
        | (Ok y, state') =>
            detectDiscontinuities_loop f a step remaining' (i + 1)
              (if negb (isFinite y) then discontinuities ++ [x] else discontinuities)
              state'
        | (Throw _, state') =>
            detectDiscontinuities_loop f a step remaining' (i + 1)
              (discontinuities ++ [x]) state'
        | (OutOfFuel, state') => (OutOfFuel, state')
        end
  end.

Definition detectDiscontinuities (f : float -> Eff float) (a b : float)
  (samples : option nat) : Eff (list float) :=
  let samples := default samples 100%nat in
  let step := (b - a) / number samples in
  detectDiscontinuities_loop f a step samples 0 [].

End MoreAlgorithms.

(** The code returns or throws: it does not exhaust a loop budget. *)
Definition completes {A} (m : Eff A) : Prop :=
  forall st, fst (m st) <> OutOfFuel.


(** [f] computes [g], which may throw, and does not touch the store. *)
Definition stateless (f : float -> Eff float) (g : float -> completion float)
  : Prop :=
  forall x st, f x st = (g x, st) /\ g x <> OutOfFuel.

(** Any two roots differ by more than ten times the tolerance. *)
Definition separated (tolerance : float) (r r' : float) : Prop :=
  (tolerance * 10 <? abs (r - r'))%float = true.

(** A point at which [g] throws or returns a non-finite number. *)
Definition irregular_at (g : float -> completion float) (x : float) : Prop :=
  match g x with
  | Ok y => isFinite y = false
  | _ => True
  end.

(* ------------------------------------------------------------------ *)
(** ** Exact integer arithmetic, to compare MathUtils against *)

(** n! *)
Fixpoint fact_Z (n : nat) : Z :=
  match n with
  | O => 1
  | S k => Z.of_nat n * fact_Z k
  end.

(** nPr = n! / (n-r)! *)
Definition permutations_Z (n r : nat) : Z := (fact_Z n / fact_Z (n - r))%Z.

(** nCr = n! / (r! (n-r)!) *)
Definition binomial_Z (n r : nat) : Z :=
  (fact_Z n / (fact_Z r * fact_Z (n - r)))%Z.

(** The call returns a number that is exactly the integer [z]. *)
Definition returns_integer (c : completion float) (z : Z) : bool :=
  match c with
  | Ok v => (MathUtils.integer_value v =? z)%Z && Number_isInteger v
  | _ => false
  end.

(** The guards of [combination] pass on [n] and [r] as they should, and
    its loop, run on the smaller of [r] and [n - r], ends with exactly
    the binomial coefficient. *)
Definition combination_exact (n r : nat) : bool :=
  let fn := number n in
  let fr := number r in
  Number_isInteger fn && Number_isInteger fr
  && negb (fn <? 0)%float && negb (fr <? 0)%float && negb (fn <? fr)%float
  && Bool.eqb ((fr =? 0) || (fr =? fn))%float ((r =? 0) || (r =? n))%nat
  && (if ((r =? 0) || (r =? n))%nat then (binomial_Z n r =? 1)%Z
      else
        let r' := (if fn - fr <? fr then fn - fr else fr)%float in
        returns_integer
          (MathUtils.combination_loop (MathUtils.loop_budget r') 0 fn r' 1)
          (binomial_Z n r)).

(* ------------------------------------------------------------------ *)
(** ** The Complex class *)

Module Complex.

Open Scope float_scope.

(** [new Complex(real, imag)]. *)
Record Complex := new { real : float; imag : float }.

(** The argument [other] of the arithmetic methods, by its [typeof]:
    a number or a Complex. *)
Inductive Other :=
| a_number (x : float)
| a_Complex (z : Complex).

Definition magnitude (this : Complex) : float :=
  sqrt (real this * real this + imag this * imag this).

Definition conjugate (this : Complex) : Complex :=
  new (real this) (- imag this).

Definition add (this : Complex) (other : Other) : Complex :=
  match other with
  | a_number x => new (real this + x) (imag this)
  | a_Complex other => new (real this + real other) (imag this + imag other)
  end.

Definition multiply (this : Complex) (other : Other) : Complex :=
  match other with
  | a_number x => new (real this * x) (imag this * x)
  | a_Complex other =>
      new (real this * real other - imag this * imag other)
          (real this * imag other + imag this * real other)
  end.

(** [equals(other, tolerance = 1e-10)]. *)
Definition equals (this other : Complex) (tolerance : option float) : bool :=
  let tolerance := default tolerance 1e-10 in
  (abs (real this - real other) <? tolerance)
  && (abs (imag this - imag other) <? tolerance).

End Complex.

(** The options of a call that passes none. *)
Definition default_solve_options : SolveOptions :=
  {| method := None; bounds := None; tolerance := None; maxIterations := None |}.

(* ================================================================== *)
(** * Properties *)

Unset Implicit Arguments.

(* ------------------------------------------------------------------ *)
(** ** Strings and tables *)

Lemma jseq_eq (a b : jsstring) : jseq a b = true <-> a = b.
Proof.
  revert b; induction a as [|x a IH]; intros [|y b]; simpl;
    try (split; [discriminate | congruence]); try tauto.
  rewrite andb_true_iff, N.eqb_eq, IH.
  split; [intros [-> ->]; reflexivity | intros [= -> ->]; auto].
Qed.

Lemma jseq_refl (a : jsstring) : jseq a a = true.
Proof. apply jseq_eq; reflexivity. Qed.

(* ------------------------------------------------------------------ *)
(** ** Shunting yard: the operator case *)

Lemma pops_before_iff op1 op2 :
  pops_before op1 op2 = true <-> pop_condition op1 op2.
Proof.
  unfold pops_before, pop_condition.
  destruct (associativity op1).
  - rewrite Nat.leb_le. split; [auto | intros [[_ H]|[H _]]; [exact H | discriminate]].
  - rewrite Nat.ltb_lt. split; [auto | intros [[H _]|[_ H]]; [discriminate | exact H]].
Qed.

Lemma stops_at_not_popped op1 rest :
  stops_at op1 rest ->
  forall t rest', rest = t :: rest' -> ~ popped_for op1 t.
Proof.
  intros Hs t rest' -> (v & op2 & -> & Hl & Hc). exact (Hs op2 Hl Hc).
Qed.

Lemma pop_operators_spec op1 : forall operatorStack output,
  Forall known_operator operatorStack ->
  exists popped rest,
    operatorStack = popped ++ rest /\
    Forall (popped_for op1) popped /\
    stops_at op1 rest /\
    pop_operators (Some op1) output operatorStack = Ok (output ++ popped, rest).
Proof.
  induction operatorStack as [|top stack IH]; intros output Hk.
  - exists [], []. simpl. rewrite app_nil_r. repeat split; auto.
  - inversion Hk as [|? ? Htop Hstack]; subst.
    destruct top as [x|v|f| | | |c|v];
      try (exists []; eexists; simpl; rewrite app_nil_r;
           repeat split; exact I || constructor).
    cbn [known_operator] in Htop. cbn [pop_operators].
    destruct (lookup OPERATORS v) as [op2|] eqn:Hl; [|congruence].
    destruct (pops_before op1 op2) eqn:Hp.
    + destruct (IH (output ++ [OPERATOR v]) Hstack) as (popped & rest & -> & Hall & Hhd & Hrun).
      exists (OPERATOR v :: popped), rest. repeat split; auto.
      * constructor; auto. exists v, op2. rewrite <- pops_before_iff. auto.
      * rewrite Hrun, <- app_assoc. reflexivity.
    + exists [], (OPERATOR v :: stack). cbn [app stops_at]. rewrite app_nil_r.
      repeat split; auto.
      intros op2' Hl' Hc. rewrite Hl in Hl'. injection Hl' as <-.
      apply pops_before_iff in Hc. congruence.
Qed.

(** The operator case of [parseToRPN]: the longest run of operators on
    top of the stack that satisfy the pop condition moves to the output,
    in pop order, and the operator is pushed. *)
Lemma operator_case_spec v op1 output operatorStack :
  lookup OPERATORS v = Some op1 ->
  Forall known_operator operatorStack ->
  exists popped rest,
    operatorStack = popped ++ rest /\
    Forall (popped_for op1) popped /\
    (forall t rest', rest = t :: rest' -> ~ popped_for op1 t) /\
    rpn_step (OPERATOR v) output operatorStack
      = Ok (output ++ popped, OPERATOR v :: rest).
Proof.
  intros Hv Hk.
  destruct (pop_operators_spec op1 operatorStack output Hk) as (popped & rest & Heq & Hall & Hhd & Hrun).
  exists popped, rest. repeat split; auto.
  - apply stops_at_not_popped; assumption.
  - cbn [rpn_step]. rewrite Hv, Hrun. reflexivity.
Qed.

(* ------------------------------------------------------------------ *)
(** ** Running the pipeline on concrete expressions *)

Ltac run_pipeline rt :=
  destruct rt; cbn [parseFloat Math_pow] in *;
  vm_compute;
  repeat match goal with
         | H : _ = _ :> float |- _ => vm_compute in H; rewrite H
         end;
  try reflexivity.

Lemma evaluate_2_plus_3_times_4 rt context global :
  parseFloat rt (str "2") = 2%float ->
  parseFloat rt (str "3") = 3%float ->
  parseFloat rt (str "4") = 4%float ->
  evaluateExpression rt (str "2+3*4") context global = Ok 14%float.
Proof. intros H2 H3 H4. run_pipeline rt. Qed.

Lemma evaluate_paren_2_plus_3_times_4 rt context global :
  parseFloat rt (str "2") = 2%float ->
  parseFloat rt (str "3") = 3%float ->
  parseFloat rt (str "4") = 4%float ->
  evaluateExpression rt (str "(2+3)*4") context global = Ok 20%float.
Proof. intros H2 H3 H4. run_pipeline rt. Qed.

Lemma evaluate_2_pow_3_pow_2 rt context global :
  parseFloat rt (str "2") = 2%float ->
  parseFloat rt (str "3") = 3%float ->
  Math_pow rt 3 2 = 9%float ->
  Math_pow rt 2 9 = 512%float ->
  evaluateExpression rt (str "2^3^2") context global = Ok 512%float.
Proof. intros H2 H3 H32 H29. run_pipeline rt. Qed.

(** C1. Operator case of parseToRPN: for an operator token op1 of the
    table, the operators op2 on top of the stack are popped to the output
    while (op1 is left-associative and precedence(op1) <= precedence(op2))
    or (op1 is right-associative and precedence(op1) < precedence(op2)),
    and then op1 is pushed.  With the runtime parsing the literals 2, 3, 4
    and computing 3^2 = 9 and 2^9 = 512, the pipeline evaluates
    "2+3*4" to 14, "(2+3)*4" to 20 and "2^3^2" to 512. *)
Theorem C1_operator_case_and_precedence
  (rt : Native) (context : Context)
  (global : option GlobalView)
  (v : jsstring) (op1 : OperatorSpec) (output operatorStack : list Token)
  (Hop1 : lookup OPERATORS v = Some op1)
  (Hstack : Forall known_operator operatorStack)
  (H2 : parseFloat rt (str "2") = 2%float)
  (H3 : parseFloat rt (str "3") = 3%float)
  (H4 : parseFloat rt (str "4") = 4%float)
  (H32 : Math_pow rt 3 2 = 9%float)
  (H29 : Math_pow rt 2 9 = 512%float) :
  (exists popped rest,
      operatorStack = popped ++ rest /\
      Forall (popped_for op1) popped /\
      (forall t rest', rest = t :: rest' -> ~ popped_for op1 t) /\
      rpn_step (OPERATOR v) output operatorStack
        = Ok (output ++ popped, OPERATOR v :: rest)) /\
  evaluateExpression rt (str "2+3*4") context global = Ok 14%float /\
  evaluateExpression rt (str "(2+3)*4") context global = Ok 20%float /\
  evaluateExpression rt (str "2^3^2") context global = Ok 512%float.
Proof.
  split; [|split; [|split]].
  - apply operator_case_spec; assumption.
  - apply evaluate_2_plus_3_times_4; assumption.
  - apply evaluate_paren_2_plus_3_times_4; assumption.
  - apply evaluate_2_pow_3_pow_2; assumption.
Qed.

(** C1 at the test runtime, for the operator [+] arriving on the stack
    [*; ^; (]: both operators are popped, the parenthesis stays. *)
Lemma C1_operator_case_and_precedence_witness :
  (exists popped rest,
      [OPERATOR (str "*"); OPERATOR (str "^"); LPAREN] = popped ++ rest /\
      Forall (popped_for {| precedence := 1; associativity := assoc_left; op_args := 2 |}) popped /\
      (forall t rest', rest = t :: rest' ->
         ~ popped_for {| precedence := 1; associativity := assoc_left; op_args := 2 |} t) /\
      rpn_step (OPERATOR (str "+")) [NUMBER 1]
               [OPERATOR (str "*"); OPERATOR (str "^"); LPAREN]
        = Ok ([NUMBER 1] ++ popped, OPERATOR (str "+") :: rest)) /\
  evaluateExpression TestRuntime.runtime (str "2+3*4")
    empty_context None = Ok 14%float /\
  evaluateExpression TestRuntime.runtime (str "(2+3)*4")
    empty_context None = Ok 20%float /\
  evaluateExpression TestRuntime.runtime (str "2^3^2")
    empty_context None = Ok 512%float.
Proof.
  apply (C1_operator_case_and_precedence TestRuntime.runtime
           empty_context None (str "+")
           {| precedence := 1; associativity := assoc_left; op_args := 2 |}
           [NUMBER 1] [OPERATOR (str "*"); OPERATOR (str "^"); LPAREN]).
  - reflexivity.
  - repeat constructor; discriminate.
  - reflexivity.
  - reflexivity.
  - reflexivity.
  - reflexivity.
  - reflexivity.
Defined.

(* ------------------------------------------------------------------ *)
(** ** The tokenizer, one turn at a time *)

Lemma skipn_nth_error {A} (l : list A) i x :
  nth_error l i = Some x -> skipn i l = x :: skipn (S i) l.
Proof.
  revert i; induction l as [|y l IH]; intros [|i]; simpl; try discriminate.
  - intros [= ->]; reflexivity.
  - intros H. apply IH in H. exact H.
Qed.

Lemma find_name_no_start {A} (tbl : list (jsstring * A)) expression i char :
  nth_error expression i = Some char ->
  no_name_starts_with tbl char = true ->
  find_name tbl expression i = None.
Proof.
  intros Hc. unfold no_name_starts_with.
  induction tbl as [|[name a] tbl IH]; simpl; [reflexivity|].
  rewrite andb_true_iff. intros [Hname Htbl].
  destruct name as [|c name]; [discriminate|].
  unfold substr. rewrite (skipn_nth_error _ _ _ Hc). simpl.
  rewrite N.eqb_sym. apply negb_true_iff in Hname. rewrite Hname. simpl.
  auto.
Qed.

Lemma last_token_app tokens t : last_token (tokens ++ [t]) = Some t.
Proof. unfold last_token. rewrite rev_app_distr. reflexivity. Qed.

(** A minus sign ([-] or U+2212) at the start of the input, after an
    operator token or after a left parenthesis becomes the two tokens
    NUMBER(-1), OPERATOR(U+00D7); the cursor advances by one. *)
Lemma tokenize_unary_minus rt fuel expression i tokens char :
  nth_error expression i = Some char ->
  char = 45%N \/ char = u_MINUS ->
  unary_position i tokens ->
  tokenize_loop rt (S fuel) expression i tokens
  = tokenize_loop rt fuel expression (i + 1)
      (tokens ++ [NUMBER (-1)%float; OPERATOR [u_TIMES]]).
Proof.
  intros Hc Hchar Hpos.
  assert (Hu : ((i =? 0)%nat || (length tokens =? 0)%nat
                || is_operator_or_lparen (last_token tokens)) = true).
  { destruct Hpos as [-> | [-> | [(b & v & ->) | (b & ->)]]];
      rewrite ?last_token_app; cbn [is_operator_or_lparen length Nat.eqb];
      try reflexivity;
      repeat match goal with
             | |- context [(?a =? ?b)%nat] => destruct (a =? b)%nat
             end; reflexivity. }
  cbn [tokenize_loop]. rewrite Hc.
  destruct Hchar as [-> | ->];
    rewrite (find_name_no_start FUNCTIONS _ _ _ Hc eq_refl),
            (find_name_no_start CONSTANTS _ _ _ Hc eq_refl);
    cbv beta iota; change (is_number_char _) with false; cbv iota.
  - change (lookup OPERATORS [45%N]) with
      (Some {| precedence := 1; associativity := assoc_left; op_args := 2 |}).
    cbv iota. rewrite Hu. reflexivity.
  - change (lookup OPERATORS [u_MINUS]) with
      (Some {| precedence := 1; associativity := assoc_left; op_args := 2 |}).
    cbv iota. rewrite Hu. reflexivity.
Qed.

(** A minus sign after any other token stays a binary operator. *)
Lemma tokenize_binary_minus rt fuel expression i tokens char :
  nth_error expression i = Some char ->
  char = 45%N \/ char = u_MINUS ->
  (i =? 0)%nat = false -> (length tokens =? 0)%nat = false ->
  is_operator_or_lparen (last_token tokens) = false ->
  tokenize_loop rt (S fuel) expression i tokens
  = tokenize_loop rt fuel expression (i + 1) (tokens ++ [OPERATOR [char]]).
Proof.
  intros Hc Hchar Hi Hlen Hlast.
  cbn [tokenize_loop]. rewrite Hc.
  destruct Hchar as [-> | ->];
    rewrite (find_name_no_start FUNCTIONS _ _ _ Hc eq_refl),
            (find_name_no_start CONSTANTS _ _ _ Hc eq_refl);
    cbv beta iota; change (is_number_char _) with false; cbv iota.
  - change (lookup OPERATORS [45%N]) with
      (Some {| precedence := 1; associativity := assoc_left; op_args := 2 |}).
    cbv iota. rewrite Hi, Hlen, Hlast. reflexivity.
  - change (lookup OPERATORS [u_MINUS]) with
      (Some {| precedence := 1; associativity := assoc_left; op_args := 2 |}).
    cbv iota. rewrite Hi, Hlen, Hlast. reflexivity.
Qed.

(** C3. On "-3+5" and on "5*-2" the tokenizer emits NUMBER(-1),
    OPERATOR(U+00D7) for the minus sign, and the evaluation then throws
    'Unknown operator' for U+00D7: the evaluator's case label for the
    multiplication sign is the two-unit string U+221A U+00F3, which the
    token U+00D7 does not match.  The claimed results 2 and -10 are not
    produced. *)
Theorem C3_unary_minus_evaluation_throws
  (rt : Native) (context : Context)
  (global : option GlobalView) :
  tokenize rt (str "-3+5")
    = Ok [NUMBER (-1)%float; OPERATOR [u_TIMES]; NUMBER (parseFloat rt (str "3"));
          OPERATOR (str "+"); NUMBER (parseFloat rt (str "5"))] /\
  evaluateExpression rt (str "-3+5") context global
    = Throw (UnknownOperator [u_TIMES]) /\
  tokenize rt (str "5*-2")
    = Ok [NUMBER (parseFloat rt (str "5")); OPERATOR (str "*");
          NUMBER (-1)%float; OPERATOR [u_TIMES]; NUMBER (parseFloat rt (str "2"))] /\
  evaluateExpression rt (str "5*-2") context global
    = Throw (UnknownOperator [u_TIMES]).
Proof. repeat split; vm_compute; reflexivity. Qed.

(* ------------------------------------------------------------------ *)
(** ** Domain checks of the evaluator *)

Open Scope float_scope.

Lemma evaluateOperation_log rt x rest angleUnit :
  evaluateOperation rt (str "log") (x :: rest) angleUnit
  = if x <=? 0 then Throw (InvalidDomain (str "log")) else Ok (Math_log10 rt x).
Proof. reflexivity. Qed.

Lemma evaluateOperation_ln rt x rest angleUnit :
  evaluateOperation rt (str "ln") (x :: rest) angleUnit
  = if x <=? 0 then Throw (InvalidDomain (str "ln")) else Ok (Math_log rt x).
Proof. reflexivity. Qed.

Lemma evaluateOperation_sqrt rt x rest angleUnit :
  evaluateOperation rt (str "sqrt") (x :: rest) angleUnit
  = if x <? 0 then Throw (InvalidDomain (str "sqrt")) else Ok (sqrt x).
Proof. reflexivity. Qed.

Lemma evaluateOperation_divide rt a b rest angleUnit :
  evaluateOperation rt (str "/") (a :: b :: rest) angleUnit
  = if b =? 0 then Throw DivisionByZero else Ok (a / b).
Proof. reflexivity. Qed.

(** log and ln throw the domain error for every argument [<= 0], sqrt
    for every argument [< 0], and [/] throws 'Division by zero' exactly
    when its divisor equals 0. *)
Lemma evaluateOperation_domain_errors rt x y rest angleUnit :
  ((x <=? 0) = true ->
     evaluateOperation rt (str "log") (x :: rest) angleUnit
       = Throw (InvalidDomain (str "log")) /\
     evaluateOperation rt (str "ln") (x :: rest) angleUnit
       = Throw (InvalidDomain (str "ln"))) /\
  ((x <? 0) = true ->
     evaluateOperation rt (str "sqrt") (x :: rest) angleUnit
       = Throw (InvalidDomain (str "sqrt"))) /\
  (evaluateOperation rt (str "/") (x :: y :: rest) angleUnit
     = Throw DivisionByZero <-> (y =? 0) = true).
Proof.
  rewrite evaluateOperation_log, evaluateOperation_ln,
          evaluateOperation_sqrt, evaluateOperation_divide.
  repeat split.
  - rewrite H; reflexivity.
  - rewrite H; reflexivity.
  - intros ->; reflexivity.
  - destruct (y =? 0); [reflexivity | discriminate].
  - intros ->; reflexivity.
Qed.

Lemma evaluate_10_div_0 rt context global :
  parseFloat rt (str "10") = 10 ->
  parseFloat rt (str "0") = 0 ->
  evaluateExpression rt (str "10/0") context global = Throw DivisionByZero.
Proof. intros H10 H0. run_pipeline rt. Qed.

Lemma evaluate_log_0 rt context global :
  parseFloat rt (str "0") = 0 ->
  evaluateExpression rt (str "log(0)") context global
  = Throw (InvalidDomain (str "log")).
Proof. intros H0. run_pipeline rt. Qed.

(** C4. "sqrt(-1)" tokenizes to sqrt ( -1 U+00D7 1 ), and the evaluation
    throws 'Unknown operator' for U+00D7 before the square root is
    reached: no domain error is raised for it. *)
Theorem C4_sqrt_of_minus_one_throws_unknown_operator
  (rt : Native) (context : Context)
  (global : option GlobalView) :
  parse rt (str "sqrt(-1)")
    = Ok [NUMBER (-1); NUMBER (parseFloat rt (str "1")); OPERATOR [u_TIMES];
          FUNCTION (str "sqrt")] /\
  evaluateExpression rt (str "sqrt(-1)") context global
    = Throw (UnknownOperator [u_TIMES]).
Proof. split; vm_compute; reflexivity. Qed.

Close Scope float_scope.

(* ------------------------------------------------------------------ *)
(** ** Function names in the tokenizer *)

(** A function name found at the cursor becomes one FUNCTION token: the
    first key of the table, in its order, that matches there. *)
Lemma tokenize_function rt fuel expression i tokens char funcName :
  nth_error expression i = Some char ->
  is_number_char char = false ->
  find_name FUNCTIONS expression i = Some funcName ->
  tokenize_loop rt (S fuel) expression i tokens
  = tokenize_loop rt fuel expression (i + length funcName)
      (tokens ++ [FUNCTION funcName]).
Proof.
  intros Hc Hn Hf. cbn [tokenize_loop]. rewrite Hc, Hn, Hf. reflexivity.
Qed.

(** C5. "sinh" is tokenized as the function sin followed by the variable
    h, not as the one function token sinh: the table lists sin before
    sinh and the first match is taken.  ("sin" alone is one token.) *)
Theorem C5_sinh_is_split (rt : Native) :
  tokenize rt (str "sinh") = Ok [FUNCTION (str "sin"); VARIABLE (str "h")] /\
  tokenize rt (str "sinh(1)")
    = Ok [FUNCTION (str "sin"); VARIABLE (str "h"); LPAREN;
          NUMBER (parseFloat rt (str "1")); RPAREN] /\
  find_name FUNCTIONS (str "sinh") 0 = Some (str "sin") /\
  tokenize rt (str "sin") = Ok [FUNCTION (str "sin")].
Proof. repeat split; vm_compute; reflexivity. Qed.

(* ------------------------------------------------------------------ *)
(** ** Order facts on binary64 numbers *)

Ltac compare_cases :=
  repeat match goal with
  | H : context [Z.compare ?a ?b] |- _ => destruct (Z.compare_spec a b)
  | |- context [Z.compare ?a ?b] => destruct (Z.compare_spec a b)
  | H : context [Pos.compare_cont Eq ?a ?b] |- _ =>
      change (Pos.compare_cont Eq a b) with (Pos.compare a b) in *;
      destruct (Pos.compare_spec a b)
  | |- context [Pos.compare_cont Eq ?a ?b] =>
      change (Pos.compare_cont Eq a b) with (Pos.compare a b) in *;
      destruct (Pos.compare_spec a b)
  end.

Ltac spec_float_cases :=
  simpl;
  repeat match goal with s : bool |- _ => destruct s end; simpl;
  try discriminate; try reflexivity;
  compare_cases; simpl; intros; subst;
  try discriminate; try reflexivity; try lia.

Lemma SFltb_leb_trans a b c :
  SFltb a b = true -> SFleb b c = true -> SFltb a c = true.
Proof.
  unfold SFltb, SFleb.
  destruct a as [sa|sa| |sa ma ea], b as [sb|sb| |sb mb eb],
           c as [sc|sc| |sc mc ec]; spec_float_cases.
Qed.

Lemma SFcompare_eqb_r x a b :
  SFeqb x a = true -> SFcompare b x = SFcompare b a.
Proof.
  unfold SFeqb.
  destruct a as [sa|sa| |sa ma ea], b as [sb|sb| |sb mb eb],
           x as [sx|sx| |sx mx ex]; spec_float_cases.
Qed.

Lemma SFltb_antisym a b : SFltb a b = true -> SFltb b a = false.
Proof.
  unfold SFltb.
  destruct a as [sa|sa| |sa ma ea], b as [sb|sb| |sb mb eb]; spec_float_cases.
Qed.

Lemma SFltb_leb a b : SFltb a b = true -> SFleb a b = true.
Proof.
  unfold SFltb, SFleb. destruct (SFcompare a b) as [[ | | ]|]; auto.
Qed.

Lemma ltb_antisym (x y : float) : (x <? y)%float = true -> (y <? x)%float = false.
Proof. rewrite !FloatAxioms.ltb_spec. apply SFltb_antisym. Qed.

(** A number above [c] is neither equal to nor below a number [d] that
    [c] is not below. *)
Lemma above_excludes (c d x : float) :
  (c <? x)%float = true -> (c <? d)%float = false ->
  (x =? d)%float = false /\ (x <? d)%float = false.
Proof.
  rewrite !FloatAxioms.ltb_spec, FloatAxioms.eqb_spec. intros Hcx Hcd. split.
  - destruct (SFeqb (Prim2SF x) (Prim2SF d)) eqn:He; [|reflexivity].
    unfold SFltb in Hcx, Hcd.
    rewrite (SFcompare_eqb_r _ _ (Prim2SF c) He) in Hcx. congruence.
  - destruct (SFltb (Prim2SF x) (Prim2SF d)) eqn:Hl; [|reflexivity].
    apply SFltb_leb in Hl.
    rewrite (SFltb_leb_trans _ _ _ Hcx Hl) in Hcd. discriminate.
Qed.

(* ------------------------------------------------------------------ *)
(** ** Roots and factorial in the evaluator *)

Open Scope float_scope.

(** C6. The cube-root symbol U+221B and the fourth-root symbol U+221C
    are not evaluated: for every argument list, angle unit and runtime,
    evaluateOperation throws 'Unknown operator' on either symbol, and so
    do the strings that apply them, where the claim says a value is
    returned.  The two branches exist in the source, without a domain
    check, but under the mis-encoded labels [label_cbrt] and
    [label_root4], which are keys of no table and which no token
    carries; there they return Math.cbrt(x) and Math.pow(x, 1/4). *)
Theorem C6_root_symbols_throw_unknown_operator
  (rt : Native) (context : Context) (global : option GlobalView)
  (args : list float) (angleUnit : jsstring) :
  evaluateOperation rt [u_CBRT] args angleUnit
    = Throw (UnknownOperator [u_CBRT]) /\
  evaluateOperation rt [u_ROOT4] args angleUnit
    = Throw (UnknownOperator [u_ROOT4]) /\
  evaluateExpression rt (u_CBRT :: str "(8)") context global
    = Throw (UnknownOperator [u_CBRT]) /\
  evaluateExpression rt (u_ROOT4 :: str "(16)") context global
    = Throw (UnknownOperator [u_ROOT4]) /\
  lookup FUNCTIONS label_cbrt = None /\
  lookup FUNCTIONS label_root4 = None /\
  (forall x rest,
     evaluateOperation rt label_cbrt (x :: rest) angleUnit
       = Ok (Math_cbrt rt x) /\
     evaluateOperation rt label_root4 (x :: rest) angleUnit
       = Ok (Math_pow rt x (1 / 4))).
Proof.
  repeat split; reflexivity.
Qed.

Lemma evaluateOperation_factorial rt x rest angleUnit :
  evaluateOperation rt (str "!") (x :: rest) angleUnit
  = if negb (Number_isInteger x) || (x <? 0) then Throw FactorialDomain
    else MathUtils.factorial x.
Proof. reflexivity. Qed.

Lemma factorial_domain_error rt x rest angleUnit :
  Number_isInteger x = false \/ (x <? 0) = true ->
  evaluateOperation rt (str "!") (x :: rest) angleUnit = Throw FactorialDomain.
Proof.
  rewrite evaluateOperation_factorial.
  intros [-> | ->]; [reflexivity | rewrite orb_true_r; reflexivity].
Qed.

Lemma factorial_saturates rt x rest angleUnit :
  Number_isInteger x = true -> (170 <? x) = true ->
  evaluateOperation rt (str "!") (x :: rest) angleUnit = Ok infinity.
Proof.
  intros Hint Hbig.
  destruct (above_excludes 170 0 x Hbig eq_refl) as [H0 Hneg].
  destruct (above_excludes 170 1 x Hbig eq_refl) as [H1 _].
  rewrite evaluateOperation_factorial. unfold MathUtils.factorial.
  rewrite Hint, Hneg, H0, H1, Hbig. reflexivity.
Qed.

Lemma factorial_small_checked :
  forallb (fun k => returns_exactly (MathUtils.factorial (number k)) (iterated_product k)
                    && Number_isInteger (number k) && negb (number k <? 0))
          (seq 0 171) = true.
Proof. vm_compute. reflexivity. Qed.

Lemma factorial_small rt k rest angleUnit :
  k <= 170 ->
  evaluateOperation rt (str "!") (number k :: rest) angleUnit
  = Ok (iterated_product k).
Proof.
  intros Hk.
  pose proof factorial_small_checked as Hall.
  rewrite forallb_forall in Hall.
  specialize (Hall k). rewrite in_seq in Hall.
  assert (Hc : 0 <= k < 0 + 171) by lia. apply Hall in Hc.
  rewrite !andb_true_iff, negb_true_iff in Hc. destruct Hc as [[Hv Hi] Hn].
  rewrite evaluateOperation_factorial, Hi, Hn. cbn [negb orb].
  unfold returns_exactly in Hv.
  destruct (MathUtils.factorial (number k)) as [v| |]; try discriminate.
  apply Leibniz.eqb_spec in Hv. congruence.
Qed.

(** C7. The factorial operation throws the domain error for every
    operand that is not a non-negative integer, returns +Infinity for
    every integer operand above 170, and for the integers 0..170 returns
    the product 1*2*...*n multiplied up iteratively. *)
Theorem C7_factorial
  (rt : Native) (angleUnit : jsstring)
  (x y : float) (k : nat)
  (Hx : Number_isInteger x = false \/ (x <? 0) = true)
  (Hy : Number_isInteger y = true) (Hbig : (170 <? y) = true)
  (Hk : k <= 170) :
  evaluateOperation rt (str "!") [x] angleUnit = Throw FactorialDomain /\
  evaluateOperation rt (str "!") [y] angleUnit = Ok infinity /\
  evaluateOperation rt (str "!") [number k] angleUnit
    = Ok (iterated_product k).
Proof.
  split; [|split].
  - apply factorial_domain_error; assumption.
  - apply factorial_saturates; assumption.
  - apply factorial_small; assumption.
Qed.

(** C7 at the operands 2.5, 171 and 5 (5! = 120). *)
Lemma C7_factorial_witness :
  evaluateOperation TestRuntime.runtime (str "!") [2.5]
    (str "DEG") = Throw FactorialDomain /\
  evaluateOperation TestRuntime.runtime (str "!") [171]
    (str "DEG") = Ok infinity /\
  evaluateOperation TestRuntime.runtime (str "!") [number 5]
    (str "DEG") = Ok (iterated_product 5).
Proof.
  apply (C7_factorial TestRuntime.runtime (str "DEG")
           2.5 171 5).
  - left; reflexivity.
  - reflexivity.
  - reflexivity.
  - lia.
Defined.

Close Scope float_scope.

(* ------------------------------------------------------------------ *)
(** ** MathUtils.factorial completes on every number *)

Open Scope float_scope.

Lemma leb_above_excluded (c d x : float) :
  (c <? x) = false -> (c <? d) = true -> (d <=? x) = false.
Proof.
  rewrite !FloatAxioms.ltb_spec, FloatAxioms.leb_spec. intros Hcx Hcd.
  destruct (SFleb (Prim2SF d) (Prim2SF x)) eqn:Hle; [|reflexivity].
  rewrite (SFltb_leb_trans _ _ _ Hcd Hle) in Hcx. discriminate.
Qed.

Lemma number_successor_checked :
  forallb (fun k => PrimFloat.Leibniz.eqb (number k + 1) (number (S k)))
          (seq 0 172) = true.
Proof. vm_compute. reflexivity. Qed.

Lemma number_successor (k : nat) : (k <= 171)%nat -> number k + 1 = number (S k).
Proof.
  intros Hk. pose proof number_successor_checked as Hall.
  rewrite forallb_forall in Hall. apply Leibniz.eqb_spec, Hall, in_seq. lia.
Qed.

(** The loop of [factorial] stays within its budget: the counter reaches
    172 after at most 170 turns, and no operand that passed the guard
    [n > 170] is that large. *)
Lemma factorial_loop_completes n :
  (170 <? n) = false ->
  forall (fuel k : nat) (result : float),
    (k + fuel = 172)%nat ->
    MathUtils.factorial_loop fuel (number k) n result <> OutOfFuel.
Proof.
  intros Hn. induction fuel as [|fuel IH]; intros k result Hk.
  - cbn [MathUtils.factorial_loop].
    replace k with 172%nat by lia.
    rewrite (leb_above_excluded 170 (number 172) n Hn eq_refl). discriminate.
  - cbn [MathUtils.factorial_loop].
    destruct (number k <=? n); [|discriminate].
    rewrite number_successor by lia. apply IH. lia.
Qed.

Lemma factorial_completes n : MathUtils.factorial n <> OutOfFuel.
Proof.
  unfold MathUtils.factorial.
  destruct (negb (Number_isInteger n) || (n <? 0)); [discriminate|].
  destruct ((n =? 0) || (n =? 1)); [discriminate|].
  destruct (170 <? n) eqn:Hn; [discriminate|].
  apply (factorial_loop_completes n Hn 170 2 1). reflexivity.
Qed.

(** Negative zero is an integer that is not below 0: its factorial is 1. *)
Example factorial_of_negative_zero rt angleUnit :
  evaluateOperation rt (str "!") [(-0)%float] angleUnit = Ok 1.
Proof. reflexivity. Qed.

Close Scope float_scope.

(* ------------------------------------------------------------------ *)
(** ** Shunting yard: parentheses *)

Lemma pop_until_lparen_spec : forall operatorStack output,
  exists popped rest,
    operatorStack = popped ++ rest /\
    pop_until_lparen output operatorStack = (output ++ popped, rest) /\
    ~ In LPAREN popped /\
    (rest = [] \/ exists rest', rest = LPAREN :: rest').
Proof.
  induction operatorStack as [|t stack IH]; intros output.
  - exists [], []. rewrite (app_nil_r output). cbn. repeat split; auto.
  - destruct (IH (output ++ [t])) as (popped & rest & Heq & Hrun & Hno & Hrest).
    assert (Hstep : t <> LPAREN ->
              exists popped rest,
                t :: stack = popped ++ rest /\
                pop_until_lparen (output ++ [t]) stack = (output ++ popped, rest) /\
                ~ In LPAREN popped /\
                (rest = [] \/ exists rest', rest = LPAREN :: rest')).
    { intros Ht. exists (t :: popped), rest.
      rewrite Hrun, <- app_assoc, Heq. repeat split; auto.
      intros [H|H]; [congruence | auto]. }
    destruct t; try (apply Hstep; discriminate).
    exists [], (LPAREN :: stack). rewrite app_nil_r. cbn. repeat split; eauto.
Qed.

Lemma open_parens_app popped rest :
  ~ In LPAREN popped -> open_parens (popped ++ rest) = open_parens rest.
Proof.
  induction popped as [|t popped IH]; intros Hno; [reflexivity|].
  cbn [app]. destruct t; cbn [open_parens];
    try (apply IH; intros H; apply Hno; right; exact H).
  exfalso; apply Hno; left; reflexivity.
Qed.

Lemma open_parens_zero stack : open_parens stack = 0 <-> ~ In LPAREN stack.
Proof.
  induction stack as [|t stack IH]; [simpl; tauto|].
  assert (Hother : t <> LPAREN ->
            (open_parens stack = 0 <-> ~ In LPAREN (t :: stack))).
  { intros Ht. rewrite IH. cbn [In]. split; [intros H [H'|H']; auto | tauto]. }
  destruct t; try (apply Hother; discriminate).
  cbn [open_parens In]. split; [discriminate | intros H; exfalso; auto].
Qed.

Lemma open_parens_pos stack : open_parens stack <> 0 -> In LPAREN stack.
Proof.
  induction stack as [|t stack IH]; [cbn; congruence|].
  destruct t; cbn [open_parens]; intros H;
    try (right; apply IH; exact H).
  left; reflexivity.
Qed.

Lemma popped_for_not_lparen op1 popped :
  Forall (popped_for op1) popped -> ~ In LPAREN popped.
Proof.
  intros Hall Hin. rewrite Forall_forall in Hall.
  destruct (Hall _ Hin) as (v & op2 & H & _). discriminate.
Qed.

(** A right parenthesis that finds no left parenthesis on the stack
    raises the error. *)
Lemma rparen_without_lparen output operatorStack :
  ~ In LPAREN operatorStack ->
  rpn_step RPAREN output operatorStack = Throw MismatchedParentheses.
Proof.
  intros Hno. cbn [rpn_step].
  destruct (pop_until_lparen_spec operatorStack output)
    as (popped & rest & -> & -> & _ & [-> | (rest' & ->)]); [reflexivity|].
  exfalso. apply Hno, in_or_app. right; left; reflexivity.
Qed.

(** A parenthesis left on the stack raises the error in the final
    loop. *)
Lemma pop_remaining_paren : forall operatorStack output,
  In LPAREN operatorStack \/ In RPAREN operatorStack ->
  pop_remaining output operatorStack = Throw MismatchedParentheses.
Proof.
  induction operatorStack as [|t stack IH]; intros output [H|H];
    try contradiction;
    destruct t; cbn [pop_remaining]; try reflexivity;
    apply IH; destruct H as [H|H]; try discriminate; auto.
Qed.

Lemma pop_remaining_clean : forall operatorStack output,
  ~ In LPAREN operatorStack -> ~ In RPAREN operatorStack ->
  pop_remaining output operatorStack = Ok (output ++ operatorStack).
Proof.
  induction operatorStack as [|t stack IH]; intros output HL HR.
  - rewrite app_nil_r; reflexivity.
  - assert (HL' : ~ In LPAREN stack) by (intros H; apply HL; right; exact H).
    assert (HR' : ~ In RPAREN stack) by (intros H; apply HR; right; exact H).
    destruct t; cbn [pop_remaining];
      try (rewrite IH by assumption; rewrite <- app_assoc; reflexivity).
    + exfalso; apply HL; left; reflexivity.
    + exfalso; apply HR; left; reflexivity.
Qed.

(** What the loop over the tokens does with the parentheses: it returns
    when the nesting, counted from the parentheses already on the stack,
    closes at depth 0, and raises 'Mismatched parentheses' otherwise. *)
Lemma rpn_loop_parens : forall tokens output operatorStack,
  Forall known_operator tokens ->
  Forall known_operator operatorStack ->
  ~ In RPAREN operatorStack ->
  match paren_depth (open_parens operatorStack) tokens with
  | Some O => exists rpn, rpn_loop tokens output operatorStack = Ok rpn
  | _ => rpn_loop tokens output operatorStack = Throw MismatchedParentheses
  end.
Proof.
  induction tokens as [|token tokens IH]; intros output stack Htok Hstack HR.
  - cbn [paren_depth rpn_loop].
    destruct (open_parens stack) eqn:Hd.
    + apply open_parens_zero in Hd. rewrite pop_remaining_clean by assumption. eauto.
    + apply pop_remaining_paren. left. apply open_parens_pos. congruence.
  - inversion Htok as [|? ? Hk Htok']; subst.
    cbn [rpn_loop].
    destruct token as [x|v|f| | | |c|v].
    + apply (IH (output ++ [NUMBER x]) stack); assumption.
    + cbn [known_operator] in Hk.
      destruct (lookup OPERATORS v) as [op1|] eqn:Hop; [|congruence].
      destruct (operator_case_spec v op1 output _ Hop Hstack)
        as (popped & rest & -> & Hall & _ & ->).
      cbn [rbind paren_depth].
      rewrite open_parens_app by (eapply popped_for_not_lparen; eassumption).
      apply (IH (output ++ popped) (OPERATOR v :: rest)); [assumption | | ].
      * constructor; [cbn [known_operator]; congruence|]. apply Forall_app in Hstack. tauto.
      * intros [H|H]; [discriminate|]. apply HR, in_or_app. auto.
    + apply (IH output (FUNCTION f :: stack)); [assumption | | ].
      * constructor; [exact I | assumption].
      * intros [H|H]; [discriminate | auto].
    + apply (IH output (LPAREN :: stack)); [assumption | | ].
      * constructor; [exact I | assumption].
      * intros [H|H]; [discriminate | auto].
    + cbn [rpn_step paren_depth].
      destruct (pop_until_lparen_spec stack output)
        as (popped & rest & -> & -> & Hno & Hrest).
      rewrite open_parens_app by assumption.
      destruct Hrest as [-> | (rest' & ->)]; [reflexivity|].
      cbn [open_parens rbind].
      assert (Hk' : Forall known_operator rest').
      { apply Forall_app in Hstack. destruct Hstack as [_ H].
        inversion H; assumption. }
      assert (HR' : ~ In RPAREN rest').
      { intros H. apply HR, in_or_app. right; right; exact H. }
      destruct rest' as [|[x|v|f| | | |c|v] rest''];
        try (apply (IH (output ++ popped)); assumption).
      cbn [rbind open_parens].
      apply (IH ((output ++ popped) ++ [FUNCTION f]) rest'').
      * assumption.
      * inversion Hk'; assumption.
      * intros H. apply HR'. right; exact H.
    + cbn [rpn_step rbind paren_depth].
      destruct (pop_until_lparen_spec stack output)
        as (popped & rest & -> & -> & Hno & Hrest).
      rewrite open_parens_app by assumption.
      apply (IH (output ++ popped) rest); [assumption | | ].
      * apply Forall_app in Hstack. tauto.
      * intros H. apply HR, in_or_app. auto.
    + apply (IH (output ++ [CONSTANT c]) stack); assumption.
    + apply (IH (output ++ [VARIABLE v]) stack); assumption.
Qed.

(** Balanced tokens are converted without a parenthesis error. *)
Lemma parseToRPN_balanced tokens :
  Forall known_operator tokens -> balanced tokens ->
  exists rpn, parseToRPN tokens = Ok rpn.
Proof.
  intros Hk Hb.
  pose proof (rpn_loop_parens tokens [] [] Hk (Forall_nil _) (fun H => H)) as H.
  cbn [open_parens] in H. unfold balanced in Hb. rewrite Hb in H. exact H.
Qed.

(** C8. parseToRPN throws 'Mismatched parentheses' whenever the
    parentheses of its tokens are unbalanced, in either direction: a
    right parenthesis that finds no left parenthesis on the operator
    stack raises it during the scan, and a parenthesis still on the stack
    raises it in the final pop-all loop. *)
Theorem C8_mismatched_parentheses
  (tokens output stack1 stack2 : list Token)
  (Hknown : Forall known_operator tokens)
  (Hunbalanced : ~ balanced tokens)
  (Hscan : ~ In LPAREN stack1)
  (Hend : In LPAREN stack2 \/ In RPAREN stack2) :
  parseToRPN tokens = Throw MismatchedParentheses /\
  rpn_step RPAREN output stack1 = Throw MismatchedParentheses /\
  pop_remaining output stack2 = Throw MismatchedParentheses.
Proof.
  split; [|split].
  - pose proof (rpn_loop_parens tokens [] [] Hknown (Forall_nil _) (fun H => H)) as H.
    cbn [open_parens] in H. unfold balanced in Hunbalanced.
    destruct (paren_depth 0 tokens) as [[|d]|]; [congruence | exact H | exact H].
  - apply rparen_without_lparen; assumption.
  - apply pop_remaining_paren; assumption.
Qed.

(** C8 on the tokens of "(1", of "1)" with [+] on the stack, and on a
    final stack holding a left parenthesis. *)
Lemma C8_mismatched_parentheses_witness :
  parseToRPN [LPAREN; NUMBER 1] = Throw MismatchedParentheses /\
  rpn_step RPAREN [NUMBER 1] [OPERATOR (str "+")] = Throw MismatchedParentheses /\
  pop_remaining [NUMBER 1] [OPERATOR (str "+"); LPAREN] = Throw MismatchedParentheses.
Proof.
  apply (C8_mismatched_parentheses [LPAREN; NUMBER 1] [NUMBER 1]
           [OPERATOR (str "+")] [OPERATOR (str "+"); LPAREN]).
  - repeat constructor.
  - unfold balanced; cbn; discriminate.
  - intros [H|[]]; discriminate.
  - left; right; left; reflexivity.
Defined.

(* ------------------------------------------------------------------ *)
(** ** The tokens that reach the evaluator *)

Lemma lookup_key {A} (tbl : list (jsstring * A)) k :
  In k (map fst tbl) -> lookup tbl k <> None.
Proof.
  induction tbl as [|[k' a] tbl IH]; cbn [map fst In lookup]; [tauto|].
  intros [-> | H].
  - rewrite jseq_refl. discriminate.
  - destruct (jseq k' k); [discriminate | auto].
Qed.

Lemma lookup_is_key {A} (tbl : list (jsstring * A)) k :
  lookup tbl k <> None -> In k (map fst tbl).
Proof.
  induction tbl as [|[k' a] tbl IH]; cbn [map fst In lookup]; [congruence|].
  destruct (jseq k' k) eqn:E; [left; apply jseq_eq; exact E | auto].
Qed.

Lemma find_name_is_key {A} (tbl : list (jsstring * A)) expression i name :
  find_name tbl expression i = Some name -> In name (map fst tbl).
Proof.
  induction tbl as [|[k a] tbl IH]; cbn [find_name map fst In]; [discriminate|].
  destruct (jseq (substr expression i (length k)) k).
  - intros [= ->]; auto.
  - auto.
Qed.

Lemma function_names_nonempty name :
  In name (map fst FUNCTIONS) -> 1 <= length name.
Proof.
  cbn [map fst FUNCTIONS In].
  intros H; repeat (destruct H as [<- | H]; [cbn; lia|]); contradiction.
Qed.

Lemma constant_names_nonempty name :
  In name (map fst CONSTANTS) -> 1 <= length name.
Proof.
  cbn [map fst CONSTANTS In].
  intros H; repeat (destruct H as [<- | H]; [cbn; lia|]); contradiction.
Qed.

Lemma scan_number_nonempty c rest :
  is_number_char c = true -> 1 <= length (scan_number (c :: rest)).
Proof. intros H. cbn [scan_number]. rewrite H. cbn. lia. Qed.

Lemma Forall_snoc {A} (P : A -> Prop) l x :
  Forall P l -> P x -> Forall P (l ++ [x]).
Proof. intros Hl Hx. apply Forall_app. auto. Qed.

(** The main loop of the tokenizer ends within [length expression - i]
    turns, and every token it makes is a pipeline token. *)
Lemma tokenize_loop_total rt : forall fuel expression i tokens,
  length expression <= i + fuel ->
  Forall pipeline_token tokens ->
  exists tokens',
    tokenize_loop rt fuel expression i tokens = Ok tokens' /\
    Forall pipeline_token tokens'.
Proof.
  induction fuel as [|fuel IH]; intros expression i tokens Hlen Htok.
  - assert (Hnone : nth_error expression i = None) by (apply nth_error_None; lia).
    cbn [tokenize_loop]. rewrite Hnone. eauto.
  - cbn [tokenize_loop].
    destruct (nth_error expression i) as [char|] eqn:Hc; [|eauto].
    destruct (is_number_char char) eqn:Hnum.
    { rewrite (skipn_nth_error _ _ _ Hc).
      apply IH; [|apply Forall_snoc; [assumption | exact I]].
      pose proof (scan_number_nonempty char (skipn (S i) expression) Hnum). lia. }
    destruct (find_name FUNCTIONS expression i) as [funcName|] eqn:Hf.
    { apply find_name_is_key in Hf.
      apply IH; [pose proof (function_names_nonempty _ Hf); lia|].
      apply Forall_snoc; [assumption | apply lookup_key; exact Hf]. }
    destruct (find_name CONSTANTS expression i) as [constName|] eqn:Hk.
    { apply find_name_is_key in Hk.
      apply IH; [pose proof (constant_names_nonempty _ Hk); lia|].
      apply Forall_snoc; [assumption | exact I]. }
    destruct (lookup OPERATORS [char]) as [op|] eqn:Hop.
    { match goal with |- context [if ?c then _ else _] => destruct c end.
      - apply IH; [lia|]. change (tokens ++ [NUMBER (-1)%float] ++ [OPERATOR [u_TIMES]])
          with (tokens ++ [NUMBER (-1)%float; OPERATOR [u_TIMES]]).
        apply Forall_app. split; [assumption|].
        repeat constructor. cbn [pipeline_token]. discriminate.
      - apply IH; [lia|]. apply Forall_snoc; [assumption|].
        cbn [pipeline_token]. congruence. }
    repeat match goal with
           | |- context [if ?c then _ else _] => destruct c
           end;
      (apply IH; [lia | first [assumption | apply Forall_snoc; [assumption | exact I]]]).
Qed.

Lemma tokenize_total rt expression :
  exists tokens, tokenize rt expression = Ok tokens /\ Forall pipeline_token tokens.
Proof. unfold tokenize. apply tokenize_loop_total; [lia | constructor]. Qed.

Lemma pop_operators_parts op1 : forall operatorStack output output' stack',
  pop_operators op1 output operatorStack = Ok (output', stack') ->
  exists popped, operatorStack = popped ++ stack' /\ output' = output ++ popped.
Proof.
  induction operatorStack as [|t stack IH]; intros output output' stack'.
  - cbn. intros [= <- <-]. exists []. rewrite ?app_nil_r; auto.
  - cbn [pop_operators].
    assert (Hstop : Ok (output, t :: stack) = Ok (output', stack') ->
              exists popped, t :: stack = popped ++ stack' /\ output' = output ++ popped).
    { intros [= <- <-]. exists []. rewrite ?app_nil_r; auto. }
    destruct t; try exact Hstop.
    destruct op1 as [s1|]; [|discriminate].
    destruct (lookup OPERATORS value) as [s2|]; [|discriminate].
    destruct (pops_before s1 s2); [|exact Hstop].
    intros H. apply IH in H. destruct H as (popped & -> & ->).
    exists (OPERATOR value :: popped). rewrite <- app_assoc. auto.
Qed.

Lemma pop_remaining_parts : forall operatorStack output rpn,
  pop_remaining output operatorStack = Ok rpn -> rpn = output ++ operatorStack.
Proof.
  induction operatorStack as [|t stack IH]; intros output rpn.
  - cbn. intros [= <-]. rewrite app_nil_r. reflexivity.
  - destruct t; cbn [pop_remaining]; try discriminate;
      intros H; apply IH in H; rewrite H, <- app_assoc; reflexivity.
Qed.

Lemma rpn_step_Forall (P : Token -> Prop) token output operatorStack output' stack' :
  P token -> Forall P output -> Forall P operatorStack ->
  rpn_step token output operatorStack = Ok (output', stack') ->
  Forall P output' /\ Forall P stack'.
Proof.
  intros Ht Hout Hstack Hstep.
  assert (Hpop : forall popped rest,
             operatorStack = popped ++ rest -> Forall P popped /\ Forall P rest).
  { intros popped rest ->. apply Forall_app in Hstack. exact Hstack. }
  destruct token as [x|v|f| | | |c|v]; cbn [rpn_step] in Hstep.
  - injection Hstep as <- <-. auto using Forall_snoc.
  - destruct (pop_operators (lookup OPERATORS v) output operatorStack)
      as [[o s]| |] eqn:Hp; try discriminate.
    injection Hstep as <- <-. apply pop_operators_parts in Hp.
    destruct Hp as (popped & Heq & ->). destruct (Hpop _ _ Heq).
    split; [apply Forall_app; auto | constructor; auto].
  - injection Hstep as <- <-. auto.
  - injection Hstep as <- <-. auto.
  - destruct (pop_until_lparen_spec operatorStack output)
      as (popped & rest & Heq & Hrun & _ & _).
    rewrite Hrun in Hstep. destruct (Hpop _ _ Heq) as [Hp Hr].
    destruct rest as [|l rest]; [discriminate|].
    inversion Hr as [|? ? Hl Hr']; subst.
    assert (Hout' : Forall P (output ++ popped)) by (apply Forall_app; auto).
    destruct rest as [|[x|v|f| | | |c|v] rest]; injection Hstep as <- <-; auto.
    inversion Hr'; subst. auto using Forall_snoc.
  - destruct (pop_until_lparen_spec operatorStack output)
      as (popped & rest & Heq & Hrun & _ & _).
    rewrite Hrun in Hstep. injection Hstep as <- <-.
    destruct (Hpop _ _ Heq). split; [apply Forall_app; auto | auto].
  - injection Hstep as <- <-. auto using Forall_snoc.
  - injection Hstep as <- <-. auto using Forall_snoc.
Qed.

(** parseToRPN only moves tokens: every token of the output is one of
    the input. *)
Lemma rpn_loop_Forall (P : Token -> Prop) : forall tokens output operatorStack rpn,
  Forall P tokens -> Forall P output -> Forall P operatorStack ->
  rpn_loop tokens output operatorStack = Ok rpn -> Forall P rpn.
Proof.
  induction tokens as [|token tokens IH]; intros output stack rpn Htok Hout Hstack.
  - cbn [rpn_loop]. intros H. apply pop_remaining_parts in H. subst rpn.
    apply Forall_app; auto.
  - inversion Htok as [|? ? Ht Htok']; subst.
    cbn [rpn_loop].
    destruct (rpn_step token output stack) as [[output' stack']| |] eqn:Hstep;
      try discriminate.
    cbn [rbind].
    destruct (rpn_step_Forall P _ _ _ _ _ Ht Hout Hstack Hstep).
    apply IH; assumption.
Qed.

Lemma parse_pipeline_tokens rt expression rpn :
  parse rt expression = Ok rpn -> Forall pipeline_token rpn.
Proof.
  unfold parse. destruct (tokenize_total rt expression) as (tokens & -> & Htok).
  cbn [rbind]. unfold parseToRPN. apply rpn_loop_Forall; auto.
Qed.

(* ------------------------------------------------------------------ *)
(** ** The exclamation mark *)

(** The tokenizer skips an exclamation mark. *)
Lemma tokenize_drops_exclamation rt fuel expression i tokens :
  nth_error expression i = Some 33%N ->
  tokenize_loop rt (S fuel) expression i tokens
  = tokenize_loop rt fuel expression (i + 1) tokens.
Proof.
  intros Hc. cbn [tokenize_loop]. rewrite Hc.
  rewrite (find_name_no_start FUNCTIONS _ _ _ Hc eq_refl),
          (find_name_no_start CONSTANTS _ _ _ Hc eq_refl).
  reflexivity.
Qed.

Lemma number_char_not_whitespace c :
  is_number_char c = true -> is_whitespace c = false.
Proof.
  unfold is_number_char, is_digit.
  rewrite orb_true_iff, andb_true_iff, !N.leb_le, N.eqb_eq.
  intros H.
  assert (Hc : In c [46; 48; 49; 50; 51; 52; 53; 54; 55; 56; 57]%N).
  { cbn [In]. lia. }
  cbn [In] in Hc.
  repeat (destruct Hc as [<- | Hc]; [reflexivity|]). contradiction.
Qed.

Lemma remove_whitespace_literal n :
  Forall (fun c => is_number_char c = true) n ->
  remove_whitespace (n ++ str "!") = n ++ str "!".
Proof.
  unfold remove_whitespace. induction 1 as [|c n Hc Hn IH]; [reflexivity|].
  cbn [app filter]. rewrite (number_char_not_whitespace c Hc). cbn [negb].
  f_equal. exact IH.
Qed.

Lemma scan_number_literal n rest :
  Forall (fun c => is_number_char c = true) n ->
  scan_number (n ++ 33%N :: rest) = n.
Proof.
  induction 1 as [|c n Hc Hn IH]; [reflexivity|].
  cbn [app scan_number]. rewrite Hc. f_equal. exact IH.
Qed.

Lemma tokenize_number rt fuel expression i tokens char :
  nth_error expression i = Some char ->
  is_number_char char = true ->
  tokenize_loop rt (S fuel) expression i tokens
  = tokenize_loop rt fuel expression (i + length (scan_number (skipn i expression)))
      (tokens ++ [NUMBER (parseFloat rt (scan_number (skipn i expression)))]).
Proof. intros Hc Hn. cbn [tokenize_loop]. rewrite Hc, Hn. reflexivity. Qed.

Lemma tokenize_end rt fuel expression i tokens :
  nth_error expression i = None ->
  tokenize_loop rt fuel expression i tokens = Ok tokens.
Proof. intros Hc. destruct fuel; cbn [tokenize_loop]; rewrite Hc; reflexivity. Qed.

Lemma tokenize_literal_exclamation rt n :
  numeric_literal n ->
  tokenize rt (n ++ str "!") = Ok [NUMBER (parseFloat rt n)].
Proof.
  intros [Hne Hnum]. unfold tokenize.
  rewrite (remove_whitespace_literal n Hnum).
  change (str "!") with [33%N].
  destruct n as [|c n]; [congruence|].
  pose proof Hnum as Hnum'. inversion Hnum' as [|? ? Hc Hn]; subst.
  rewrite length_app. cbn [length].
  replace (S (length n) + 1) with (S (S (length n))) by lia.
  rewrite (tokenize_number rt (S (length n)) ((c :: n) ++ [33%N]) 0 [] c eq_refl Hc).
  cbn [skipn]. rewrite (scan_number_literal (c :: n) [] Hnum).
  rewrite tokenize_drops_exclamation.
  - apply tokenize_end, nth_error_None. rewrite length_app. cbn [length]. lia.
  - rewrite nth_error_app2 by (cbn [length]; lia).
    replace (0 + length (c :: n) - length (c :: n)) with 0 by lia. reflexivity.
Qed.

Lemma evaluate_literal_exclamation rt context global n :
  numeric_literal n ->
  evaluateExpression rt (n ++ str "!") context global
  = Ok (parseFloat rt n).
Proof.
  intros Hn. unfold evaluateExpression, parse.
  rewrite (tokenize_literal_exclamation rt n Hn). reflexivity.
Qed.

Lemma exclamation_in_no_table :
  no_name_contains OPERATORS 33 = true /\
  no_name_contains FUNCTIONS 33 = true /\
  no_name_contains CONSTANTS 33 = true /\
  lookup OPERATORS (str "!") = None /\
  lookup FUNCTIONS (str "!") = None /\
  lookup CONSTANTS (str "!") = None.
Proof. repeat split; reflexivity. Qed.

(** C10. The exclamation mark occurs in no key of the operator, function
    and constant tables; the tokenizer skips it; no token of a parsed
    expression carries it as an operator or function symbol, so the
    factorial case of evaluateOperation is not reached from a string; and
    a numeric literal followed by "!" evaluates to the literal. *)
Theorem C10_exclamation_mark_is_dropped
  (rt : Native) (context : Context)
  (global : option GlobalView)
  (fuel i : nat) (expression : jsstring) (tokens rpn : list Token) (n : jsstring)
  (Hchar : nth_error expression i = Some 33%N)
  (Hparse : parse rt expression = Ok rpn)
  (Hn : numeric_literal n) :
  (no_name_contains OPERATORS 33 = true /\
   no_name_contains FUNCTIONS 33 = true /\
   no_name_contains CONSTANTS 33 = true) /\
  tokenize_loop rt (S fuel) expression i tokens
    = tokenize_loop rt fuel expression (i + 1) tokens /\
  (~ In (OPERATOR (str "!")) rpn /\ ~ In (FUNCTION (str "!")) rpn) /\
  evaluateExpression rt (n ++ str "!") context global
    = Ok (parseFloat rt n).
Proof.
  split; [|split; [|split]].
  - repeat split; reflexivity.
  - apply tokenize_drops_exclamation; assumption.
  - pose proof (parse_pipeline_tokens rt expression rpn Hparse) as Hall.
    rewrite Forall_forall in Hall.
    split; intros Hin; apply Hall in Hin; apply Hin; reflexivity.
  - apply evaluate_literal_exclamation; assumption.
Qed.

(** C10 on the expression "5!" and the literal "12.5". *)
Lemma C10_exclamation_mark_is_dropped_witness :
  (no_name_contains OPERATORS 33 = true /\
   no_name_contains FUNCTIONS 33 = true /\
   no_name_contains CONSTANTS 33 = true) /\
  tokenize_loop TestRuntime.runtime 1 (str "5!") 1 [NUMBER 5]
    = tokenize_loop TestRuntime.runtime 0 (str "5!") (1 + 1) [NUMBER 5] /\
  (~ In (OPERATOR (str "!")) [NUMBER 5] /\ ~ In (FUNCTION (str "!")) [NUMBER 5]) /\
  evaluateExpression TestRuntime.runtime
    (str "12.5" ++ str "!") empty_context None
    = Ok (parseFloat TestRuntime.runtime (str "12.5")).
Proof.
  apply (C10_exclamation_mark_is_dropped TestRuntime.runtime
           empty_context None 0 1 (str "5!") [NUMBER 5] [NUMBER 5] (str "12.5")).
  - reflexivity.
  - reflexivity.
  - split; [discriminate | repeat constructor].
Defined.

(* ------------------------------------------------------------------ *)
(** ** The pipeline always completes *)

Lemma evaluateOperation_completes rt op args angleUnit :
  In op (map fst OPERATORS) \/ In op (map fst FUNCTIONS) ->
  evaluateOperation rt op args angleUnit <> OutOfFuel.
Proof.
  cbn [map fst OPERATORS FUNCTIONS In].
  intros [H|H];
    repeat (destruct H as [<- | H];
            [ vm_compute;
              repeat match goal with
                     | |- context [if ?c then _ else _] => destruct c
                     end; discriminate |]);
    contradiction.
Qed.

Lemma evaluate_loop_completes rt angleUnit memory : forall rpn stack,
  Forall pipeline_token rpn ->
  evaluate_loop rt rpn stack angleUnit memory <> OutOfFuel.
Proof.
  induction rpn as [|token rpn IH]; intros stack Hall; [discriminate|].
  inversion Hall as [|? ? Ht Hrpn]; subst.
  destruct token as [x|v|f| | | |c|v]; cbn [evaluate_loop]; try discriminate.
  - apply IH; assumption.
  - destruct stack as [|b [|a stack]]; try discriminate.
    pose proof (evaluateOperation_completes rt v [a; b] angleUnit
                  (or_introl (lookup_is_key OPERATORS v Ht))) as Hop.
    destruct (evaluateOperation rt v [a; b] angleUnit); cbn [rbind];
      [apply IH; assumption | discriminate | congruence].
  - cbn [pipeline_token] in Ht.
    destruct (lookup FUNCTIONS f) as [funcInfo|] eqn:Hf; [|discriminate].
    destruct (length stack <? args funcInfo)%nat; [discriminate|].
    assert (Hkey : In f (map fst FUNCTIONS)) by (apply lookup_is_key; congruence).
    pose proof (evaluateOperation_completes rt f
                  (rev (firstn (args funcInfo) stack)) angleUnit
                  (or_intror Hkey)) as Hop.
    destruct (evaluateOperation rt f _ angleUnit); cbn [rbind];
      [apply IH; assumption | discriminate | congruence].
  - destruct (lookup CONSTANTS c); [apply IH; assumption | discriminate].
  - destruct (lookup memory v) as [[|x]|]; try discriminate. apply IH; assumption.
Qed.

Lemma pop_operators_completes op1 : forall operatorStack output,
  pop_operators op1 output operatorStack <> OutOfFuel.
Proof.
  induction operatorStack as [|t stack IH]; intros output; [discriminate|].
  destruct t; cbn [pop_operators]; try discriminate.
  destruct op1; [|discriminate].
  destruct (lookup OPERATORS value); [|discriminate].
  destruct (pops_before _ _); [apply IH | discriminate].
Qed.

Lemma pop_remaining_completes : forall operatorStack output,
  pop_remaining output operatorStack <> OutOfFuel.
Proof.
  induction operatorStack as [|t stack IH]; intros output; [discriminate|].
  destruct t; cbn [pop_remaining]; try discriminate; apply IH.
Qed.

Lemma rpn_step_completes token output operatorStack :
  rpn_step token output operatorStack <> OutOfFuel.
Proof.
  destruct token; cbn [rpn_step]; try discriminate.
  - pose proof (pop_operators_completes (lookup OPERATORS value) operatorStack output).
    destruct (pop_operators _ _ _) as [[o s]| |]; cbn [rbind]; congruence.
  - destruct (pop_until_lparen output operatorStack) as [o [|l [|[] s]]]; discriminate.
Qed.

Lemma rpn_loop_completes : forall tokens output operatorStack,
  rpn_loop tokens output operatorStack <> OutOfFuel.
Proof.
  induction tokens as [|token tokens IH]; intros output stack;
    [apply pop_remaining_completes|].
  cbn [rpn_loop]. pose proof (rpn_step_completes token output stack).
  destruct (rpn_step token output stack) as [[o s]| |]; cbn [rbind];
    [apply IH | discriminate | congruence].
Qed.

(** Evaluating a string returns or throws: no loop of the pipeline runs
    out of its budget. *)
Lemma evaluateExpression_completes rt expression context global :
  evaluateExpression rt expression context global <> OutOfFuel.
Proof.
  unfold evaluateExpression.
  destruct (parse rt expression) as [rpn| |] eqn:Hparse; cbn [rbind].
  - unfold evaluate.
    pose proof (parse_pipeline_tokens rt expression rpn Hparse) as Hall.
    match goal with
    | |- context [evaluate_loop rt rpn [] ?u ?m] =>
        pose proof (evaluate_loop_completes rt u m rpn [] Hall) as H;
        destruct (evaluate_loop rt rpn [] u m) as [[|v [|w stack]]| |]
    end; cbn [rbind]; congruence.
  - discriminate.
  - unfold parse in Hparse.
    destruct (tokenize_total rt expression) as (tokens & Htok & _).
    rewrite Htok in Hparse. cbn [rbind] in Hparse.
    exfalso. exact (rpn_loop_completes tokens [] [] Hparse).
Qed.

(* ------------------------------------------------------------------ *)
(** ** Bindings across solve and integrate *)

Lemma update_nth_length {A} (l : list A) n x : length (update_nth l n x) = length l.
Proof.
  revert n; induction l as [|y l IH]; intros [|n]; cbn [update_nth length]; auto.
Qed.

Lemma nth_update_nth_same {A} (l : list A) n x d :
  n < length l -> nth n (update_nth l n x) d = x.
Proof.
  revert n; induction l as [|y l IH]; intros [|n]; cbn [update_nth length nth];
    intros H; try lia; auto. apply IH. lia.
Qed.

Lemma nth_update_nth_other {A} (l : list A) n m x d :
  n <> m -> nth m (update_nth l n x) d = nth m l d.
Proof.
  revert n m; induction l as [|y l IH]; intros [|n] [|m] H;
    cbn [update_nth nth]; auto; try congruence.
Qed.

(** What one call of the closure does to the store: the evaluator sees
    the bindings with the upper-cased variable set to the trial value,
    and afterwards [state.memory] is the snapshot. *)
Lemma createFunctionFromExpression_run rt expression variable value st :
  well_formed st ->
  let result := createFunctionFromExpression rt expression variable value st in
  fst result
    = evaluateExpression rt expression
        (trial_context rt variable value st) (trial_global rt variable value st) /\
  fst result <> OutOfFuel /\
  well_formed (snd result) /\
  bindings (snd result) = bindings st.
Proof.
  intros Hwf. unfold well_formed in Hwf.
  unfold createFunctionFromExpression, spread_memory, evaluateWithState,
    trial_context, trial_global.
  cbn [write_memory state_memory heap state_angleUnit].
  set (st1 := {| heap := heap st ++ [bindings st];
                 state_memory := state_memory st;
                 state_angleUnit := state_angleUnit st |}).
  assert (Hb1 : bindings st1 = bindings st).
  { unfold bindings, deref. cbn [heap state_memory st1].
    rewrite app_nth1 by assumption. reflexivity. }
  set (st2 := write_memory st1 (toUpperCase rt variable) value).
  assert (Hb2 : bindings st2
                = assign (bindings st) (toUpperCase rt variable) (JNum value)).
  { unfold bindings at 1, deref. cbn [heap state_memory st2 st1 write_memory].
    rewrite nth_update_nth_same by (rewrite length_app; lia).
    rewrite Hb1. reflexivity. }
  assert (Hsnap : bindings (set_memory st2 (length (heap st))) = bindings st).
  { unfold bindings at 1, deref. cbn [heap state_memory set_memory st2 st1 write_memory].
    rewrite nth_update_nth_other by lia.
    rewrite app_nth2 by lia. rewrite Nat.sub_diag. reflexivity. }
  assert (Hwf' : well_formed (set_memory st2 (length (heap st)))).
  { unfold well_formed. cbn [heap state_memory set_memory st2 st1 write_memory].
    rewrite update_nth_length, length_app. cbn [length]. lia. }
  rewrite Hb2.
  pose proof (evaluateExpression_completes rt expression
    {| ctx_angleUnit := Some (state_angleUnit st);
       ctx_memory := Some (assign (bindings st) (toUpperCase rt variable) (JNum value)) |}
    (Some {| gv_angleUnit := state_angleUnit st;
             gv_memory := assign (bindings st) (toUpperCase rt variable) (JNum value) |}))
    as Hcompletes.
  destruct (evaluateExpression rt expression _ _); cbn [fst snd];
    repeat split; auto; try discriminate; congruence.
Qed.

Lemma createFunctionFromExpression_restores rt expression variable value :
  restores_bindings (createFunctionFromExpression rt expression variable value).
Proof.
  intros st Hwf.
  destruct (createFunctionFromExpression_run rt expression variable value st Hwf)
    as (_ & H1 & H2 & H3). auto.
Qed.

Lemma restores_ret {A} (a : A) : restores_bindings (ret a).
Proof. intros st Hwf. cbn. repeat split; auto; discriminate. Qed.

Lemma restores_throw {A} (e : error) : restores_bindings (@throw A e).
Proof. intros st Hwf. cbn. repeat split; auto; discriminate. Qed.

Lemma restores_bind {A B} (m : Eff A) (k : A -> Eff B) :
  restores_bindings m -> (forall a, restores_bindings (k a)) ->
  restores_bindings (bind m k).
Proof.
  intros Hm Hk st Hwf. unfold bind.
  destruct (Hm st Hwf) as (Hc & Hwf' & Hb).
  destruct (m st) as [[a|e|] st']; cbn [fst snd] in *.
  - destruct (Hk a st' Hwf') as (Hc2 & Hwf2 & Hb2).
    repeat split; auto. congruence.
  - repeat split; auto. discriminate.
  - congruence.
Qed.

Lemma restores_try_catch {A} (m : Eff A) (handler : error -> Eff A) :
  restores_bindings m -> (forall e, restores_bindings (handler e)) ->
  restores_bindings (try_catch m handler).
Proof.
  intros Hm Hh st Hwf. unfold try_catch.
  destruct (Hm st Hwf) as (Hc & Hwf' & Hb).
  destruct (m st) as [[a|e|] st']; cbn [fst snd] in *.
  - repeat split; auto.
  - destruct (Hh e st' Hwf') as (Hc2 & Hwf2 & Hb2).
    repeat split; auto. congruence.
  - congruence.
Qed.

(** One structural step towards [restores_bindings]. *)
Ltac restores_step :=
  match goal with
  | |- restores_bindings (ret _) => apply restores_ret
  | |- restores_bindings (throw _) => apply restores_throw
  | |- restores_bindings (bind _ _) => apply restores_bind; [|intros ?]
  | |- restores_bindings (try_catch _ _) => apply restores_try_catch; [|intros ?]
  | H : forall x, restores_bindings (?f x) |- restores_bindings (?f _) => apply H
  | |- restores_bindings (if ?c then _ else _) => destruct c
  | |- restores_bindings (match ?x with _ => _ end) => destruct x
  end.

Section Algorithms.

Variable f : float -> Eff float.
Hypothesis f_restores : forall x, restores_bindings (f x).

Lemma adaptiveSimpson_restores : forall depth a b epsilon Sab fa fb fc,
  restores_bindings (adaptiveSimpson f a b epsilon Sab fa fb fc depth).
Proof.
  induction depth as [|depth IH]; intros; cbn [adaptiveSimpson];
    repeat first [apply IH | restores_step].
Qed.

Lemma bisection_loop_restores tolerance : forall remaining a b fa fb,
  restores_bindings (bisection_loop f tolerance remaining a b fa fb).
Proof.
  induction remaining as [|remaining IH]; intros; cbn [bisection_loop];
    repeat first [apply IH | restores_step].
Qed.

Lemma bisection_restores a b options : restores_bindings (bisection f a b options).
Proof.
  unfold bisection; repeat first [apply bisection_loop_restores | restores_step].
Qed.

Lemma newton_loop_restores (df : float -> Eff float) tolerance :
  (forall x, restores_bindings (df x)) ->
  forall remaining x, restores_bindings (newton_loop f df tolerance remaining x).
Proof.
  intros Hdf.
  induction remaining as [|remaining IH]; intros; cbn [newton_loop];
    repeat first [apply IH | restores_step].
Qed.

Lemma newton_restores x0 options :
  (forall d x, no_derivative options = Some d -> restores_bindings (d x)) ->
  restores_bindings (newton f x0 options).
Proof.
  intros Hd. unfold newton. apply newton_loop_restores.
  destruct (no_derivative options) as [d|]; intros x.
  - apply (Hd d x eq_refl).
  - repeat restores_step.
Qed.

Lemma secant_loop_restores tolerance : forall remaining x0 x1,
  restores_bindings (secant_loop f tolerance remaining x0 x1).
Proof.
  induction remaining as [|remaining IH]; intros; cbn [secant_loop];
    repeat first [apply IH | restores_step].
Qed.

Lemma brent_loop_restores tolerance : forall remaining s,
  restores_bindings (brent_loop f tolerance remaining s).
Proof.
  induction remaining as [|remaining IH]; intros; cbn [brent_loop];
    repeat first [apply IH | restores_step].
Qed.

Lemma brent_restores a b options : restores_bindings (brent f a b options).
Proof.
  unfold brent; repeat first [apply brent_loop_restores | restores_step].
Qed.

Lemma expand_search_restores initialGuess : forall steps,
  restores_bindings (expand_search f initialGuess steps).
Proof.
  induction steps as [|i steps IH]; cbn [expand_search];
    repeat first [apply IH | restores_step].
Qed.

End Algorithms.

Lemma solve_f_run rt expression variable value st :
  well_formed st ->
  let result := solve_f rt expression variable value st in
  fst result
    = evaluateExpression rt expression
        (trial_context rt variable value st) (trial_global rt variable value st) /\
  fst result <> OutOfFuel /\
  well_formed (snd result) /\
  bindings (snd result) = bindings st.
Proof. exact (createFunctionFromExpression_run rt expression variable value st). Qed.

Lemma solve_f_restores rt expression variable value :
  restores_bindings (solve_f rt expression variable value).
Proof. exact (createFunctionFromExpression_restores rt expression variable value). Qed.

Lemma integrate_rec_no_swap rt func a b options fuel :
  (b <? a)%float = false ->
  integrate_rec rt (S fuel) func a b options
  = integrate_rec rt 1 func a b options.
Proof.
  intros H. cbn [integrate_rec]. rewrite H. reflexivity.
Qed.

Lemma integrate_restores rt expression a b options :
  restores_bindings (integrate rt (ExpressionString expression) a b options).
Proof.
  assert (Hcore : forall a b,
            (b <? a)%float = false ->
            restores_bindings
              (integrate_rec rt 1 (ExpressionString expression) a b options)).
  { intros a' b' H. cbn [integrate_rec]. rewrite H.
    repeat first [ apply adaptiveSimpson_restores
                 | apply createFunctionFromExpression_restores
                 | intros; apply createFunctionFromExpression_restores
                 | restores_step ]. }
  unfold integrate.
  destruct (b <? a)%float eqn:Hba.
  - cbn [integrate_rec]. rewrite Hba.
    repeat first [ apply Hcore; apply ltb_antisym; assumption | restores_step ].
  - rewrite integrate_rec_no_swap by assumption. apply Hcore; assumption.
Qed.

Lemma solve_restores rt expression variable initialGuess options :
  restores_bindings (solve rt expression variable initialGuess options).
Proof.
  unfold solve.
  pose proof (solve_f_restores rt expression (default variable (str "x")))
    as Hf.
  repeat first [ apply bisection_restores; assumption
               | apply newton_restores; [assumption | discriminate]
               | apply secant_loop_restores; assumption
               | apply brent_restores; assumption
               | apply expand_search_restores; assumption
               | apply Hf
               | restores_step ].
Qed.

(** solve and integrate on "1/X" from the initial registers: both throw
    with the division error inside, and the bindings seen through
    [state.memory] are those of before.  The object that [state.memory]
    referred to before the call (address 0) is not the one it refers to
    afterwards: it keeps the trial value. *)
Example solve_and_integrate_throw_mid_evaluation :
  fst (solve TestRuntime.runtime (str "1/X")
         (Some (str "x")) (Some 0%float) newton_options sample_store)
    = Throw (SolverError DivisionByZero) /\
  fst (integrate TestRuntime.runtime
         (ExpressionString (str "1/X")) 0 1 default_integrate_options sample_store)
    = Throw (IntegrationError DivisionByZero) /\
  bindings (snd (solve TestRuntime.runtime (str "1/X")
                   (Some (str "x")) (Some 0%float) newton_options sample_store))
    = bindings sample_store /\
  deref (snd (solve TestRuntime.runtime (str "1/X")
                (Some (str "x")) (Some 0%float) newton_options sample_store)) 0
    = [(str "M", JNum 0); (str "A", JNull); (str "X", JNum 0)].
Proof. repeat split; vm_compute; reflexivity. Qed.

(* ------------------------------------------------------------------ *)
(** ** integrate: equal and reversed bounds *)

Lemma ltb_irrefl (x : float) : (x <? x)%float = false.
Proof.
  destruct (x <? x)%float eqn:H; [|reflexivity].
  pose proof (ltb_antisym x x H). congruence.
Qed.

Lemma integrate_equal_bounds rt func a b options st :
  func <> OtherValue ->
  isFinite a = true -> isFinite b = true ->
  (a =? b)%float = true ->
  integrate rt func a b options st = (Ok 0%float, st).
Proof.
  intros Hfunc Ha Hb Hab. unfold integrate. cbn [integrate_rec].
  rewrite Ha, Hb, Hab. destruct func; [reflexivity | reflexivity | congruence].
Qed.

Lemma integrate_rec_swap rt fuel func a b options st :
  func <> OtherValue ->
  isFinite a = true -> isFinite b = true ->
  (a =? b)%float = false -> (b <? a)%float = true ->
  integrate_rec rt (S fuel) func a b options st
  = bind (integrate_rec rt fuel func b a options)
         (fun r => ret (- r)%float) st.
Proof.
  intros Hfunc Ha Hb Hne Hba. cbn [integrate_rec].
  rewrite Ha, Hb, Hne, Hba.
  destruct func; [reflexivity | reflexivity | congruence].
Qed.

Lemma integrate_reversed_bounds rt func a b options st :
  func <> OtherValue ->
  isFinite a = true -> isFinite b = true ->
  (b <? a)%float = true ->
  integrate rt func a b options st
  = (negated (fst (integrate rt func b a options st)),
     snd (integrate rt func b a options st)).
Proof.
  intros Hfunc Ha Hb Hba.
  destruct (above_excludes b b a Hba (ltb_irrefl b)) as [Hne _].
  unfold integrate.
  rewrite (integrate_rec_swap rt 1 func a b options st Hfunc Ha Hb Hne Hba).
  rewrite (integrate_rec_no_swap rt func b a options 1 (ltb_antisym b a Hba)).
  unfold bind.
  destruct (integrate_rec rt 1 func b a options st) as [[v|e|] st'];
    reflexivity.
Qed.

(** C9. For an integrand that is an expression or a function and finite
    bounds, integrate returns 0 (touching nothing) when a == b, and when
    a > b it returns the negation of what integrate returns for the
    swapped bounds (a throw of that call passes through). *)
Theorem C9_integrate_bounds
  (rt : Native) (func : Integrand)
  (a b c d : float) (options : IntegrateOptions) (st : Store)
  (Hfunc : func <> OtherValue)
  (Ha : isFinite a = true) (Hb : isFinite b = true) (Hab : (a =? b)%float = true)
  (Hc : isFinite c = true) (Hd : isFinite d = true) (Hdc : (d <? c)%float = true) :
  integrate rt func a b options st = (Ok 0%float, st) /\
  integrate rt func c d options st
  = (negated (fst (integrate rt func d c options st)),
     snd (integrate rt func d c options st)).
Proof.
  split.
  - apply integrate_equal_bounds; assumption.
  - apply integrate_reversed_bounds; assumption.
Qed.

(** C9 for the integrand x * x on [2, 2] and on [1, 0]. *)
Lemma C9_integrate_bounds_witness :
  integrate TestRuntime.runtime
    (JSFunction (fun x => ret (x * x)%float)) 2 2
    default_integrate_options sample_store = (Ok 0%float, sample_store) /\
  integrate TestRuntime.runtime
    (JSFunction (fun x => ret (x * x)%float)) 1 0
    default_integrate_options sample_store
  = (negated (fst (integrate TestRuntime.runtime
                     (JSFunction (fun x => ret (x * x)%float)) 0 1
                     default_integrate_options sample_store)),
     snd (integrate TestRuntime.runtime
            (JSFunction (fun x => ret (x * x)%float)) 0 1
            default_integrate_options sample_store)).
Proof.
  apply (C9_integrate_bounds TestRuntime.runtime
           (JSFunction (fun x => ret (x * x)%float)) 2 2 1 0
           default_integrate_options sample_store).
  - discriminate.
  - reflexivity.
  - reflexivity.
  - reflexivity.
  - reflexivity.
  - reflexivity.
  - reflexivity.
Defined.

(** The integral of x * x over [0, 1] and over [1, 0], run. *)
Example integrate_square_runs :
  returns_exactly
    (fst (integrate TestRuntime.runtime
            (JSFunction (fun x => ret (x * x)%float)) 0 1
            default_integrate_options sample_store))
    (1 / 3)%float = true /\
  returns_exactly
    (fst (integrate TestRuntime.runtime
            (JSFunction (fun x => ret (x * x)%float)) 1 0
            default_integrate_options sample_store))
    (- (1 / 3))%float = true.
Proof. split; vm_compute; reflexivity. Qed.

(* ================================================================== *)
(** * Further properties of the pipeline *)

(* ------------------------------------------------------------------ *)
(** ** More turns of the tokenizer *)

Lemma evaluate_resolved rt rpn context global :
  evaluate rt rpn context global
  = (stack <- evaluate_loop rt rpn [] (resolved_angleUnit context global)
               (resolved_memory context global) ;;
     match stack with
     | [v] => Ok v
     | _ => Throw (InvalidExpression (length stack))
     end)%comp.
Proof. reflexivity. Qed.

Lemma tokenize_skip rt fuel expression i tokens char :
  nth_error expression i = Some char ->
  skipped_char char = true ->
  tokenize_loop rt (S fuel) expression i tokens
  = tokenize_loop rt fuel expression (i + 1) tokens.
Proof.
  intros Hc Hs. unfold skipped_char in Hs.
  rewrite !andb_true_iff, !negb_true_iff in Hs.
  destruct Hs as [[[[[[[Hn Hf] Hk] Ho] H40] H41] H44] Hl].
  cbn [tokenize_loop]. rewrite Hc, Hn.
  rewrite (find_name_no_start FUNCTIONS _ _ _ Hc Hf),
          (find_name_no_start CONSTANTS _ _ _ Hc Hk).
  destruct (lookup OPERATORS [char]); [discriminate|].
  rewrite H40, H41, H44, Hl. reflexivity.
Qed.

Lemma tokenize_loop_skipped rt : forall fuel expression i tokens,
  Forall (fun c => skipped_char c = true) expression ->
  length expression <= i + fuel ->
  tokenize_loop rt fuel expression i tokens = Ok tokens.
Proof.
  induction fuel as [|fuel IH]; intros expression i tokens Hall Hlen.
  - apply tokenize_end, nth_error_None. lia.
  - destruct (nth_error expression i) as [c|] eqn:Hc;
      [|apply tokenize_end; assumption].
    rewrite (tokenize_skip rt fuel expression i tokens c Hc).
    + apply IH; [assumption | lia].
    + rewrite Forall_forall in Hall. apply Hall.
      apply nth_error_In with (n := i). exact Hc.
Qed.

Lemma remove_whitespace_Forall (P : N -> Prop) s :
  Forall P s -> Forall P (remove_whitespace s).
Proof.
  unfold remove_whitespace. rewrite !Forall_forall.
  intros H c Hc. apply filter_In in Hc. apply H. tauto.
Qed.

Lemma remove_whitespace_app a b :
  remove_whitespace (a ++ b) = remove_whitespace a ++ remove_whitespace b.
Proof. apply filter_app. Qed.

Lemma remove_whitespace_blank ws :
  Forall (fun c => is_whitespace c = true) ws -> remove_whitespace ws = [].
Proof.
  unfold remove_whitespace. induction 1 as [|c ws Hc Hws IH]; [reflexivity|].
  cbn [filter]. rewrite Hc. exact IH.
Qed.

Lemma remove_whitespace_clean s :
  Forall (fun c => is_whitespace c = false) s -> remove_whitespace s = s.
Proof.
  unfold remove_whitespace. induction 1 as [|c s Hc Hs IH]; [reflexivity|].
  cbn [filter]. rewrite Hc. cbn [negb]. f_equal. exact IH.
Qed.

Lemma scan_number_all n :
  Forall (fun c => is_number_char c = true) n -> scan_number n = n.
Proof.
  induction 1 as [|c n Hc Hn IH]; [reflexivity|].
  cbn [scan_number]. rewrite Hc. f_equal. exact IH.
Qed.

Lemma scan_number_stop n c rest :
  Forall (fun c => is_number_char c = true) n ->
  is_number_char c = false ->
  scan_number (n ++ c :: rest) = n.
Proof.
  intros Hn Hc. induction Hn as [|d n Hd Hn IH].
  - cbn [app scan_number]. rewrite Hc. reflexivity.
  - cbn [app scan_number]. rewrite Hd. f_equal. exact IH.
Qed.

Lemma literal_not_whitespace n :
  Forall (fun c => is_number_char c = true) n ->
  Forall (fun c => is_whitespace c = false) n.
Proof.
  intros H. eapply Forall_impl; [|exact H].
  intros c Hc. apply number_char_not_whitespace. exact Hc.
Qed.

Lemma tokenize_literal rt n :
  numeric_literal n -> tokenize rt n = Ok [NUMBER (parseFloat rt n)].
Proof.
  intros [Hne Hnum]. unfold tokenize.
  rewrite (remove_whitespace_clean n (literal_not_whitespace n Hnum)).
  destruct n as [|c n]; [congruence|].
  pose proof Hnum as Hnum'. inversion Hnum' as [|? ? Hc Hn]; subst.
  cbn [length].
  rewrite (tokenize_number rt (length n) (c :: n) 0 [] c eq_refl Hc).
  cbn [skipn]. rewrite (scan_number_all (c :: n) Hnum).
  apply tokenize_end, nth_error_None. cbn [length]. lia.
Qed.

(* ------------------------------------------------------------------ *)
(** ** What the tokenizer guarantees *)

(** X1. The tokenizer returns a token list for every input string: its
    loop ends within the length of the whitespace-stripped input, and
    nothing in it throws.  Every operator token it makes carries a key of
    the operator table and every function token a key of the function
    table. *)
Theorem X1_tokenize_always_returns (rt : Native) (expression : jsstring) :
  exists tokens,
    tokenize rt expression = Ok tokens /\
    Forall pipeline_token tokens.
Proof. apply tokenize_total. Qed.

(** X2. White space is dropped before tokenizing, wherever it stands:
    an input with a run of white space inserted tokenizes, and evaluates,
    as the input without it (so digits separated by blanks are read as
    one number). *)
Theorem X2_whitespace_is_ignored
  (rt : Native) (context : Context) (global : option GlobalView)
  (a ws b : jsstring)
  (Hws : Forall (fun c => is_whitespace c = true) ws) :
  tokenize rt (a ++ ws ++ b) = tokenize rt (a ++ b) /\
  evaluateExpression rt (a ++ ws ++ b) context global
    = evaluateExpression rt (a ++ b) context global.
Proof.
  assert (Hstrip : remove_whitespace (a ++ ws ++ b) = remove_whitespace (a ++ b)).
  { rewrite !remove_whitespace_app, (remove_whitespace_blank ws Hws). reflexivity. }
  assert (Htok : tokenize rt (a ++ ws ++ b) = tokenize rt (a ++ b)).
  { unfold tokenize. rewrite Hstrip. reflexivity. }
  split; [exact Htok|].
  unfold evaluateExpression, parse. rewrite Htok. reflexivity.
Qed.

(** X2 on "1 2+3" against "12+3". *)
Lemma X2_whitespace_is_ignored_witness :
  tokenize TestRuntime.runtime (str "1" ++ str " " ++ str "2+3")
    = tokenize TestRuntime.runtime (str "1" ++ str "2+3") /\
  evaluateExpression TestRuntime.runtime (str "1" ++ str " " ++ str "2+3")
    empty_context None
    = evaluateExpression TestRuntime.runtime (str "1" ++ str "2+3")
        empty_context None.
Proof.
  apply (X2_whitespace_is_ignored TestRuntime.runtime empty_context None
           (str "1") (str " ") (str "2+3")).
  repeat constructor.
Defined.

(** X3. An input made only of code units the tokenizer passes over (the
    empty string, white space, characters such as [@] or [!]) gives no
    token at all, and evaluating it throws 'Invalid expression: stack has
    0 items'. *)
Theorem X3_unrecognised_input_is_empty
  (rt : Native) (context : Context) (global : option GlobalView)
  (expression : jsstring)
  (Hskipped : Forall (fun c => skipped_char c = true) expression) :
  tokenize rt expression = Ok [] /\
  evaluateExpression rt expression context global = Throw (InvalidExpression 0).
Proof.
  assert (Htok : tokenize rt expression = Ok []).
  { unfold tokenize. apply tokenize_loop_skipped; [|lia].
    apply remove_whitespace_Forall. exact Hskipped. }
  split; [exact Htok|].
  unfold evaluateExpression, parse. rewrite Htok. reflexivity.
Qed.

(** X3 on the input "@ !#". *)
Lemma X3_unrecognised_input_is_empty_witness :
  tokenize TestRuntime.runtime (str "@ !#") = Ok [] /\
  evaluateExpression TestRuntime.runtime (str "@ !#") empty_context None
    = Throw (InvalidExpression 0).
Proof.
  apply (X3_unrecognised_input_is_empty TestRuntime.runtime empty_context None
           (str "@ !#")).
  repeat constructor.
Defined.

(** X4. Round trip of a numeric literal: a non-empty run of digits and
    decimal points tokenizes to the single token NUMBER(parseFloat of the
    run), and evaluating it returns that number. *)
Theorem X4_numeric_literal_round_trip
  (rt : Native) (context : Context) (global : option GlobalView)
  (n : jsstring) (Hn : numeric_literal n) :
  tokenize rt n = Ok [NUMBER (parseFloat rt n)] /\
  evaluateExpression rt n context global = Ok (parseFloat rt n).
Proof.
  pose proof (tokenize_literal rt n Hn) as Htok.
  split; [exact Htok|].
  unfold evaluateExpression, parse. rewrite Htok. reflexivity.
Qed.

(** X4 on the literal "12.5". *)
Lemma X4_numeric_literal_round_trip_witness :
  tokenize TestRuntime.runtime (str "12.5")
    = Ok [NUMBER (parseFloat TestRuntime.runtime (str "12.5"))] /\
  evaluateExpression TestRuntime.runtime (str "12.5") empty_context None
    = Ok (parseFloat TestRuntime.runtime (str "12.5")).
Proof.
  apply (X4_numeric_literal_round_trip TestRuntime.runtime empty_context None
           (str "12.5")).
  split; [discriminate | repeat constructor].
Defined.

(* ------------------------------------------------------------------ *)
(** ** Variables and constants *)

Lemma letter_cases c :
  is_letter c = true ->
  In c (map N.of_nat (seq 65 26 ++ seq 97 26)).
Proof.
  unfold is_letter. rewrite orb_true_iff, !andb_true_iff, !N.leb_le.
  intros H. apply in_map_iff. exists (N.to_nat c).
  split; [apply N2Nat.id|]. apply in_or_app. rewrite !in_seq. lia.
Qed.

Lemma parse_letter rt c :
  is_letter c = true ->
  parse rt [c]
  = Ok [if ((c =? 69) || (c =? 101))%N then CONSTANT [c] else VARIABLE [c]].
Proof.
  intros Hc. apply letter_cases in Hc. vm_compute in Hc.
  repeat (destruct Hc as [<- | Hc]; [reflexivity|]). contradiction.
Qed.

Lemma evaluate_variable rt context global name :
  evaluate rt [VARIABLE name] context global
  = variable_value (resolved_memory context global) name.
Proof.
  rewrite evaluate_resolved. cbn [evaluate_loop]. unfold variable_value.
  destruct (lookup (resolved_memory context global) name) as [[|x]|]; reflexivity.
Qed.

Lemma evaluate_letter rt context global c :
  is_letter c = true ->
  evaluateExpression rt [c] context global
  = if ((c =? 69) || (c =? 101))%N then Ok Math_E
    else variable_value (resolved_memory context global) [c].
Proof.
  intros Hc. unfold evaluateExpression. rewrite (parse_letter rt c Hc).
  cbn [rbind].
  destruct ((c =? 69) || (c =? 101))%N eqn:He.
  - apply orb_true_iff in He. rewrite !N.eqb_eq in He.
    destruct He as [-> | ->]; reflexivity.
  - apply evaluate_variable.
Qed.

(** X5. A one-letter expression reads the memory: for every letter
    other than e and E it returns the number bound to that letter and
    throws 'Undefined variable' when the binding is null or missing.  The
    letters e and E are the constant e whatever the memory binds to
    them, so the register E cannot be read from an expression. *)
Theorem X5_single_letter_expression
  (rt : Native) (context : Context) (global : option GlobalView) (c : N)
  (Hletter : is_letter c = true) :
  (c <> 69%N -> c <> 101%N ->
   evaluateExpression rt [c] context global
   = match lookup (resolved_memory context global) [c] with
     | Some (JNum x) => Ok x
     | _ => Throw (UndefinedVariable [c])
     end) /\
  evaluateExpression rt (str "E") context global = Ok Math_E /\
  evaluateExpression rt (str "e") context global = Ok Math_E.
Proof.
  split; [|split; reflexivity].
  intros H69 H101. rewrite (evaluate_letter rt context global c Hletter).
  apply N.eqb_neq in H69, H101. rewrite H69, H101. reflexivity.
Qed.

(** X5 on the letter M with the memory M = 42. *)
Lemma X5_single_letter_expression_witness :
  (77%N <> 69%N -> 77%N <> 101%N ->
   evaluateExpression TestRuntime.runtime [77%N]
     {| ctx_angleUnit := None; ctx_memory := Some [(str "M", JNum 42)] |} None
   = match lookup (resolved_memory
                     {| ctx_angleUnit := None;
                        ctx_memory := Some [(str "M", JNum 42)] |} None) [77%N] with
     | Some (JNum x) => Ok x
     | _ => Throw (UndefinedVariable [77%N])
     end) /\
  evaluateExpression TestRuntime.runtime (str "E")
    {| ctx_angleUnit := None; ctx_memory := Some [(str "M", JNum 42)] |} None
    = Ok Math_E /\
  evaluateExpression TestRuntime.runtime (str "e")
    {| ctx_angleUnit := None; ctx_memory := Some [(str "M", JNum 42)] |} None
    = Ok Math_E.
Proof.
  apply (X5_single_letter_expression TestRuntime.runtime
           {| ctx_angleUnit := None; ctx_memory := Some [(str "M", JNum 42)] |}
           None 77%N).
  reflexivity.
Defined.

(* ------------------------------------------------------------------ *)
(** ** What the shunting yard does with its tokens *)

Lemma pipeline_tokens_known tokens :
  Forall pipeline_token tokens -> Forall known_operator tokens.
Proof.
  intros H. eapply Forall_impl; [|exact H].
  intros [x|v|f| | | |c|v]; cbn; auto.
Qed.

(** X6. Parsing a string fails in one way only: parse returns the RPN
    form exactly when the parentheses of the tokenized input are
    balanced, and throws 'Mismatched parentheses' otherwise; no other
    error (in particular no TypeError from an operator-table read) comes
    out of the tokenizer and the shunting yard. *)
Theorem X6_parse_fails_only_on_parentheses (rt : Native) (expression : jsstring) :
  exists tokens,
    tokenize rt expression = Ok tokens /\
    ((balanced tokens /\ exists rpn, parse rt expression = Ok rpn) \/
     (~ balanced tokens /\ parse rt expression = Throw MismatchedParentheses)).
Proof.
  destruct (tokenize_total rt expression) as (tokens & Htok & Hall).
  exists tokens. split; [exact Htok|].
  unfold parse. rewrite Htok. cbn [rbind].
  apply pipeline_tokens_known in Hall.
  pose proof (rpn_loop_parens tokens [] [] Hall (Forall_nil _) (fun H => H)) as H.
  cbn [open_parens] in H. unfold balanced, parseToRPN.
  destruct (paren_depth 0 tokens) as [[|d]|].
  - left. split; [reflexivity | exact H].
  - right. split; [discriminate | exact H].
  - right. split; [discriminate | exact H].
Qed.

Lemma pop_operators_moves op1 : forall operatorStack output output' stack',
  pop_operators op1 output operatorStack = Ok (output', stack') ->
  exists popped,
    operatorStack = popped ++ stack' /\ output' = output ++ popped /\
    filter emitted popped = popped /\ filter is_operand popped = [].
Proof.
  induction operatorStack as [|t stack IH]; intros output output' stack'.
  - cbn. intros [= <- <-]. exists []. rewrite ?app_nil_r; auto.
  - cbn [pop_operators].
    assert (Hstop : Ok (output, t :: stack) = Ok (output', stack') ->
              exists popped, t :: stack = popped ++ stack' /\ output' = output ++ popped /\
                filter emitted popped = popped /\ filter is_operand popped = []).
    { intros [= <- <-]. exists []. rewrite ?app_nil_r; auto. }
    destruct t; try exact Hstop.
    destruct op1 as [s1|]; [|discriminate].
    destruct (lookup OPERATORS value) as [s2|]; [|discriminate].
    destruct (pops_before s1 s2); [|exact Hstop].
    intros H. apply IH in H. destruct H as (popped & -> & -> & He & Ho).
    exists (OPERATOR value :: popped). rewrite <- app_assoc.
    cbn [filter emitted is_operand]. rewrite He, Ho. auto.
Qed.

Lemma stackable_moves popped :
  Forall stackable popped -> ~ In LPAREN popped ->
  filter emitted popped = popped /\ filter is_operand popped = [].
Proof.
  induction 1 as [|t popped Ht Hp IH]; intros Hno; [auto|].
  destruct IH as [He Ho]; [intros H; apply Hno; right; exact H|].
  destruct t; try contradiction; cbn [filter emitted is_operand];
    rewrite ?He, ?Ho; auto.
  exfalso. apply Hno. left. reflexivity.
Qed.

Lemma stackable_no_operand stack :
  Forall stackable stack -> filter is_operand stack = [].
Proof.
  induction 1 as [|t stack Ht Hs IH]; [reflexivity|].
  destruct t; try contradiction; cbn [filter is_operand]; exact IH.
Qed.

(** One turn of the loop moves tokens and drops none but parentheses and
    commas: the output grows by a list [popped] of emitted tokens, and
    [popped] with what is left on the stack is, up to order, what was on
    the stack with the token read. *)
Lemma rpn_step_moves token output operatorStack output' stack' :
  Forall stackable operatorStack ->
  rpn_step token output operatorStack = Ok (output', stack') ->
  Forall stackable stack' /\
  exists popped,
    output' = output ++ popped /\
    filter emitted popped = popped /\
    filter is_operand popped = filter is_operand [token] /\
    Permutation (popped ++ filter emitted stack')
                (filter emitted operatorStack ++ filter emitted [token]).
Proof.
  intros Hstack Hstep.
  destruct token as [x|v|f| | | |c|v]; cbn [rpn_step] in Hstep.
  - injection Hstep as <- <-. split; [assumption|].
    exists [NUMBER x]. repeat split. cbn [filter emitted app].
    apply Permutation_cons_append.
  - destruct (pop_operators (lookup OPERATORS v) output operatorStack)
      as [[o s]| |] eqn:Hp; try discriminate.
    injection Hstep as <- <-. apply pop_operators_moves in Hp.
    destruct Hp as (popped & -> & -> & He & Ho).
    apply Forall_app in Hstack. destruct Hstack as [_ Hs].
    split; [constructor; [exact I | exact Hs]|].
    exists popped. repeat split; [exact He | exact Ho |].
    rewrite filter_app, He. cbn [filter emitted].
    rewrite <- app_assoc. apply Permutation_app_head.
    apply Permutation_cons_append.
  - injection Hstep as <- <-. split; [constructor; [exact I | assumption]|].
    exists []. rewrite app_nil_r. repeat split.
    cbn [filter emitted app]. apply Permutation_cons_append.
  - injection Hstep as <- <-. split; [constructor; [exact I | assumption]|].
    exists []. rewrite app_nil_r. repeat split.
    cbn [filter emitted app]. rewrite app_nil_r. apply Permutation_refl.
  - destruct (pop_until_lparen_spec operatorStack output)
      as (popped & rest & -> & Hrun & Hno & Hrest).
    rewrite Hrun in Hstep.
    apply Forall_app in Hstack. destruct Hstack as [Hp Hr].
    destruct (stackable_moves popped Hp Hno) as [He Ho].
    destruct Hrest as [-> | (rest' & ->)]; [discriminate|].
    inversion Hr as [|? ? _ Hr']; subst.
    rewrite filter_app, He. cbn [filter emitted]. rewrite app_nil_r.
    destruct rest' as [|[x|v|f| | | |c|v] rest'']; injection Hstep as <- <-;
      try (split; [assumption|]; exists popped; repeat split;
           [exact He | exact Ho | apply Permutation_refl]).
    inversion Hr' as [|? ? _ Hr'']; subst.
    split; [assumption|].
    exists (popped ++ [FUNCTION f]). rewrite <- app_assoc.
    rewrite !filter_app, He, Ho. cbn [filter emitted is_operand app].
    repeat split. rewrite <- app_assoc. apply Permutation_refl.
  - destruct (pop_until_lparen_spec operatorStack output)
      as (popped & rest & -> & Hrun & Hno & Hrest).
    rewrite Hrun in Hstep. injection Hstep as <- <-.
    apply Forall_app in Hstack. destruct Hstack as [Hp Hr].
    destruct (stackable_moves popped Hp Hno) as [He Ho].
    split; [assumption|]. exists popped. repeat split; [exact He | exact Ho |].
    rewrite filter_app, He. cbn [filter emitted]. rewrite app_nil_r.
    apply Permutation_refl.
  - injection Hstep as <- <-. split; [assumption|].
    exists [CONSTANT c]. repeat split. cbn [filter emitted app].
    apply Permutation_cons_append.
  - injection Hstep as <- <-. split; [assumption|].
    exists [VARIABLE v]. repeat split. cbn [filter emitted app].
    apply Permutation_cons_append.
Qed.

Lemma pop_remaining_moves : forall operatorStack output rpn,
  Forall stackable operatorStack ->
  pop_remaining output operatorStack = Ok rpn ->
  rpn = output ++ operatorStack /\ filter emitted operatorStack = operatorStack.
Proof.
  induction operatorStack as [|t stack IH]; intros output rpn Hs.
  - cbn. intros [= <-]. rewrite app_nil_r. auto.
  - inversion Hs as [|? ? Ht Hs']; subst.
    destruct t; try contradiction; cbn [pop_remaining]; try discriminate;
      intros H; apply IH in H; try assumption; destruct H as [-> He];
      rewrite <- app_assoc; cbn [filter emitted]; rewrite He; auto.
Qed.

Lemma rpn_loop_moves : forall tokens output operatorStack rpn,
  Forall stackable operatorStack ->
  rpn_loop tokens output operatorStack = Ok rpn ->
  exists tail,
    rpn = output ++ tail /\
    filter emitted tail = tail /\
    filter is_operand tail = filter is_operand tokens /\
    Permutation tail (filter emitted operatorStack ++ filter emitted tokens).
Proof.
  induction tokens as [|token tokens IH]; intros output stack rpn Hs.
  - cbn [rpn_loop]. intros H.
    destruct (pop_remaining_moves stack output rpn Hs H) as [-> He].
    exists stack. cbn [filter]. rewrite app_nil_r.
    split; [reflexivity|]. split; [exact He|].
    split; [apply stackable_no_operand; exact Hs|].
    rewrite He. apply Permutation_refl.
  - cbn [rpn_loop].
    destruct (rpn_step token output stack) as [[output' stack']| |] eqn:Hstep;
      try discriminate.
    cbn [rbind]. intros Hloop.
    destruct (rpn_step_moves token output stack output' stack' Hs Hstep)
      as (Hs' & popped & -> & He & Ho & Hperm).
    destruct (IH _ _ _ Hs' Hloop) as (tail & -> & He' & Ho' & Hperm').
    exists (popped ++ tail). rewrite <- app_assoc.
    change (token :: tokens) with ([token] ++ tokens).
    rewrite !filter_app, He, He', Ho, Ho'.
    split; [reflexivity|]. split; [reflexivity|]. split; [reflexivity|].
    eapply Permutation_trans;
      [apply Permutation_app_head; exact Hperm'|].
    rewrite !app_assoc. apply Permutation_app_tail. exact Hperm.
Qed.

(** X7. The shunting yard only reorders: when parseToRPN returns, its
    output is a rearrangement of the input tokens without the parentheses
    and commas.  No token is lost, duplicated or made up, and no
    parenthesis or comma reaches the evaluator. *)
Theorem X7_parseToRPN_rearranges_tokens
  (tokens rpn : list Token)
  (Hparse : parseToRPN tokens = Ok rpn) :
  Permutation rpn (filter emitted tokens) /\
  ~ In LPAREN rpn /\ ~ In RPAREN rpn /\ ~ In COMMA rpn.
Proof.
  destruct (rpn_loop_moves tokens [] [] rpn (Forall_nil _) Hparse)
    as (tail & -> & He & _ & Hperm).
  cbn [app filter] in *. split; [exact Hperm|].
  rewrite <- He.
  repeat split; intros Hin; apply filter_In in Hin; destruct Hin; discriminate.
Qed.

(** X7 on the tokens of "(1+2)*3". *)
Lemma X7_parseToRPN_rearranges_tokens_witness :
  Permutation
    [NUMBER 1; NUMBER 2; OPERATOR (str "+"); NUMBER 3; OPERATOR (str "*")]
    (filter emitted [LPAREN; NUMBER 1; OPERATOR (str "+"); NUMBER 2; RPAREN;
                     OPERATOR (str "*"); NUMBER 3]) /\
  ~ In LPAREN [NUMBER 1; NUMBER 2; OPERATOR (str "+"); NUMBER 3; OPERATOR (str "*")] /\
  ~ In RPAREN [NUMBER 1; NUMBER 2; OPERATOR (str "+"); NUMBER 3; OPERATOR (str "*")] /\
  ~ In COMMA [NUMBER 1; NUMBER 2; OPERATOR (str "+"); NUMBER 3; OPERATOR (str "*")].
Proof.
  apply (X7_parseToRPN_rearranges_tokens
           [LPAREN; NUMBER 1; OPERATOR (str "+"); NUMBER 2; RPAREN;
            OPERATOR (str "*"); NUMBER 3]).
  reflexivity.
Defined.

(** X8. The shunting yard keeps the operands in their order: the
    numbers, constants and variables of the output are those of the
    input, in the same sequence; only operators and functions move. *)
Theorem X8_parseToRPN_keeps_operand_order
  (tokens rpn : list Token)
  (Hparse : parseToRPN tokens = Ok rpn) :
  filter is_operand rpn = filter is_operand tokens.
Proof.
  destruct (rpn_loop_moves tokens [] [] rpn (Forall_nil _) Hparse)
    as (tail & -> & _ & Ho & _).
  exact Ho.
Qed.

(** X8 on the tokens of "(1+2)*3". *)
Lemma X8_parseToRPN_keeps_operand_order_witness :
  filter is_operand
    [NUMBER 1; NUMBER 2; OPERATOR (str "+"); NUMBER 3; OPERATOR (str "*")]
  = filter is_operand [LPAREN; NUMBER 1; OPERATOR (str "+"); NUMBER 2; RPAREN;
                       OPERATOR (str "*"); NUMBER 3].
Proof.
  apply (X8_parseToRPN_keeps_operand_order
           [LPAREN; NUMBER 1; OPERATOR (str "+"); NUMBER 2; RPAREN;
            OPERATOR (str "*"); NUMBER 3]).
  reflexivity.
Defined.

(* ------------------------------------------------------------------ *)
(** ** The tokens a string can produce *)

Lemma find_name_matches {A} (tbl : list (jsstring * A)) expression i name :
  find_name tbl expression i = Some name ->
  substr expression i (length name) = name.
Proof.
  induction tbl as [|[k a] tbl IH]; cbn [find_name]; [discriminate|].
  destruct (jseq (substr expression i (length k)) k) eqn:E.
  - intros [= <-]. apply jseq_eq. exact E.
  - exact IH.
Qed.

(** A name that is found anywhere is found when it stands alone: no key
    listed before it is one of its prefixes. *)
Lemma find_name_first {A} (tbl : list (jsstring * A)) expression i name :
  find_name tbl expression i = Some name ->
  find_name tbl name 0 = Some name.
Proof.
  intros Hfound. pose proof (find_name_matches tbl expression i name Hfound) as Hm.
  induction tbl as [|[k a] tbl IH]; cbn [find_name] in *; [discriminate|].
  destruct (jseq (substr expression i (length k)) k) eqn:E.
  - injection Hfound as <-. unfold substr. cbn [skipn].
    rewrite firstn_all, jseq_refl. reflexivity.
  - destruct (jseq (substr name 0 (length k)) k) eqn:E'; [|apply IH; exact Hfound].
    exfalso. apply jseq_eq in E'. unfold substr in *. cbn [skipn] in E'.
    assert (Hlen : length k <= length name).
    { rewrite <- E' at 1. rewrite length_firstn. lia. }
    rewrite <- Hm, firstn_firstn in E'.
    replace (Nat.min (length k) (length name)) with (length k) in E' by lia.
    rewrite E', jseq_refl in E. discriminate.
Qed.

Lemma tokenize_loop_made rt : forall fuel expression i tokens tokens',
  Forall tokenizer_made tokens ->
  tokenize_loop rt fuel expression i tokens = Ok tokens' ->
  Forall tokenizer_made tokens'.
Proof.
  induction fuel as [|fuel IH]; intros expression i tokens tokens' Htok.
  - cbn [tokenize_loop]. destruct (nth_error expression i); [discriminate|].
    intros [= <-]. exact Htok.
  - cbn [tokenize_loop].
    destruct (nth_error expression i) as [char|] eqn:Hc;
      [|intros [= <-]; exact Htok].
    destruct (is_number_char char) eqn:Hnum.
    { apply IH. apply Forall_snoc; [assumption | constructor]. }
    destruct (find_name FUNCTIONS expression i) as [funcName|] eqn:Hf.
    { apply IH. apply Forall_snoc; [assumption|].
      apply (made_function expression i). exact Hf. }
    destruct (find_name CONSTANTS expression i) as [constName|] eqn:Hk.
    { apply IH. apply Forall_snoc; [assumption|].
      apply (made_constant expression i). exact Hk. }
    destruct (lookup OPERATORS [char]) as [op|] eqn:Hop.
    { match goal with |- context [if ?c then _ else _] => destruct c end.
      - apply IH.
        change (tokens ++ [NUMBER (-1)%float] ++ [OPERATOR [u_TIMES]])
          with (tokens ++ [NUMBER (-1)%float; OPERATOR [u_TIMES]]).
        apply Forall_app. split; [assumption|].
        repeat constructor. discriminate.
      - apply IH. apply Forall_snoc; [assumption|].
        constructor. congruence. }
    destruct (char =? 40)%N;
      [apply IH; apply Forall_snoc; [assumption | constructor]|].
    destruct (char =? 41)%N;
      [apply IH; apply Forall_snoc; [assumption | constructor]|].
    destruct (char =? 44)%N;
      [apply IH; apply Forall_snoc; [assumption | constructor]|].
    destruct (is_letter char) eqn:Hl;
      [apply IH; apply Forall_snoc; [assumption | constructor; exact Hl]|].
    apply IH. exact Htok.
Qed.

Lemma tokenize_made rt expression tokens :
  tokenize rt expression = Ok tokens -> Forall tokenizer_made tokens.
Proof. unfold tokenize. apply tokenize_loop_made. constructor. Qed.

Lemma tokenizes_as_itself_reachable f :
  tokenizes_as_itself f -> In f reachable_functions.
Proof.
  intros Hf. pose proof (find_name_is_key FUNCTIONS f 0 f Hf) as Hkey.
  cbn [map fst FUNCTIONS In] in Hkey.
  repeat (destruct Hkey as [<- | Hkey];
          [first [ vm_compute in Hf; discriminate Hf
                 | cbn [reachable_functions In];
                   repeat (first [left; reflexivity | right]) ] |]).
  contradiction.
Qed.

Lemma made_function_reachable f :
  tokenizer_made (FUNCTION f) -> In f reachable_functions.
Proof.
  intros H. inversion H as [|e i f' Hf| | | | | |]; subst.
  apply tokenizes_as_itself_reachable.
  exact (find_name_first FUNCTIONS e i f Hf).
Qed.

(** X9. The tokenizer never makes a function token for sinh, cosh, tanh
    or for the superscript forms of the inverse trigonometric functions:
    every function token of a tokenized string carries one of the other
    fourteen names of the table, each of which has no earlier-listed name
    as a prefix.  The evaluator's cases for the six names cannot be
    reached from a string. *)
Theorem X9_function_tokens_of_a_string
  (rt : Native) (expression : jsstring) (tokens : list Token) (f : jsstring)
  (Htokens : tokenize rt expression = Ok tokens)
  (Hin : In (FUNCTION f) tokens) :
  tokenizes_as_itself f /\
  In f reachable_functions /\
  ~ In f [str "sinh"; str "cosh"; str "tanh";
          str "sin" ++ [u_SUP_MINUS; u_SUP_ONE];
          str "cos" ++ [u_SUP_MINUS; u_SUP_ONE];
          str "tan" ++ [u_SUP_MINUS; u_SUP_ONE]].
Proof.
  pose proof (tokenize_made rt expression tokens Htokens) as Hmade.
  rewrite Forall_forall in Hmade. apply Hmade in Hin.
  inversion Hin as [|e i f' Hf| | | | | |]; subst.
  pose proof (find_name_first FUNCTIONS e i f Hf) as Hself.
  split; [exact Hself|]. split; [apply tokenizes_as_itself_reachable; exact Hself|].
  cbn [In]. intros H.
  repeat (destruct H as [<- | H]; [vm_compute in Hself; discriminate Hself|]).
  contradiction.
Qed.

(** X9 on "cosh(1)", whose function token is cos. *)
Lemma X9_function_tokens_of_a_string_witness :
  tokenizes_as_itself (str "cos") /\
  In (str "cos") reachable_functions /\
  ~ In (str "cos")
      [str "sinh"; str "cosh"; str "tanh";
       str "sin" ++ [u_SUP_MINUS; u_SUP_ONE];
       str "cos" ++ [u_SUP_MINUS; u_SUP_ONE];
       str "tan" ++ [u_SUP_MINUS; u_SUP_ONE]].
Proof.
  apply (X9_function_tokens_of_a_string TestRuntime.runtime (str "cosh(1)")
           [FUNCTION (str "cos"); VARIABLE (str "h"); LPAREN; NUMBER 1; RPAREN]).
  - reflexivity.
  - left. reflexivity.
Defined.

(* ------------------------------------------------------------------ *)
(** ** The errors of the pipeline *)

Lemma filter_fixed {A} (f : A -> bool) l :
  filter f l = l -> Forall (fun x => f x = true) l.
Proof.
  intros H. rewrite <- H. apply Forall_forall.
  intros x Hx. apply filter_In in Hx. tauto.
Qed.

Lemma operator_keys_errors rt c args angleUnit err :
  lookup OPERATORS [c] <> None ->
  evaluateOperation rt [c] args angleUnit = Throw err ->
  pipeline_error err.
Proof.
  intros H Hthrow. apply lookup_is_key in H.
  cbn [map fst OPERATORS In] in H.
  repeat (destruct H as [Hk | H];
          [ cbv in Hk;
            first [ discriminate Hk
                  | injection Hk as <-;
                    vm_compute in Hthrow;
                    repeat match type of Hthrow with
                           | context [if ?c then _ else _] => destruct c
                           end;
                    try discriminate Hthrow;
                    injection Hthrow as <-;
                    cbn [pipeline_error In];
                    first [exact I | repeat (first [left; reflexivity | right])] ] |]).
  contradiction.
Qed.

Lemma function_keys_errors rt f args angleUnit err :
  In f reachable_functions ->
  evaluateOperation rt f args angleUnit = Throw err ->
  pipeline_error err.
Proof.
  cbn [reachable_functions In].
  intros H Hthrow.
  repeat (destruct H as [<- | H];
          [ vm_compute in Hthrow;
            repeat match type of Hthrow with
                   | context [if ?c then _ else _] => destruct c
                   end;
            try discriminate Hthrow;
            injection Hthrow as <-;
            cbn [pipeline_error In];
            first [exact I | repeat (first [left; reflexivity | right])] |]).
  contradiction.
Qed.

Lemma evaluate_loop_errors rt angleUnit memory : forall rpn stack err,
  Forall tokenizer_made rpn ->
  Forall (fun t => emitted t = true) rpn ->
  evaluate_loop rt rpn stack angleUnit memory = Throw err ->
  pipeline_error err.
Proof.
  induction rpn as [|token rpn IH]; intros stack err Hmade Hem; [discriminate|].
  inversion Hmade as [|? ? Ht Hmade']; subst.
  inversion Hem as [|? ? He Hem']; subst.
  destruct token as [x|v|f| | | |c|v]; cbn [evaluate_loop]; try discriminate He.
  - apply IH; assumption.
  - destruct stack as [|b [|a stack]];
      try (intros [= <-]; exact I).
    inversion Ht as [| | |c Hop| | | |]; subst.
    pose proof (operator_keys_errors rt c [a; b] angleUnit) as Hop'.
    destruct (evaluateOperation rt [c] [a; b] angleUnit) as [r|e|]; cbn [rbind].
    + apply IH; assumption.
    + intros [= <-]. apply Hop'; [exact Hop | reflexivity].
    + discriminate.
  - pose proof (made_function_reachable f Ht) as Hreach.
    destruct (lookup FUNCTIONS f) as [funcInfo|] eqn:Hf.
    + destruct (length stack <? args funcInfo)%nat;
        [intros [= <-]; exact Hreach|].
      pose proof (function_keys_errors rt f
                    (rev (firstn (args funcInfo) stack)) angleUnit) as Hop'.
      destruct (evaluateOperation rt f _ angleUnit) as [r|e|]; cbn [rbind].
      * apply IH; assumption.
      * intros [= <-]. apply Hop'; [exact Hreach | reflexivity].
      * discriminate.
    + exfalso. inversion Ht as [|e i f' Hfound| | | | | |]; subst.
      apply find_name_is_key, lookup_key in Hfound. congruence.
  - destruct (lookup CONSTANTS c) eqn:Hc; [apply IH; assumption|].
    exfalso. inversion Ht as [| |e i c' Hfound| | | | |]; subst.
    apply find_name_is_key, lookup_key in Hfound. congruence.
  - inversion Ht as [| | | | | | |c Hl]; subst.
    destruct (lookup memory [c]) as [[|x]|];
      try (intros [= <-]; exists c; auto).
    apply IH; assumption.
Qed.

Lemma parse_throws rt expression err :
  parse rt expression = Throw err -> err = MismatchedParentheses.
Proof.
  unfold parse.
  destruct (tokenize_total rt expression) as (tokens & -> & Hall).
  cbn [rbind]. apply pipeline_tokens_known in Hall.
  pose proof (rpn_loop_parens tokens [] [] Hall (Forall_nil _) (fun H => H)) as H.
  cbn [open_parens] in H. unfold parseToRPN.
  destruct (paren_depth 0 tokens) as [[|d]|];
    [destruct H as (rpn & ->); discriminate | | ];
    rewrite H; intros [= <-]; reflexivity.
Qed.

Lemma parse_made rt expression rpn :
  parse rt expression = Ok rpn ->
  Forall tokenizer_made rpn /\ Forall (fun t => emitted t = true) rpn.
Proof.
  unfold parse.
  destruct (tokenize rt expression) as [tokens| |] eqn:Htok; try discriminate.
  cbn [rbind]. unfold parseToRPN. intros Hrpn.
  pose proof (tokenize_made rt expression tokens Htok) as Hmade.
  split.
  - apply (rpn_loop_Forall tokenizer_made tokens [] [] rpn); auto.
  - destruct (rpn_loop_moves tokens [] [] rpn (Forall_nil _) Hrpn)
      as (tail & -> & He & _).
    apply filter_fixed. exact He.
Qed.

Lemma evaluateExpression_errors rt expression context global err :
  evaluateExpression rt expression context global = Throw err ->
  pipeline_error err.
Proof.
  intros Hthrow.
  unfold evaluateExpression in Hthrow.
  destruct (parse rt expression) as [rpn|e|] eqn:Hparse; cbn [rbind] in Hthrow.
  - destruct (parse_made rt expression rpn Hparse) as [Hmade Hem].
    rewrite evaluate_resolved in Hthrow.
    pose proof (evaluate_loop_errors rt (resolved_angleUnit context global)
                  (resolved_memory context global) rpn [] err Hmade Hem) as Hloop.
    destruct (evaluate_loop rt rpn [] _ _) as [stack|e|]; cbn [rbind] in Hthrow.
    + destruct stack as [|v [|w stack]]; try discriminate Hthrow;
        injection Hthrow as <-; cbn [pipeline_error length]; lia.
    + injection Hthrow as <-. apply Hloop. reflexivity.
    + discriminate Hthrow.
  - injection Hthrow as <-.
    rewrite (parse_throws rt expression e Hparse). exact I.
  - discriminate Hthrow.
Qed.

(** X10. The errors of evaluateExpression.  Whatever the string, the
    memory and the angle unit, a throw of evaluateExpression is one of:
    'Mismatched parentheses', 'Insufficient operands for operator',
    'Division by zero', 'Undefined variable' for a single letter,
    'Insufficient arguments' for a reachable function, 'Invalid
    expression' with a stack size other than 1, 'Invalid domain' for log,
    ln or sqrt, and 'Unknown operator' for one of the six non-ASCII
    symbols of the parser's tables.  No TypeError, 'Unknown function',
    'Unknown constant', 'Unknown token type' or factorial error comes out
    of a string. *)
Theorem X10_errors_of_evaluateExpression
  (rt : Native) (expression : jsstring) (context : Context)
  (global : option GlobalView) (err : error)
  (Hthrow : evaluateExpression rt expression context global = Throw err) :
  pipeline_error err.
Proof.
  exact (evaluateExpression_errors rt expression context global err Hthrow).
Qed.

(** X10 on "1/0", which throws 'Division by zero'. *)
Lemma X10_errors_of_evaluateExpression_witness :
  pipeline_error DivisionByZero.
Proof.
  apply (X10_errors_of_evaluateExpression TestRuntime.runtime (str "1/0")
           empty_context None DivisionByZero).
  reflexivity.
Defined.

(* ------------------------------------------------------------------ *)
(** ** Evaluating compound RPN sequences *)

Lemma evaluate_loop_app rt angleUnit memory : forall rpn1 rpn2 stack,
  evaluate_loop rt (rpn1 ++ rpn2) stack angleUnit memory
  = (stack' <- evaluate_loop rt rpn1 stack angleUnit memory ;;
     evaluate_loop rt rpn2 stack' angleUnit memory)%comp.
Proof.
  induction rpn1 as [|token rpn1 IH]; intros rpn2 stack; [reflexivity|].
  cbn [app]. destruct token as [x|v|f| | | |c|v]; cbn [evaluate_loop];
    try reflexivity.
  - apply IH.
  - destruct stack as [|b [|a stack]]; try reflexivity.
    destruct (evaluateOperation rt v [a; b] angleUnit); cbn [rbind];
      [apply IH | reflexivity | reflexivity].
  - destruct (lookup FUNCTIONS f) as [funcInfo|]; [|reflexivity].
    destruct (length stack <? args funcInfo)%nat; [reflexivity|].
    destruct (evaluateOperation rt f _ angleUnit); cbn [rbind];
      [apply IH | reflexivity | reflexivity].
  - destruct (lookup CONSTANTS c); [apply IH | reflexivity].
  - destruct (lookup memory v) as [[|x]|]; try reflexivity. apply IH.
Qed.

(** What a sequence leaves on an empty stack it leaves on top of any
    stack: a run that succeeds never reads below its starting point. *)
Lemma evaluate_loop_frame rt angleUnit memory : forall rpn stack stack' below,
  evaluate_loop rt rpn stack angleUnit memory = Ok stack' ->
  evaluate_loop rt rpn (stack ++ below) angleUnit memory = Ok (stack' ++ below).
Proof.
  induction rpn as [|token rpn IH]; intros stack stack' below.
  - cbn [evaluate_loop]. intros [= <-]. reflexivity.
  - destruct token as [x|v|f| | | |c|v]; cbn [evaluate_loop]; try discriminate.
    + apply (IH (x :: stack)).
    + destruct stack as [|b [|a stack]]; try discriminate.
      cbn [app].
      destruct (evaluateOperation rt v [a; b] angleUnit) as [r| |]; cbn [rbind];
        try discriminate.
      apply (IH (r :: stack)).
    + destruct (lookup FUNCTIONS f) as [funcInfo|]; [|discriminate].
      destruct (length stack <? args funcInfo)%nat eqn:Hlen; [discriminate|].
      apply Nat.ltb_ge in Hlen.
      assert (Hlen' : (length (stack ++ below) <? args funcInfo)%nat = false).
      { apply Nat.ltb_ge. rewrite length_app. lia. }
      rewrite Hlen', firstn_app, skipn_app.
      replace (args funcInfo - length stack) with 0 by lia.
      cbn [firstn skipn]. rewrite app_nil_r.
      destruct (evaluateOperation rt f _ angleUnit) as [r| |]; cbn [rbind];
        try discriminate.
      apply (IH (r :: skipn (args funcInfo) stack)).
    + destruct (lookup CONSTANTS c) as [k|]; [|discriminate].
      apply (IH (k :: stack)).
    + destruct (lookup memory v) as [[|x]|]; try discriminate.
      apply (IH (x :: stack)).
Qed.

Lemma evaluate_returns rt rpn context global v :
  evaluate rt rpn context global = Ok v <->
  evaluate_loop rt rpn [] (resolved_angleUnit context global)
    (resolved_memory context global) = Ok [v].
Proof.
  rewrite evaluate_resolved.
  destruct (evaluate_loop rt rpn [] _ _) as [[|w [|w' stack]]| |]; cbn [rbind];
    split; intros H; try discriminate H; congruence.
Qed.

Lemma evaluate_operator_suffix rt context global rpnA rpnB a b op :
  evaluate rt rpnA context global = Ok a ->
  evaluate rt rpnB context global = Ok b ->
  evaluate rt (rpnA ++ rpnB ++ [OPERATOR op]) context global
  = evaluateOperation rt op [a; b] (resolved_angleUnit context global).
Proof.
  intros HA HB. apply evaluate_returns in HA, HB.
  pose proof (evaluate_loop_frame rt _ _ rpnB [] [b] [a] HB) as HB'.
  cbn [app] in HB'.
  rewrite evaluate_resolved, evaluate_loop_app, HA. cbn [rbind].
  rewrite evaluate_loop_app, HB'. cbn [rbind].
  cbn [evaluate_loop].
  destruct (evaluateOperation rt op [a; b] _); reflexivity.
Qed.

Lemma function_table_arity f :
  In f (map fst FUNCTIONS) ->
  exists info, lookup FUNCTIONS f = Some info /\ args info = 1.
Proof.
  cbn [map fst FUNCTIONS In]. intros Hf.
  repeat (destruct Hf as [<- | Hf]; [eexists; split; reflexivity|]).
  contradiction.
Qed.

Lemma evaluate_function_suffix rt context global rpnA a f :
  evaluate rt rpnA context global = Ok a ->
  In f (map fst FUNCTIONS) ->
  evaluate rt (rpnA ++ [FUNCTION f]) context global
  = evaluateOperation rt f [a] (resolved_angleUnit context global).
Proof.
  intros HA Hf. apply evaluate_returns in HA.
  rewrite evaluate_resolved, evaluate_loop_app, HA. cbn [rbind].
  cbn [evaluate_loop].
  destruct (function_table_arity f Hf) as (info & -> & ->).
  cbn [length Nat.ltb Nat.leb firstn skipn rev app].
  destruct (evaluateOperation rt f [a] _); reflexivity.
Qed.

(** X11. RPN sequences compose.  If the sequence A evaluates to a and
    the sequence B to b, then A followed by B and an operator token
    evaluates to evaluateOperation of that operator on [a, b], in this
    order (the value computed first is the left operand); and A followed
    by a function token of the table evaluates to evaluateOperation of
    the function on [a]. *)
Theorem X11_rpn_sequences_compose
  (rt : Native) (context : Context) (global : option GlobalView)
  (rpnA rpnB : list Token) (a b : float) (op f : jsstring)
  (HA : evaluate rt rpnA context global = Ok a)
  (HB : evaluate rt rpnB context global = Ok b)
  (Hf : In f (map fst FUNCTIONS)) :
  evaluate rt (rpnA ++ rpnB ++ [OPERATOR op]) context global
    = evaluateOperation rt op [a; b] (resolved_angleUnit context global) /\
  evaluate rt (rpnA ++ [FUNCTION f]) context global
    = evaluateOperation rt f [a] (resolved_angleUnit context global).
Proof.
  split.
  - apply evaluate_operator_suffix; assumption.
  - apply evaluate_function_suffix; assumption.
Qed.

(** X11 on the sequences [2 3 +] and [4], joined by [*], and on [2 3 +]
    under abs. *)
Lemma X11_rpn_sequences_compose_witness :
  evaluate TestRuntime.runtime
    ([NUMBER 2; NUMBER 3; OPERATOR (str "+")] ++ [NUMBER 4] ++ [OPERATOR (str "*")])
    empty_context None
    = evaluateOperation TestRuntime.runtime (str "*") [5; 4]%float
        (resolved_angleUnit empty_context None) /\
  evaluate TestRuntime.runtime
    ([NUMBER 2; NUMBER 3; OPERATOR (str "+")] ++ [FUNCTION (str "abs")])
    empty_context None
    = evaluateOperation TestRuntime.runtime (str "abs") [5%float]
        (resolved_angleUnit empty_context None).
Proof.
  apply (X11_rpn_sequences_compose TestRuntime.runtime empty_context None
           [NUMBER 2; NUMBER 3; OPERATOR (str "+")] [NUMBER 4] 5 4
           (str "*") (str "abs")).
  - reflexivity.
  - reflexivity.
  - vm_compute. tauto.
Defined.

(* ------------------------------------------------------------------ *)
(** ** From the string to the operation *)

Lemma operator_char_cases c :
  operator_char c ->
  In c [43; u_MINUS; 45; u_TIMES; 42; u_DIVIDE; 47; 94; 37]%N.
Proof.
  intros H. apply lookup_is_key in H. cbn [map fst OPERATORS In] in H.
  repeat (destruct H as [Hk | H];
          [ cbv in Hk;
            first [ discriminate Hk
                  | injection Hk as <-; cbn [In];
                    repeat (first [left; reflexivity | right]) ] |]).
  contradiction.
Qed.

Lemma operator_char_plain c :
  operator_char c ->
  is_number_char c = false /\ is_whitespace c = false.
Proof.
  intros H. apply operator_char_cases in H. cbn [In] in H.
  repeat (destruct H as [<- | H]; [split; reflexivity|]). contradiction.
Qed.

(** An operator symbol after a token that is neither an operator nor a
    left parenthesis becomes one operator token. *)
Lemma tokenize_binary_operator rt fuel expression i tokens char :
  nth_error expression i = Some char ->
  operator_char char ->
  (i =? 0)%nat = false -> (length tokens =? 0)%nat = false ->
  is_operator_or_lparen (last_token tokens) = false ->
  tokenize_loop rt (S fuel) expression i tokens
  = tokenize_loop rt fuel expression (i + 1) (tokens ++ [OPERATOR [char]]).
Proof.
  intros Hc Hop Hi Hlen Hlast.
  apply operator_char_cases in Hop. cbn [In] in Hop.
  cbn [tokenize_loop]. rewrite Hc, Hi, Hlen, Hlast.
  repeat (destruct Hop as [<- | Hop];
          [ rewrite (find_name_no_start FUNCTIONS _ _ _ Hc eq_refl),
                    (find_name_no_start CONSTANTS _ _ _ Hc eq_refl);
            reflexivity |]).
  contradiction.
Qed.

Lemma tokenize_lparen rt fuel expression i tokens :
  nth_error expression i = Some 40%N ->
  tokenize_loop rt (S fuel) expression i tokens
  = tokenize_loop rt fuel expression (i + 1) (tokens ++ [LPAREN]).
Proof.
  intros Hc. cbn [tokenize_loop]. rewrite Hc.
  rewrite (find_name_no_start FUNCTIONS _ _ _ Hc eq_refl),
          (find_name_no_start CONSTANTS _ _ _ Hc eq_refl).
  reflexivity.
Qed.

Lemma tokenize_rparen rt fuel expression i tokens :
  nth_error expression i = Some 41%N ->
  tokenize_loop rt (S fuel) expression i tokens
  = tokenize_loop rt fuel expression (i + 1) (tokens ++ [RPAREN]).
Proof.
  intros Hc. cbn [tokenize_loop]. rewrite Hc.
  rewrite (find_name_no_start FUNCTIONS _ _ _ Hc eq_refl),
          (find_name_no_start CONSTANTS _ _ _ Hc eq_refl).
  reflexivity.
Qed.

Lemma skipn_past {A} (a b : list A) : skipn (length a) (a ++ b) = b.
Proof. induction a as [|x a IH]; [reflexivity | exact IH]. Qed.

Lemma nth_error_past {A} (a b : list A) : nth_error (a ++ b) (length a) = nth_error b 0.
Proof. induction a as [|x a IH]; [reflexivity | exact IH]. Qed.

Lemma literal_head n :
  numeric_literal n ->
  exists d n', n = d :: n' /\ is_number_char d = true.
Proof.
  intros [Hne Hall]. destruct n as [|d n']; [congruence|].
  inversion Hall; subst. eauto.
Qed.

Lemma tokenize_literal_operator_literal rt a c b :
  numeric_literal a -> operator_char c -> numeric_literal b ->
  tokenize rt (a ++ [c] ++ b)
  = Ok [NUMBER (parseFloat rt a); OPERATOR [c]; NUMBER (parseFloat rt b)].
Proof.
  intros Ha Hc Hb.
  destruct (operator_char_plain c Hc) as [Hcn Hcw].
  pose proof Ha as [_ Hadig]. pose proof Hb as [_ Hbdig].
  destruct (literal_head a Ha) as (d & a' & Hda & Hd).
  destruct (literal_head b Hb) as (d' & b' & Hdb & Hd').
  unfold tokenize.
  assert (Hclean : remove_whitespace (a ++ [c] ++ b) = a ++ [c] ++ b).
  { rewrite !remove_whitespace_app,
      (remove_whitespace_clean a (literal_not_whitespace a Hadig)),
      (remove_whitespace_clean b (literal_not_whitespace b Hbdig)).
    unfold remove_whitespace at 1. cbn [filter]. rewrite Hcw. reflexivity. }
  rewrite Hclean. cbn [app].
  assert (Hlen : length (a ++ c :: b) = S (S (S (length a' + length b')))).
  { rewrite length_app, Hda, Hdb. cbn [length]. lia. }
  rewrite Hlen.
  rewrite (tokenize_number rt _ (a ++ c :: b) 0 [] d); [|rewrite Hda; reflexivity | exact Hd].
  cbn [skipn app]. rewrite (scan_number_stop a c b Hadig Hcn). cbn [Nat.add].
  rewrite (tokenize_binary_operator rt _ (a ++ c :: b) (length a) _ c);
    [ | rewrite nth_error_past; reflexivity | exact Hc
      | rewrite Hda; reflexivity | reflexivity | reflexivity ].
  rewrite (tokenize_number rt _ (a ++ c :: b) (length a + 1) _ d').
  - replace (skipn (length a + 1) (a ++ c :: b)) with b.
    + rewrite (scan_number_all b Hbdig).
      apply tokenize_end, nth_error_None. rewrite length_app. cbn [length]. lia.
    + replace (length a + 1) with (length (a ++ [c])) by (rewrite length_app; reflexivity).
      change (c :: b) with ([c] ++ b). rewrite app_assoc, skipn_past. reflexivity.
  - replace (length a + 1) with (length (a ++ [c])) by (rewrite length_app; reflexivity).
    change (c :: b) with ([c] ++ b). rewrite app_assoc, nth_error_past, Hdb. reflexivity.
  - exact Hd'.
Qed.

(** X12. A binary operation written out: for numeric literals a and b
    and any one-unit operator symbol c of the table, the string a c b
    tokenizes to NUMBER, OPERATOR, NUMBER and evaluates to
    evaluateOperation of c on [parseFloat a, parseFloat b], the left
    literal first.  (For the symbols whose case label the evaluator lacks
    this is the 'Unknown operator' throw.) *)
Theorem X12_binary_operation_of_literals
  (rt : Native) (context : Context) (global : option GlobalView)
  (a b : jsstring) (c : N)
  (Ha : numeric_literal a) (Hc : operator_char c) (Hb : numeric_literal b) :
  tokenize rt (a ++ [c] ++ b)
    = Ok [NUMBER (parseFloat rt a); OPERATOR [c]; NUMBER (parseFloat rt b)] /\
  evaluateExpression rt (a ++ [c] ++ b) context global
    = evaluateOperation rt [c] [parseFloat rt a; parseFloat rt b]
        (resolved_angleUnit context global).
Proof.
  pose proof (tokenize_literal_operator_literal rt a c b Ha Hc Hb) as Htok.
  split; [exact Htok|].
  unfold evaluateExpression, parse. rewrite Htok.
  cbn [rbind parseToRPN rpn_loop rpn_step pop_operators pop_remaining app].
  apply (evaluate_operator_suffix rt context global
           [NUMBER (parseFloat rt a)] [NUMBER (parseFloat rt b)]);
    reflexivity.
Qed.

(** X12 on "7-2.5". *)
Lemma X12_binary_operation_of_literals_witness :
  tokenize TestRuntime.runtime (str "7" ++ [45%N] ++ str "2.5")
    = Ok [NUMBER (parseFloat TestRuntime.runtime (str "7")); OPERATOR [45%N];
          NUMBER (parseFloat TestRuntime.runtime (str "2.5"))] /\
  evaluateExpression TestRuntime.runtime (str "7" ++ [45%N] ++ str "2.5")
    empty_context None
    = evaluateOperation TestRuntime.runtime [45%N]
        [parseFloat TestRuntime.runtime (str "7");
         parseFloat TestRuntime.runtime (str "2.5")]
        (resolved_angleUnit empty_context None).
Proof.
  apply (X12_binary_operation_of_literals TestRuntime.runtime empty_context None
           (str "7") (str "2.5") 45%N).
  - split; [discriminate | repeat constructor].
  - vm_compute. discriminate.
  - split; [discriminate | repeat constructor].
Defined.

Lemma tokenize_call rt f c0 f' n :
  f = c0 :: f' ->
  is_number_char c0 = false ->
  remove_whitespace f = f ->
  find_name FUNCTIONS (f ++ [40%N] ++ n ++ [41%N]) 0 = Some f ->
  numeric_literal n ->
  tokenize rt (f ++ [40%N] ++ n ++ [41%N])
  = Ok [FUNCTION f; LPAREN; NUMBER (parseFloat rt n); RPAREN].
Proof.
  intros Hf Hc0 Hfw Hfound Hn.
  pose proof Hn as [_ Hdig].
  destruct (literal_head n Hn) as (d & n' & Hdn & Hd).
  unfold tokenize.
  assert (Hclean : remove_whitespace (f ++ [40%N] ++ n ++ [41%N])
                   = f ++ [40%N] ++ n ++ [41%N]).
  { rewrite !remove_whitespace_app, Hfw,
      (remove_whitespace_clean n (literal_not_whitespace n Hdig)).
    reflexivity. }
  rewrite Hclean.
  set (e := f ++ [40%N] ++ n ++ [41%N]) in *.
  assert (Hlen : length e = S (S (S (S (length f' + length n'))))).
  { unfold e. rewrite !length_app, Hf, Hdn. cbn [length]. lia. }
  rewrite Hlen.
  rewrite (tokenize_function rt _ e 0 [] c0 f);
    [ | unfold e; rewrite Hf; reflexivity | exact Hc0 | exact Hfound ].
  cbn [app Nat.add].
  rewrite (tokenize_lparen rt _ e (length f));
    [ | unfold e; rewrite nth_error_past; reflexivity ].
  assert (Hskip : skipn (length f + 1) e = n ++ [41%N]).
  { unfold e. replace (length f + 1) with (length (f ++ [40%N]))
      by (rewrite length_app; reflexivity).
    rewrite app_assoc, skipn_past. reflexivity. }
  rewrite (tokenize_number rt _ e (length f + 1) _ d);
    [ | rewrite <- (Nat.add_0_r (length f + 1)), <- nth_error_skipn, Hskip, Hdn;
        reflexivity
      | exact Hd ].
  rewrite Hskip. change (n ++ [41%N]) with (n ++ 41%N :: []).
  rewrite (scan_number_stop n 41%N [] Hdig eq_refl).
  rewrite (tokenize_rparen rt _ e (length f + 1 + length n)).
  - apply tokenize_end, nth_error_None. rewrite Hlen, Hf, Hdn. cbn [length]. lia.
  - unfold e.
    replace (length f + 1 + length n) with (length ((f ++ [40%N]) ++ n))
      by (rewrite !length_app; reflexivity).
    rewrite (app_assoc f), (app_assoc (f ++ [40%N])), nth_error_past. reflexivity.
Qed.

(** X13. A function applied to a literal: for each of the fourteen
    function names f that tokenize as themselves and every numeric
    literal n, the string f(n) tokenizes to FUNCTION f, LPAREN, NUMBER,
    RPAREN and evaluates to evaluateOperation of f on [parseFloat n]
    under the angle unit in force. *)
Theorem X13_function_of_a_literal
  (rt : Native) (context : Context) (global : option GlobalView)
  (f n : jsstring)
  (Hf : tokenizes_as_itself f) (Hn : numeric_literal n) :
  tokenize rt (f ++ [40%N] ++ n ++ [41%N])
    = Ok [FUNCTION f; LPAREN; NUMBER (parseFloat rt n); RPAREN] /\
  evaluateExpression rt (f ++ [40%N] ++ n ++ [41%N]) context global
    = evaluateOperation rt f [parseFloat rt n] (resolved_angleUnit context global).
Proof.
  pose proof (find_name_is_key FUNCTIONS f 0 f Hf) as Hkey.
  assert (Htok : tokenize rt (f ++ [40%N] ++ n ++ [41%N])
                 = Ok [FUNCTION f; LPAREN; NUMBER (parseFloat rt n); RPAREN]).
  { pose proof (tokenizes_as_itself_reachable f Hf) as Hreach.
    cbn [reachable_functions In] in Hreach.
    repeat (destruct Hreach as [<- | Hreach];
            [ eapply tokenize_call;
              [reflexivity | reflexivity | reflexivity | reflexivity | exact Hn] |]).
    contradiction. }
  split; [exact Htok|].
  unfold evaluateExpression, parse. rewrite Htok.
  cbn [rbind parseToRPN rpn_loop rpn_step pop_until_lparen pop_remaining app].
  apply (evaluate_function_suffix rt context global [NUMBER (parseFloat rt n)]);
    [reflexivity | exact Hkey].
Qed.

(** X13 on "abs(12.5)". *)
Lemma X13_function_of_a_literal_witness :
  tokenize TestRuntime.runtime (str "abs" ++ [40%N] ++ str "12.5" ++ [41%N])
    = Ok [FUNCTION (str "abs"); LPAREN;
          NUMBER (parseFloat TestRuntime.runtime (str "12.5")); RPAREN] /\
  evaluateExpression TestRuntime.runtime
    (str "abs" ++ [40%N] ++ str "12.5" ++ [41%N]) empty_context None
    = evaluateOperation TestRuntime.runtime (str "abs")
        [parseFloat TestRuntime.runtime (str "12.5")]
        (resolved_angleUnit empty_context None).
Proof.
  apply (X13_function_of_a_literal TestRuntime.runtime empty_context None
           (str "abs") (str "12.5")).
  - reflexivity.
  - split; [discriminate | repeat constructor].
Defined.

(* ------------------------------------------------------------------ *)
(** ** The closures of solve and integrate *)

Lemma lookup_assign {A} (tbl : list (jsstring * A)) k v k' :
  lookup (assign tbl k v) k' = if jseq k k' then Some v else lookup tbl k'.
Proof.
  induction tbl as [|[k0 v0] tbl IH]; cbn [assign lookup]; [reflexivity|].
  destruct (jseq k0 k) eqn:E; cbn [lookup].
  - apply jseq_eq in E. subst k0. destruct (jseq k k'); reflexivity.
  - rewrite IH. destruct (jseq k0 k') eqn:E'; [|reflexivity].
    apply jseq_eq in E'. subst k'.
    destruct (jseq k k0) eqn:E2; [|reflexivity].
    apply jseq_eq in E2. subst k0. rewrite jseq_refl in E. discriminate.
Qed.

Lemma closure_final_store rt expression variable value st :
  snd (createFunctionFromExpression rt expression variable value st)
  = set_memory (write_memory (snd (spread_memory st)) (toUpperCase rt variable) value)
      (length (heap st)).
Proof.
  unfold createFunctionFromExpression, spread_memory, evaluateWithState.
  cbn [snd].
  match goal with
  | |- context [evaluateExpression rt expression ?c ?g] =>
      pose proof (evaluateExpression_completes rt expression c g) as Hc;
      destruct (evaluateExpression rt expression c g)
  end; cbn [snd]; congruence.
Qed.

(** X14. What a trial evaluation leaves behind.  After one call of the
    closure that solve and integrate build, state.memory refers to a
    freshly allocated object holding the bindings of before, while the
    object it referred to before the call has been written to: it binds
    the upper-cased variable name to the trial value.  Any other holder
    of the old reference sees the trial value. *)
Theorem X14_closure_leaves_trial_value
  (rt : Native) (expression variable : jsstring) (value : float) (st : Store)
  (Hwf : well_formed st) :
  snd (solve_f rt expression variable value st)
    = snd (createFunctionFromExpression rt expression variable value st) /\
  state_memory (snd (createFunctionFromExpression rt expression variable value st))
    = length (heap st) /\
  deref (snd (createFunctionFromExpression rt expression variable value st))
        (state_memory st)
    = assign (bindings st) (toUpperCase rt variable) (JNum value) /\
  deref (snd (createFunctionFromExpression rt expression variable value st))
        (length (heap st))
    = bindings st.
Proof.
  unfold well_formed in Hwf.
  split; [reflexivity|].
  rewrite closure_final_store.
  unfold spread_memory, write_memory, set_memory, deref, bindings.
  cbn [snd heap state_memory].
  split; [reflexivity|]. split.
  - rewrite nth_update_nth_same by (rewrite length_app; lia).
    unfold deref. cbn [heap]. rewrite app_nth1 by assumption. reflexivity.
  - rewrite nth_update_nth_other by lia.
    rewrite app_nth2 by lia. rewrite Nat.sub_diag. reflexivity.
Qed.

(** X14 on a trial evaluation of "X+1" at 7 from the initial registers. *)
Lemma X14_closure_leaves_trial_value_witness :
  snd (solve_f TestRuntime.runtime (str "X+1") (str "x") 7 sample_store)
    = snd (createFunctionFromExpression TestRuntime.runtime (str "X+1") (str "x") 7
             sample_store) /\
  state_memory (snd (createFunctionFromExpression TestRuntime.runtime (str "X+1")
                       (str "x") 7 sample_store))
    = length (heap sample_store) /\
  deref (snd (createFunctionFromExpression TestRuntime.runtime (str "X+1")
                (str "x") 7 sample_store))
        (state_memory sample_store)
    = assign (bindings sample_store) (toUpperCase TestRuntime.runtime (str "x"))
        (JNum 7) /\
  deref (snd (createFunctionFromExpression TestRuntime.runtime (str "X+1")
                (str "x") 7 sample_store))
        (length (heap sample_store))
    = bindings sample_store.
Proof.
  apply (X14_closure_leaves_trial_value TestRuntime.runtime (str "X+1") (str "x")
           7 sample_store).
  unfold well_formed. cbn. lia.
Defined.

Lemma closure_of_letter rt c variable value st :
  well_formed st ->
  is_letter c = true -> c <> 69%N -> c <> 101%N ->
  fst (createFunctionFromExpression rt [c] variable value st)
  = if jseq (toUpperCase rt variable) [c] then Ok value
    else variable_value (bindings st) [c].
Proof.
  intros Hwf Hl H69 H101.
  destruct (createFunctionFromExpression_run rt [c] variable value st Hwf)
    as (Hrun & _).
  cbv zeta in Hrun. rewrite Hrun, (evaluate_letter rt _ _ c Hl).
  apply N.eqb_neq in H69, H101. rewrite H69, H101. cbn [orb].
  unfold variable_value, trial_context, resolved_memory. cbn [ctx_memory].
  rewrite lookup_assign.
  destruct (jseq (toUpperCase rt variable) [c]); reflexivity.
Qed.

(** X15. The trial value is visible under the upper-cased variable name
    only.  For an expression that is a single letter other than e and E,
    the closure built for a variable returns the trial value when the
    upper-cased variable name is that letter, and otherwise reads the
    letter from the memory as any evaluation does (throwing 'Undefined
    variable' when it is null or missing): the closure of the expression
    X in the variable x is the identity, and a lower-case x in the
    expression never receives the trial value. *)
Theorem X15_trial_value_under_upper_case_name
  (rt : Native) (c : N) (variable : jsstring) (value : float) (st : Store)
  (Hwf : well_formed st)
  (Hletter : is_letter c = true) (Hc : c <> 69%N) (Hc' : c <> 101%N) :
  fst (createFunctionFromExpression rt [c] variable value st)
    = (if jseq (toUpperCase rt variable) [c] then Ok value
       else variable_value (bindings st) [c]) /\
  fst (solve_f rt [c] variable value st)
    = (if jseq (toUpperCase rt variable) [c] then Ok value
       else variable_value (bindings st) [c]).
Proof.
  split; apply closure_of_letter; assumption.
Qed.

(** X15 on the expression x in the variable x, from the initial
    registers (which bind X but not x). *)
Lemma X15_trial_value_under_upper_case_name_witness :
  fst (createFunctionFromExpression TestRuntime.runtime [120%N] (str "x") 7
         sample_store)
    = (if jseq (toUpperCase TestRuntime.runtime (str "x")) [120%N] then Ok 7%float
       else variable_value (bindings sample_store) [120%N]) /\
  fst (solve_f TestRuntime.runtime [120%N] (str "x") 7 sample_store)
    = (if jseq (toUpperCase TestRuntime.runtime (str "x")) [120%N] then Ok 7%float
       else variable_value (bindings sample_store) [120%N]).
Proof.
  apply (X15_trial_value_under_upper_case_name TestRuntime.runtime 120%N (str "x")
           7 sample_store).
  - unfold well_formed. cbn. lia.
  - reflexivity.
  - discriminate.
  - discriminate.
Defined.

(* ------------------------------------------------------------------ *)
(** ** The errors of solve and integrate *)

Lemma throws_ret {A} (P : error -> Prop) (a : A) : throws_only P (ret a).
Proof. intros st e. cbn. discriminate. Qed.

Lemma throws_throw {A} (P : error -> Prop) (e : error) :
  P e -> throws_only P (@throw A e).
Proof. intros He st e'. cbn. intros [= <-]. exact He. Qed.

Lemma throws_bind {A B} (P : error -> Prop) (m : Eff A) (k : A -> Eff B) :
  throws_only P m -> (forall a, throws_only P (k a)) ->
  throws_only P (bind m k).
Proof.
  intros Hm Hk st e. unfold bind.
  pose proof (Hm st) as Hm'.
  destruct (m st) as [[a|e'|] st']; cbn [fst] in *.
  - apply Hk.
  - intros [= <-]. apply Hm'. reflexivity.
  - discriminate.
Qed.

Lemma throws_try_catch {A} (P Q : error -> Prop) (m : Eff A)
  (handler : error -> Eff A) :
  throws_only P m -> (forall e, P e -> throws_only Q (handler e)) ->
  throws_only Q (try_catch m handler).
Proof.
  intros Hm Hh st e. unfold try_catch.
  pose proof (Hm st) as Hm'.
  destruct (m st) as [[a|e'|] st']; cbn [fst] in *.
  - discriminate.
  - apply Hh. apply Hm'. reflexivity.
  - discriminate.
Qed.

(** One structural step towards [throws_only]. *)
Ltac throws_step :=
  match goal with
  | |- throws_only _ (ret _) => apply throws_ret
  | |- throws_only _ (throw _) => apply throws_throw; exact I
  | |- throws_only _ (bind _ _) => apply throws_bind; [|intros ?]
  | H : forall x, throws_only ?P (?f x) |- throws_only ?P (?f _) => apply H
  | |- throws_only _ (if ?c then _ else _) => destruct c
  | |- throws_only _ (match ?x with _ => _ end) => destruct x
  end.

Section SolverErrors.

Variable f : float -> Eff float.
Hypothesis f_throws : forall x, throws_only solver_cause (f x).

Lemma bisection_throws a b options :
  throws_only solver_cause (bisection f a b options).
Proof.
  assert (Hloop : forall tolerance remaining a b fa fb,
            throws_only solver_cause (bisection_loop f tolerance remaining a b fa fb)).
  { intros tolerance. induction remaining as [|remaining IH]; intros;
      cbn [bisection_loop]; repeat first [apply IH | throws_step]. }
  unfold bisection; repeat first [apply Hloop | throws_step].
Qed.

Lemma newton_throws x0 options :
  no_derivative options = None ->
  throws_only solver_cause (newton f x0 options).
Proof.
  intros Hd.
  assert (Hloop : forall df tolerance,
            (forall x, throws_only solver_cause (df x)) ->
            forall remaining x,
              throws_only solver_cause (newton_loop f df tolerance remaining x)).
  { intros df tolerance Hdf. induction remaining as [|remaining IH]; intros;
      cbn [newton_loop]; repeat first [apply IH | throws_step]. }
  unfold newton. rewrite Hd. apply Hloop. intros x. repeat throws_step.
Qed.

Lemma secant_throws x0 x1 options :
  throws_only solver_cause (secant f x0 x1 options).
Proof.
  assert (Hloop : forall tolerance remaining x0 x1,
            throws_only solver_cause (secant_loop f tolerance remaining x0 x1)).
  { intros tolerance. induction remaining as [|remaining IH]; intros;
      cbn [secant_loop]; repeat first [apply IH | throws_step]. }
  unfold secant. apply Hloop.
Qed.

Lemma brent_throws a b options :
  throws_only solver_cause (brent f a b options).
Proof.
  assert (Hloop : forall tolerance remaining s,
            throws_only solver_cause (brent_loop f tolerance remaining s)).
  { intros tolerance. induction remaining as [|remaining IH]; intros;
      cbn [brent_loop]; repeat first [apply IH | throws_step]. }
  unfold brent; repeat first [apply Hloop | throws_step].
Qed.

Lemma expand_search_throws initialGuess : forall steps,
  throws_only solver_cause (expand_search f initialGuess steps).
Proof.
  induction steps as [|i steps IH]; cbn [expand_search];
    repeat first [apply IH | throws_step].
Qed.

End SolverErrors.

Section IntegrationErrors.

Variable f : float -> Eff float.
Hypothesis f_throws : forall x, throws_only integration_cause (f x).

Lemma adaptiveSimpson_throws : forall depth a b epsilon Sab fa fb fc,
  throws_only integration_cause (adaptiveSimpson f a b epsilon Sab fa fb fc depth).
Proof.
  induction depth as [|depth IH]; intros; cbn [adaptiveSimpson];
    repeat first [apply IH | throws_step].
Qed.

End IntegrationErrors.

Lemma closure_throws rt expression variable value :
  throws_only pipeline_error
    (createFunctionFromExpression rt expression variable value).
Proof.
  intros st e. unfold createFunctionFromExpression, spread_memory, evaluateWithState.
  match goal with
  | |- context [evaluateExpression rt expression ?c ?g] =>
      pose proof (evaluateExpression_errors rt expression c g) as Herr;
      destruct (evaluateExpression rt expression c g)
  end; cbn [fst]; try discriminate.
  intros [= <-]. apply Herr. reflexivity.
Qed.

Lemma pipeline_error_solver_cause e : pipeline_error e -> solver_cause e.
Proof. destruct e; cbn; tauto. Qed.

Lemma pipeline_error_integration_cause e : pipeline_error e -> integration_cause e.
Proof. destruct e; cbn; tauto. Qed.

Lemma solve_throws rt expression variable initialGuess options :
  throws_only solve_error (solve rt expression variable initialGuess options).
Proof.
  unfold solve.
  assert (Hf : forall x, throws_only solver_cause
                 (solve_f rt expression (default variable (str "x")) x)).
  { intros x st e H. apply pipeline_error_solver_cause.
    exact (closure_throws rt expression _ x st e H). }
  apply (throws_try_catch solver_cause);
    [|intros e He; apply throws_throw; exact He].
  repeat first [ apply bisection_throws; assumption
               | apply newton_throws; [assumption | reflexivity]
               | apply secant_throws; assumption
               | apply brent_throws; assumption
               | apply expand_search_throws; assumption
               | apply Hf
               | throws_step ].
Qed.

(** X16. The errors of solve.  Every throw of solve is a 'Solver error'
    wrapping one cause, and the cause is either a message of the four
    methods ('Bisection requires bounds [a, b]', 'Function must have
    different signs at bounds', the Newton, secant and Brent failures) or
    an error of evaluating the expression string at a trial value (X10).
    Nothing is thrown unwrapped. *)
Theorem X16_errors_of_solve
  (rt : Native) (expression : jsstring) (variable : option jsstring)
  (initialGuess : option float) (options : SolveOptions) (st : Store)
  (err : error)
  (Hthrow : fst (solve rt expression variable initialGuess options st) = Throw err) :
  exists cause, err = SolverError cause /\ solver_cause cause.
Proof.
  pose proof (solve_throws rt expression variable initialGuess options st err Hthrow)
    as H.
  destruct err; try contradiction. eauto.
Qed.

(** X16 on Newton's method for "1/X" from 0, which divides by zero. *)
Lemma X16_errors_of_solve_witness :
  exists cause, SolverError DivisionByZero = SolverError cause /\ solver_cause cause.
Proof.
  apply (X16_errors_of_solve TestRuntime.runtime (str "1/X") (Some (str "x"))
           (Some 0%float) newton_options sample_store (SolverError DivisionByZero)).
  vm_compute. reflexivity.
Defined.

Lemma integrate_throws rt expression a b options :
  throws_only integrate_error
    (integrate rt (ExpressionString expression) a b options).
Proof.
  assert (Hf : forall variable x, throws_only integration_cause
                 (createFunctionFromExpression rt expression variable x)).
  { intros variable x st e H. apply pipeline_error_integration_cause.
    exact (closure_throws rt expression variable x st e H). }
  assert (Hcore : forall a b,
            throws_only integrate_error
              (integrate_rec rt 1 (ExpressionString expression) a b options)).
  { intros a' b'. cbn [integrate_rec].
    destruct (negb (isFinite a') || negb (isFinite b'));
      [apply throws_throw; exact I|].
    destruct (a' =? b')%float; [apply throws_ret|].
    destruct (b' <? a')%float.
    - apply throws_bind; [|intros ?; apply throws_ret].
      intros st e. cbn. discriminate.
    - apply (throws_try_catch integration_cause);
        [|intros e He; apply throws_throw; exact He].
      repeat first [ apply adaptiveSimpson_throws; intros; apply Hf
                   | apply Hf
                   | throws_step ]. }
  unfold integrate. cbn [integrate_rec].
  destruct (negb (isFinite a) || negb (isFinite b));
    [apply throws_throw; exact I|].
  destruct (a =? b)%float; [apply throws_ret|].
  destruct (b <? a)%float.
  - apply throws_bind; [|intros ?; apply throws_ret]. apply Hcore.
  - apply (throws_try_catch integration_cause);
      [|intros e He; apply throws_throw; exact He].
    repeat first [ apply adaptiveSimpson_throws; intros; apply Hf
                 | apply Hf
                 | throws_step ].
Qed.

(** X17. The errors of integrate on an expression string.  A throw of
    integrate is 'Integration bounds must be finite', raised before any
    evaluation, or an 'Integration error' wrapping one cause: 'Function
    has singularity at or near bounds', 'Function returned non-finite
    value', or an error of evaluating the expression at a sample point
    (X10).  With reversed bounds the error of the inner call is passed
    on as it is, not wrapped a second time. *)
Theorem X17_errors_of_integrate
  (rt : Native) (expression : jsstring) (a b : float)
  (options : IntegrateOptions) (st : Store) (err : error)
  (Hthrow : fst (integrate rt (ExpressionString expression) a b options st)
            = Throw err) :
  err = BoundsNotFinite \/
  exists cause, err = IntegrationError cause /\ integration_cause cause.
Proof.
  pose proof (integrate_throws rt expression a b options st err Hthrow) as H.
  destruct err; try contradiction; eauto.
Qed.

(** X17 on the integral of "1/X" over [1, 0], bounds reversed. *)
Lemma X17_errors_of_integrate_witness :
  IntegrationError DivisionByZero = BoundsNotFinite \/
  exists cause,
    IntegrationError DivisionByZero = IntegrationError cause /\
    integration_cause cause.
Proof.
  apply (X17_errors_of_integrate TestRuntime.runtime (str "1/X") 1 0
           default_integrate_options sample_store (IntegrationError DivisionByZero)).
  vm_compute. reflexivity.
Defined.

(* ------------------------------------------------------------------ *)
(** ** Symbols that cannot be evaluated *)

Lemma dead_operation rt t :
  dead_token t ->
  match t with
  | OPERATOR v =>
      forall args angleUnit,
        evaluateOperation rt v args angleUnit = Throw (UnknownOperator v)
  | FUNCTION v =>
      lookup FUNCTIONS v = Some (fn type_none false) /\
      forall args angleUnit,
        evaluateOperation rt v args angleUnit = Throw (UnknownOperator v)
  | _ => False
  end.
Proof.
  unfold dead_token. cbn [In]. intros H.
  repeat (destruct H as [<- | H]; [repeat split; reflexivity|]).
  contradiction.
Qed.

Lemma evaluate_loop_dead rt angleUnit memory : forall rpn stack,
  (exists t, In t rpn /\ dead_token t) ->
  forall stack', evaluate_loop rt rpn stack angleUnit memory <> Ok stack'.
Proof.
  induction rpn as [|token rpn IH]; intros stack (t & Hin & Hdead) stack';
    [contradiction|].
  destruct Hin as [<- | Hin].
  - pose proof (dead_operation rt token Hdead) as Hop.
    destruct token as [x|v|f| | | |c|v]; try contradiction; cbn [evaluate_loop].
    + destruct stack as [|b [|a stack]]; try discriminate.
      rewrite Hop. discriminate.
    + destruct Hop as [-> Hop].
      destruct (length stack <? args (fn type_none false))%nat; [discriminate|].
      rewrite Hop. discriminate.
  - assert (Htail : forall s, evaluate_loop rt rpn s angleUnit memory <> Ok stack').
    { intros s. apply IH. eauto. }
    destruct token as [x|v|f| | | |c|v]; cbn [evaluate_loop]; try discriminate.
    + apply Htail.
    + destruct stack as [|b [|a stack]]; try discriminate.
      destruct (evaluateOperation rt v [a; b] angleUnit); cbn [rbind];
        [apply Htail | discriminate | discriminate].
    + destruct (lookup FUNCTIONS f) as [funcInfo|]; [|discriminate].
      destruct (length stack <? args funcInfo)%nat; [discriminate|].
      destruct (evaluateOperation rt f _ angleUnit); cbn [rbind];
        [apply Htail | discriminate | discriminate].
    + destruct (lookup CONSTANTS c); [apply Htail | discriminate].
    + destruct (lookup memory v) as [[|x]|]; try discriminate. apply Htail.
Qed.

Lemma dead_token_emitted t : dead_token t -> emitted t = true.
Proof.
  unfold dead_token. cbn [In]. intros H.
  repeat (destruct H as [<- | H]; [reflexivity|]). contradiction.
Qed.

Lemma evaluateExpression_dead rt expression context global tokens t :
  tokenize rt expression = Ok tokens ->
  In t tokens -> dead_token t ->
  forall v, evaluateExpression rt expression context global <> Ok v.
Proof.
  intros Htok Hin Hdead v.
  unfold evaluateExpression, parse. rewrite Htok. cbn [rbind].
  destruct (parseToRPN tokens) as [rpn| |] eqn:Hrpn; cbn [rbind]; try discriminate.
  destruct (rpn_loop_moves tokens [] [] rpn (Forall_nil _) Hrpn)
    as (tail & -> & _ & _ & Hperm).
  cbn [app filter] in Hperm.
  assert (Hin' : In t tail).
  { apply (Permutation_in t (Permutation_sym Hperm)).
    apply filter_In. split; [exact Hin | apply dead_token_emitted; exact Hdead]. }
  rewrite evaluate_resolved. cbn [app].
  pose proof (evaluate_loop_dead rt (resolved_angleUnit context global)
                (resolved_memory context global) tail []
                (ex_intro _ t (conj Hin' Hdead))) as Hloop.
  destruct (evaluate_loop rt tail [] _ _) as [stack| |]; cbn [rbind];
    try discriminate.
  exfalso. exact (Hloop stack eq_refl).
Qed.

Lemma evaluateExpression_dead_throws rt expression context global tokens t :
  tokenize rt expression = Ok tokens ->
  In t tokens -> dead_token t ->
  exists err, evaluateExpression rt expression context global = Throw err.
Proof.
  intros Htok Hin Hdead.
  pose proof (evaluateExpression_dead rt expression context global tokens t
                Htok Hin Hdead) as Hno.
  pose proof (evaluateExpression_completes rt expression context global) as Hc.
  destruct (evaluateExpression rt expression context global) as [v|err|].
  - exfalso. exact (Hno v eq_refl).
  - exists err. reflexivity.
  - congruence.
Qed.

(** X18. Symbols that cannot be evaluated.  If the tokens of a string
    include the operator U+2212, U+00D7 or U+00F7, or the function
    U+221A, U+221B or U+221C, then evaluateExpression throws for it,
    whatever else the string holds and whatever the memory and angle
    unit: the evaluation fails at that token or before it. *)
Theorem X18_symbols_without_a_case
  (rt : Native) (expression : jsstring) (context : Context)
  (global : option GlobalView) (tokens : list Token) (t : Token)
  (Htokens : tokenize rt expression = Ok tokens)
  (Hin : In t tokens) (Hdead : dead_token t) :
  exists err, evaluateExpression rt expression context global = Throw err.
Proof.
  exact (evaluateExpression_dead_throws rt expression context global tokens t
           Htokens Hin Hdead).
Qed.

(** X18 on "6" U+00F7 "3". *)
Lemma X18_symbols_without_a_case_witness :
  exists err,
    evaluateExpression TestRuntime.runtime (str "6" ++ [u_DIVIDE] ++ str "3")
      empty_context None = Throw err.
Proof.
  apply (X18_symbols_without_a_case TestRuntime.runtime
           (str "6" ++ [u_DIVIDE] ++ str "3") empty_context None
           [NUMBER 6; OPERATOR [u_DIVIDE]; NUMBER 3] (OPERATOR [u_DIVIDE])).
  - reflexivity.
  - right. left. reflexivity.
  - right. right. left. reflexivity.
Defined.

Lemma tokenize_loop_extends rt : forall fuel expression i tokens tokens',
  tokenize_loop rt fuel expression i tokens = Ok tokens' ->
  exists more, tokens' = tokens ++ more.
Proof.
  induction fuel as [|fuel IH]; intros expression i tokens tokens'.
  - cbn [tokenize_loop]. destruct (nth_error expression i); [discriminate|].
    intros [= <-]. exists []. rewrite app_nil_r. reflexivity.
  - assert (Hgrow : forall j added,
              tokenize_loop rt fuel expression j (tokens ++ added) = Ok tokens' ->
              exists more, tokens' = tokens ++ more).
    { intros j added H. apply IH in H. destruct H as (more & ->).
      exists (added ++ more). rewrite app_assoc. reflexivity. }
    cbn [tokenize_loop].
    destruct (nth_error expression i) as [char|];
      [|intros [= <-]; exists []; rewrite app_nil_r; reflexivity].
    destruct (is_number_char char); [apply Hgrow|].
    destruct (find_name FUNCTIONS expression i); [apply Hgrow|].
    destruct (find_name CONSTANTS expression i); [apply Hgrow|].
    destruct (lookup OPERATORS [char]).
    { match goal with |- context [if ?c then _ else _] => destruct c end;
        apply Hgrow. }
    destruct (char =? 40)%N; [apply Hgrow|].
    destruct (char =? 41)%N; [apply Hgrow|].
    destruct (char =? 44)%N; [apply Hgrow|].
    destruct (is_letter char); [apply Hgrow|].
    apply IH.
Qed.

Lemma tokenize_leading_minus rt c rest tokens :
  c = 45%N \/ c = u_MINUS ->
  tokenize rt (c :: rest) = Ok tokens ->
  In (OPERATOR [u_TIMES]) tokens.
Proof.
  intros Hc. unfold tokenize.
  assert (Hstrip : remove_whitespace (c :: rest) = c :: remove_whitespace rest).
  { destruct Hc as [-> | ->]; reflexivity. }
  rewrite Hstrip. cbn [length].
  rewrite (tokenize_unary_minus rt _ (c :: remove_whitespace rest) 0 [] c
             eq_refl Hc (or_introl eq_refl)).
  intros H. apply tokenize_loop_extends in H. destruct H as (more & ->).
  cbn [app]. right. left. reflexivity.
Qed.

(** X19. An expression that starts with a minus sign ([-] or U+2212)
    always throws: the tokenizer turns the sign into NUMBER(-1),
    OPERATOR(U+00D7), and the evaluator has no case for U+00D7.  Negative
    numbers cannot be entered as a leading sign. *)
Theorem X19_leading_minus_never_evaluates
  (rt : Native) (context : Context) (global : option GlobalView)
  (c : N) (rest : jsstring)
  (Hc : c = 45%N \/ c = u_MINUS) :
  exists err, evaluateExpression rt (c :: rest) context global = Throw err.
Proof.
  destruct (tokenize_total rt (c :: rest)) as (tokens & Htok & _).
  apply (evaluateExpression_dead_throws rt (c :: rest) context global tokens
           (OPERATOR [u_TIMES]) Htok).
  - exact (tokenize_leading_minus rt c rest tokens Hc Htok).
  - right. left. reflexivity.
Qed.

(** X19 on "-3+5". *)
Lemma X19_leading_minus_never_evaluates_witness :
  exists err,
    evaluateExpression TestRuntime.runtime (45%N :: str "3+5") empty_context None
    = Throw err.
Proof.
  apply (X19_leading_minus_never_evaluates TestRuntime.runtime empty_context None
           45%N (str "3+5")).
  left. reflexivity.
Defined.

(* ------------------------------------------------------------------ *)
(** ** The angle unit *)

Lemma evaluateOperation_angle_free rt op args u1 u2 :
  ~ In op angle_dependent ->
  evaluateOperation rt op args u1 = evaluateOperation rt op args u2.
Proof.
  intros Hfree. unfold evaluateOperation. cbv zeta beta.
  repeat match goal with
         | |- context [jseq op ?l] =>
             let E := fresh "E" in
             destruct (jseq op l) eqn:E; cbn [orb];
             [ first [ reflexivity
                     | exfalso; apply Hfree; apply jseq_eq in E; subst op;
                       cbn [angle_dependent In];
                       repeat (first [left; reflexivity | right]) ]
             | ]
         end.
  reflexivity.
Qed.

Lemma evaluate_loop_angle_free rt memory u1 u2 : forall rpn stack,
  Forall angle_free rpn ->
  evaluate_loop rt rpn stack u1 memory = evaluate_loop rt rpn stack u2 memory.
Proof.
  induction rpn as [|token rpn IH]; intros stack Hall; [reflexivity|].
  inversion Hall as [|? ? Ht Hrpn]; subst.
  destruct token as [x|v|f| | | |c|v]; cbn [evaluate_loop]; try reflexivity.
  - apply IH; assumption.
  - destruct stack as [|b [|a stack]]; try reflexivity.
    rewrite (evaluateOperation_angle_free rt v [a; b] u1 u2 Ht).
    destruct (evaluateOperation rt v [a; b] u2); cbn [rbind];
      [apply IH; assumption | reflexivity | reflexivity].
  - destruct (lookup FUNCTIONS f) as [funcInfo|]; [|reflexivity].
    destruct (length stack <? args funcInfo)%nat; [reflexivity|].
    rewrite (evaluateOperation_angle_free rt f _ u1 u2 Ht).
    destruct (evaluateOperation rt f _ u2); cbn [rbind];
      [apply IH; assumption | reflexivity | reflexivity].
  - destruct (lookup CONSTANTS c); [apply IH; assumption | reflexivity].
  - destruct (lookup memory v) as [[|x]|]; try reflexivity. apply IH; assumption.
Qed.

(** X20. The angle unit matters for the trigonometric operations only.
    If no operator or function token of a string is one of sin, cos, tan
    and their inverses, then evaluateExpression gives the same result,
    value or error, under any two angle units (the memory being the
    same). *)
Theorem X20_angle_unit_only_for_trigonometry
  (rt : Native) (expression : jsstring) (tokens : list Token)
  (unit1 unit2 : option jsstring) (memory : option Memory)
  (global : option GlobalView)
  (Htokens : tokenize rt expression = Ok tokens)
  (Hfree : Forall angle_free tokens) :
  evaluateExpression rt expression
    {| ctx_angleUnit := unit1; ctx_memory := memory |} global
  = evaluateExpression rt expression
      {| ctx_angleUnit := unit2; ctx_memory := memory |} global.
Proof.
  unfold evaluateExpression, parse. rewrite Htokens. cbn [rbind].
  destruct (parseToRPN tokens) as [rpn| |] eqn:Hrpn; cbn [rbind]; try reflexivity.
  assert (Hall : Forall angle_free rpn).
  { apply (rpn_loop_Forall angle_free tokens [] [] rpn); auto. }
  rewrite !evaluate_resolved.
  unfold resolved_memory. cbn [ctx_memory].
  rewrite (evaluate_loop_angle_free rt _
             (resolved_angleUnit {| ctx_angleUnit := unit1; ctx_memory := memory |} global)
             (resolved_angleUnit {| ctx_angleUnit := unit2; ctx_memory := memory |} global)
             rpn [] Hall).
  reflexivity.
Qed.

(** X20 on "log(100)+2" in degrees and in radians. *)
Lemma X20_angle_unit_only_for_trigonometry_witness :
  evaluateExpression TestRuntime.runtime (str "log(100)+2")
    {| ctx_angleUnit := Some (str "DEG"); ctx_memory := None |} None
  = evaluateExpression TestRuntime.runtime (str "log(100)+2")
      {| ctx_angleUnit := Some (str "RAD"); ctx_memory := None |} None.
Proof.
  apply (X20_angle_unit_only_for_trigonometry TestRuntime.runtime (str "log(100)+2")
           [FUNCTION (str "log"); LPAREN; NUMBER 100; RPAREN; OPERATOR (str "+");
            NUMBER 2]).
  - reflexivity.
  - repeat constructor; vm_compute; intuition discriminate.
Defined.

(* ------------------------------------------------------------------ *)
(** ** Precedence and associativity on three operands *)

(** X21. Grouping of a o1 b o2 c.  For operands a, b, c and operators o1,
    o2 of the table, parseToRPN gives a b o1 c o2, that is (a o1 b) o2 c,
    exactly when o2 is left-associative with precedence at most that of
    o1 or right-associative with precedence below that of o1; otherwise
    it gives a b c o2 o1, that is a o1 (b o2 c). *)
Theorem X21_grouping_of_two_operators
  (a b c : Token) (o1 o2 : jsstring) (s1 s2 : OperatorSpec)
  (Ha : is_operand a = true) (Hb : is_operand b = true) (Hc : is_operand c = true)
  (H1 : lookup OPERATORS o1 = Some s1) (H2 : lookup OPERATORS o2 = Some s2) :
  parseToRPN [a; OPERATOR o1; b; OPERATOR o2; c]
  = Ok (if pops_before s2 s1
        then [a; b; OPERATOR o1; c; OPERATOR o2]
        else [a; b; c; OPERATOR o2; OPERATOR o1]).
Proof.
  assert (Hstep : forall t output stack,
            is_operand t = true -> rpn_step t output stack = Ok (output ++ [t], stack)).
  { intros [x|v|f| | | |k|v] output stack H; try discriminate H; reflexivity. }
  unfold parseToRPN. cbn [rpn_loop].
  rewrite (Hstep a _ _ Ha). cbn [rbind app rpn_step pop_operators].
  rewrite (Hstep b _ _ Hb). cbn [rbind app rpn_step pop_operators].
  rewrite H1, H2.
  destruct (pops_before s2 s1); cbn [rbind app pop_operators];
    rewrite (Hstep c _ _ Hc); reflexivity.
Qed.

(** X21 on 2 - 3 - 4 (left to right) with the table entry of [-]. *)
Lemma X21_grouping_of_two_operators_witness :
  parseToRPN [NUMBER 2; OPERATOR (str "-"); NUMBER 3; OPERATOR (str "-"); NUMBER 4]
  = Ok (if pops_before
             {| precedence := 1; associativity := assoc_left; op_args := 2 |}
             {| precedence := 1; associativity := assoc_left; op_args := 2 |}
        then [NUMBER 2; NUMBER 3; OPERATOR (str "-"); NUMBER 4; OPERATOR (str "-")]
        else [NUMBER 2; NUMBER 3; NUMBER 4; OPERATOR (str "-"); OPERATOR (str "-")]).
Proof.
  apply (X21_grouping_of_two_operators (NUMBER 2) (NUMBER 3) (NUMBER 4)
           (str "-") (str "-")
           {| precedence := 1; associativity := assoc_left; op_args := 2 |}
           {| precedence := 1; associativity := assoc_left; op_args := 2 |});
    reflexivity.
Defined.

(* ------------------------------------------------------------------ *)
(** ** Root finding and sampling *)

Lemma completes_ret {A} (a : A) : completes (ret a).
Proof. intros st. cbn. discriminate. Qed.

Lemma completes_throw {A} (e : error) : completes (@throw A e).
Proof. intros st. cbn. discriminate. Qed.

Lemma completes_bind {A B} (m : Eff A) (k : A -> Eff B) :
  completes m -> (forall a, completes (k a)) -> completes (bind m k).
Proof.
  intros Hm Hk st. unfold bind. pose proof (Hm st) as Hm'.
  destruct (m st) as [[a|e|] st']; cbn [fst] in *;
    [apply Hk | discriminate | congruence].
Qed.

(** One structural step towards [completes]. *)
Ltac completes_step :=
  match goal with
  | |- completes (ret _) => apply completes_ret
  | |- completes (throw _) => apply completes_throw
  | |- completes (bind _ _) => apply completes_bind; [|intros ?]
  | H : forall x, completes (?f x) |- completes (?f _) => apply H
  | |- completes (if ?c then _ else _) => destruct c
  | |- completes (match ?x with _ => _ end) => destruct x
  end.

Lemma brent_completes f a b options :
  (forall x, completes (f x)) -> completes (brent f a b options).
Proof.
  intros Hf.
  assert (Hloop : forall tolerance remaining s,
            completes (brent_loop f tolerance remaining s)).
  { intros tolerance. induction remaining as [|remaining IH]; intros;
      cbn [brent_loop]; repeat first [apply IH | completes_step]. }
  unfold brent; repeat first [apply Hloop | completes_step].
Qed.




Lemma ForallOrdPairs_snoc {A} (R : A -> A -> Prop) l x :
  ForallOrdPairs R l -> Forall (fun r => R r x) l ->
  ForallOrdPairs R (l ++ [x]).
Proof.
  induction 1 as [|a l Ha Hl IH]; intros Hx; cbn [app].
  - constructor; constructor.
  - inversion Hx as [|? ? Hax Hx']; subst.
    constructor; [|apply IH; exact Hx'].
    apply Forall_app. split; [exact Ha | constructor; [exact Hax | constructor]].
Qed.

Lemma findAllRoots_loop_spec f a step tolerance :
  (forall x, completes (f x)) ->
  forall remaining i roots st,
    ForallOrdPairs (separated tolerance) roots ->
    exists roots',
      fst (findAllRoots_loop f a step tolerance remaining i roots st) = Ok roots' /\
      length roots' <= length roots + remaining /\
      ForallOrdPairs (separated tolerance) roots'.
Proof.
  intros Hf. induction remaining as [|remaining IH]; intros i roots st Hsep.
  - exists roots. cbn. repeat split; [lia | exact Hsep].
  - cbn [findAllRoots_loop].
    pose proof (brent_completes f (a + i * step) (a + (i + 1) * step)
                  {| so_tolerance := Some tolerance; so_maxIterations := None |}
                  Hf st) as Hc.
    destruct (brent f _ _ _ st) as [[root|e|] st']; cbn [fst] in Hc;
      [ | | congruence].
    + destruct (forallb (fun r => tolerance * 10 <? abs (r - root)) roots)%float
        eqn:Hnew.
      * destruct (IH (i + 1)%float (roots ++ [root]) st') as (roots' & Hrun & Hlen & Hsep').
        { apply ForallOrdPairs_snoc; [exact Hsep|].
          apply Forall_forall. intros r Hr.
          rewrite forallb_forall in Hnew. exact (Hnew r Hr). }
        exists roots'. rewrite length_app in Hlen. cbn [length] in Hlen.
        repeat split; [exact Hrun | lia | exact Hsep'].
      * destruct (IH (i + 1)%float roots st' Hsep) as (roots' & Hrun & Hlen & Hsep').
        exists roots'. repeat split; [exact Hrun | lia | exact Hsep'].
    + destruct (IH (i + 1)%float roots st' Hsep) as (roots' & Hrun & Hlen & Hsep').
      exists roots'. repeat split; [exact Hrun | lia | exact Hsep'].
Qed.

(** X23. findAllRoots never throws: every failure of Brent's method on
    a sub-interval is swallowed.  For a function that always returns or
    throws it returns a list of at most [divisions] roots (20 by
    default), and any two roots of the list, in the order found, differ
    by more than ten times the tolerance. *)
Theorem X23_findAllRoots_returns_separated_roots
  (f : float -> Eff float) (a b : float) (options : FindAllRootsOptions)
  (st : Store)
  (Hf : forall x, completes (f x)) :
  exists roots,
    fst (findAllRoots f a b options st) = Ok roots /\
    length roots <= default (fo_divisions options) 20 /\
    ForallOrdPairs (separated (default (fo_tolerance options) 1e-8%float)) roots.
Proof.
  unfold findAllRoots. cbv zeta.
  destruct (findAllRoots_loop_spec f a
              ((b - a) / number (default (fo_divisions options) 20%nat))%float
              (default (fo_tolerance options) 1e-8%float) Hf
              (default (fo_divisions options) 20) 0%float [] st
              (FOP_nil _))
    as (roots & Hrun & Hlen & Hsep).
  exists roots. cbn [length] in Hlen. repeat split; assumption.
Qed.

(** X23 on x * x - 2 over [0, 4] in four divisions. *)
Lemma X23_findAllRoots_returns_separated_roots_witness :
  exists roots,
    fst (findAllRoots (fun x => ret (x * x - 2)%float) 0 4
           {| fo_divisions := Some 4; fo_tolerance := None |} sample_store)
      = Ok roots /\
    length roots <= default (fo_divisions
                               {| fo_divisions := Some 4; fo_tolerance := None |}) 20 /\
    ForallOrdPairs
      (separated (default (fo_tolerance
                             {| fo_divisions := Some 4; fo_tolerance := None |})
                    1e-8%float)) roots.
Proof.
  apply (X23_findAllRoots_returns_separated_roots
           (fun x => ret (x * x - 2)%float) 0 4
           {| fo_divisions := Some 4; fo_tolerance := None |} sample_store).
  intros x st. cbn. discriminate.
Defined.

Lemma detectDiscontinuities_loop_spec f g a step :
  stateless f g ->
  forall remaining i found st,
    Forall (irregular_at g) found ->
    exists found',
      detectDiscontinuities_loop f a step remaining i found st = (Ok found', st) /\
      length found' <= length found + remaining /\
      Forall (irregular_at g) found'.
Proof.
  intros Hf. induction remaining as [|remaining IH]; intros i found st Hall.
  - exists found. cbn. repeat split; [lia | exact Hall].
  - cbn [detectDiscontinuities_loop].
    destruct (Hf (a + i * step)%float st) as [Hrun Hc]. rewrite Hrun.
    assert (Hgrow : irregular_at g (a + i * step)%float ->
              exists found',
                detectDiscontinuities_loop f a step remaining (i + 1)%float
                  (found ++ [(a + i * step)%float]) st = (Ok found', st) /\
                length found' <= length found + S remaining /\
                Forall (irregular_at g) found').
    { intros Hx.
      destruct (IH (i + 1)%float (found ++ [(a + i * step)%float]) st)
        as (found' & Hrun' & Hlen & Hall').
      { apply Forall_app. split; [exact Hall | constructor; [exact Hx | constructor]]. }
      exists found'. rewrite length_app in Hlen. cbn [length] in Hlen.
      repeat split; [exact Hrun' | lia | exact Hall']. }
    assert (Hkeep : exists found',
                detectDiscontinuities_loop f a step remaining (i + 1)%float
                  found st = (Ok found', st) /\
                length found' <= length found + S remaining /\
                Forall (irregular_at g) found').
    { destruct (IH (i + 1)%float found st Hall) as (found' & Hrun' & Hlen & Hall').
      exists found'. repeat split; [exact Hrun' | lia | exact Hall']. }
    destruct (g (a + i * step)%float) as [y|e|] eqn:Hg; [ | | congruence].
    + destruct (isFinite y) eqn:Hfin; cbn [negb]; [exact Hkeep|].
      apply Hgrow. unfold irregular_at. rewrite Hg. exact Hfin.
    + apply Hgrow. unfold irregular_at. rewrite Hg. exact I.
Qed.

(** X24. detectDiscontinuities never throws: a throw of the sampled
    function is caught and counted as a discontinuity.  For a function
    that does not touch the store it returns at most [samples] points
    (100 by default), and at each reported point the function throws or
    returns a non-finite number; the store is left as it was. *)
Theorem X24_detectDiscontinuities_reports_irregular_points
  (f : float -> Eff float) (g : float -> completion float) (a b : float)
  (samples : option nat) (st : Store)
  (Hf : stateless f g) :
  exists found,
    detectDiscontinuities f a b samples st = (Ok found, st) /\
    length found <= default samples 100 /\
    Forall (irregular_at g) found.
Proof.
  unfold detectDiscontinuities. cbv zeta.
  destruct (detectDiscontinuities_loop_spec f g a
              ((b - a) / number (default samples 100%nat))%float Hf
              (default samples 100) 0%float [] st (Forall_nil _))
    as (found & Hrun & Hlen & Hall).
  exists found. cbn [length] in Hlen. repeat split; assumption.
Qed.

(** X24 on 1 / x over [0, 1] in four samples. *)
Lemma X24_detectDiscontinuities_reports_irregular_points_witness :
  exists found,
    detectDiscontinuities (fun x => ret (1 / x)%float) 0 1 (Some 4) sample_store
      = (Ok found, sample_store) /\
    length found <= default (Some 4) 100 /\
    Forall (irregular_at (fun x => Ok (1 / x)%float)) found.
Proof.
  apply (X24_detectDiscontinuities_reports_irregular_points
           (fun x => ret (1 / x)%float) (fun x => Ok (1 / x)%float) 0 1 (Some 4)
           sample_store).
  intros x st. split; [reflexivity | discriminate].
Defined.

(* ------------------------------------------------------------------ *)
(** ** MathUtils on small integers *)

Lemma returns_integer_spec c z :
  returns_integer c z = true ->
  exists v, c = Ok v /\ MathUtils.integer_value v = z /\ Number_isInteger v = true.
Proof.
  destruct c as [v| |]; cbn [returns_integer]; try discriminate.
  rewrite andb_true_iff, Z.eqb_eq. intros [Hz Hi]. eauto.
Qed.

Lemma factorial_exact_checked :
  forallb (fun n => returns_integer (MathUtils.factorial (number n)) (fact_Z n))
          (seq 0 23) = true.
Proof. vm_compute. reflexivity. Qed.

(** X25. factorial is exact up to 22: for every integer n from 0 to 22
    the loop returns exactly n!, with no rounding (22! is the last
    factorial that a binary64 number holds exactly). *)
Theorem X25_factorial_is_exact
  (n : nat) (Hn : n <= 22) :
  exists v,
    MathUtils.factorial (number n) = Ok v /\
    MathUtils.integer_value v = fact_Z n /\
    Number_isInteger v = true.
Proof.
  pose proof factorial_exact_checked as Hall.
  rewrite forallb_forall in Hall.
  apply returns_integer_spec, Hall, in_seq. lia.
Qed.

(** X25 on 20!. *)
Lemma X25_factorial_is_exact_witness :
  exists v,
    MathUtils.factorial (number 20) = Ok v /\
    MathUtils.integer_value v = fact_Z 20 /\
    Number_isInteger v = true.
Proof. apply (X25_factorial_is_exact 20). lia. Defined.

Lemma permutation_exact_checked :
  forallb (fun n =>
             forallb (fun r =>
                        returns_integer
                          (MathUtils.permutation (number n) (number r))
                          (permutations_Z n r))
                     (seq 0 (S n)))
          (seq 0 23) = true.
Proof. vm_compute. reflexivity. Qed.

(** X26. permutation is exact up to n = 22: for integers 0 <= r <= n <=
    22 it returns exactly n! / (n-r)!, with no rounding. *)
Theorem X26_permutation_is_exact
  (n r : nat) (Hr : r <= n) (Hn : n <= 22) :
  exists v,
    MathUtils.permutation (number n) (number r) = Ok v /\
    MathUtils.integer_value v = permutations_Z n r /\
    Number_isInteger v = true.
Proof.
  pose proof permutation_exact_checked as Hall.
  rewrite forallb_forall in Hall.
  assert (Hin : In n (seq 0 23)) by (apply in_seq; lia).
  specialize (Hall n Hin). rewrite forallb_forall in Hall.
  apply returns_integer_spec, Hall, in_seq. lia.
Qed.

(** X26 on 5P2 (the test suite's example, 20). *)
Lemma X26_permutation_is_exact_witness :
  exists v,
    MathUtils.permutation (number 5) (number 2) = Ok v /\
    MathUtils.integer_value v = permutations_Z 5 2 /\
    Number_isInteger v = true.
Proof. apply (X26_permutation_is_exact 5 2); lia. Defined.

Lemma combination_exact_checked :
  forallb (fun n => forallb (fun r => combination_exact n r) (seq 0 (S n)))
          (seq 0 55) = true.
Proof. vm_compute. reflexivity. Qed.

(** X27. combination is exact up to n = 54: for integers 0 <= r <= n <=
    54 the multiply-then-divide loop, run on the smaller of r and n - r,
    ends with exactly the binomial coefficient n! / (r! (n-r)!), every
    intermediate product and quotient being an integer that binary64
    holds; what combination returns is Math.round of that integer (or 1,
    unrounded, when r is 0 or n). *)
Theorem X27_combination_is_exact
  (rt : Native) (n r : nat) (Hr : r <= n) (Hn : n <= 54) :
  exists v,
    MathUtils.integer_value v = binomial_Z n r /\
    Number_isInteger v = true /\
    MathUtils.combination rt (number n) (number r)
      = Ok (if ((r =? 0) || (r =? n))%nat then v else Math_round rt v).
Proof.
  pose proof combination_exact_checked as Hall.
  rewrite forallb_forall in Hall.
  assert (Hin : In n (seq 0 55)) by (apply in_seq; lia).
  specialize (Hall n Hin). rewrite forallb_forall in Hall.
  assert (Hin' : In r (seq 0 (S n))) by (apply in_seq; lia).
  specialize (Hall r Hin'). unfold combination_exact in Hall. cbv zeta in Hall.
  rewrite !andb_true_iff, !negb_true_iff in Hall.
  destruct Hall as [[[[[[H1 H2] H3] H4] H5] H6] H7].
  apply eqb_prop in H6.
  unfold MathUtils.combination. cbv zeta.
  rewrite H1, H2, H3, H4, H5. cbn [negb orb]. rewrite H6.
  destruct ((r =? 0) || (r =? n))%nat.
  - exists 1%float. apply Z.eqb_eq in H7. rewrite H7.
    repeat split; reflexivity.
  - apply returns_integer_spec in H7. destruct H7 as (v & Hrun & Hz & Hi).
    exists v. rewrite Hrun. cbn [rbind]. repeat split; assumption.
Qed.

(** X27 on 5C2 (the test suite's example, 10). *)
Lemma X27_combination_is_exact_witness :
  exists v,
    MathUtils.integer_value v = binomial_Z 5 2 /\
    Number_isInteger v = true /\
    MathUtils.combination TestRuntime.runtime (number 5) (number 2)
      = Ok (if ((2 =? 0) || (2 =? 5))%nat then v
            else Math_round TestRuntime.runtime v).
Proof. apply (X27_combination_is_exact TestRuntime.runtime 5 2); lia. Defined.

(* ------------------------------------------------------------------ *)
(** ** Floating-point identities *)

Open Scope float_scope.

Lemma SFadd_comm p e x y : SFadd p e x y = SFadd p e y x.
Proof.
  destruct x as [sx|sx| |sx mx ex], y as [sy|sy| |sy my ey]; cbn; try reflexivity.
  - destruct sx, sy; reflexivity.
  - destruct sx, sy; reflexivity.
  - rewrite (Z.min_comm ey ex), Z.add_comm. reflexivity.
Qed.

Lemma SFmul_comm p e x y : SFmul p e x y = SFmul p e y x.
Proof.
  destruct x as [sx|sx| |sx mx ex], y as [sy|sy| |sy my ey]; cbn; try reflexivity;
    rewrite ?(xorb_comm sy sx); try reflexivity.
  rewrite (Pos.mul_comm my mx), (Z.add_comm ey ex). reflexivity.
Qed.

Lemma float_add_comm (x y : float) : x + y = y + x.
Proof.
  apply FloatAxioms.Prim2SF_inj. rewrite !FloatAxioms.add_spec. apply SFadd_comm.
Qed.

Lemma float_mul_comm (x y : float) : x * y = y * x.
Proof.
  apply FloatAxioms.Prim2SF_inj. rewrite !FloatAxioms.mul_spec. apply SFmul_comm.
Qed.

Lemma float_opp_involutive (x : float) : - - x = x.
Proof.
  apply FloatAxioms.Prim2SF_inj. rewrite !FloatAxioms.opp_spec.
  destruct (Prim2SF x) as [s|s| |s m e]; cbn; rewrite ?negb_involutive; reflexivity.
Qed.

Lemma float_mul_opp_opp (x y : float) : (- x) * (- y) = x * y.
Proof.
  apply FloatAxioms.Prim2SF_inj.
  rewrite !FloatAxioms.mul_spec, !FloatAxioms.opp_spec.
  destruct (Prim2SF x) as [sx|sx| |sx mx ex], (Prim2SF y) as [sy|sy| |sy my ey];
    cbn; try reflexivity; destruct sx, sy; reflexivity.
Qed.

(** Rounding is symmetric: the sign given to [binary_round] only tags
    the result. *)
Lemma SFabs_binary_round p e s m ex :
  SFabs (binary_round p e s m ex) = SFabs (binary_round p e false m ex).
Proof.
  unfold binary_round.
  destruct (shl_align m ex _) as [mz ez].
  unfold binary_round_aux.
  destruct (shr_fexp p e (Z.pos mz) ez loc_Exact) as [mrs' e'].
  destruct (shr_fexp p e _ e' loc_Exact) as [mrs'' e''].
  destruct (shr_m mrs''); [reflexivity | | reflexivity].
  destruct (e'' <=? e - p)%Z; reflexivity.
Qed.

Lemma SFabs_binary_normalize_opp p e m ex :
  SFabs (binary_normalize p e (- m) ex false)
  = SFabs (binary_normalize p e m ex false).
Proof.
  destruct m as [|m|m]; cbn [Z.opp binary_normalize]; [reflexivity | | ].
  - apply SFabs_binary_round.
  - symmetry. apply SFabs_binary_round.
Qed.

Lemma SFabs_SFsub_comm p e x y : SFabs (SFsub p e x y) = SFabs (SFsub p e y x).
Proof.
  destruct x as [sx|sx| |sx mx ex], y as [sy|sy| |sy my ey]; cbn [SFsub SFabs];
    try reflexivity; try (destruct sx, sy; reflexivity).
  cbv zeta. rewrite (Z.min_comm ey ex).
  rewrite <- SFabs_binary_normalize_opp. f_equal. f_equal. lia.
Qed.

Lemma float_abs_sub_comm (x y : float) : abs (x - y) = abs (y - x).
Proof.
  apply FloatAxioms.Prim2SF_inj.
  rewrite !FloatAxioms.abs_spec, !FloatAxioms.sub_spec. apply SFabs_SFsub_comm.
Qed.

Close Scope float_scope.

(* ------------------------------------------------------------------ *)
(** ** Complex numbers *)

(** X28. Complex addition and multiplication are commutative as
    computed: for any two Complex values, with any binary64 parts
    (infinities, NaN and signed zeros included), z.add(w) and w.add(z)
    have identical parts, and so have z.multiply(w) and w.multiply(z). *)
Theorem X28_complex_add_and_multiply_commute (z w : Complex.Complex) :
  Complex.add z (Complex.a_Complex w) = Complex.add w (Complex.a_Complex z) /\
  Complex.multiply z (Complex.a_Complex w)
    = Complex.multiply w (Complex.a_Complex z).
Proof.
  destruct z as [a b], w as [c d].
  unfold Complex.add, Complex.multiply. cbn [Complex.real Complex.imag].
  split.
  - rewrite (float_add_comm a c), (float_add_comm b d). reflexivity.
  - rewrite (float_mul_comm a c), (float_mul_comm b d),
            (float_mul_comm a d), (float_mul_comm b c),
            (float_add_comm (d * a) (c * b)).
    reflexivity.
Qed.

(** X29. Conjugation is an involution and leaves the magnitude
    unchanged, exactly: z.conjugate().conjugate() has the parts of z, and
    z.conjugate().magnitude() is z.magnitude(), for all binary64 parts. *)
Theorem X29_conjugate_involution_and_magnitude (z : Complex.Complex) :
  Complex.conjugate (Complex.conjugate z) = z /\
  Complex.magnitude (Complex.conjugate z) = Complex.magnitude z.
Proof.
  destruct z as [a b].
  unfold Complex.conjugate, Complex.magnitude. cbn [Complex.real Complex.imag].
  split.
  - rewrite float_opp_involutive. reflexivity.
  - rewrite float_mul_opp_opp. reflexivity.
Qed.

(** X30. equals is symmetric: z.equals(w, tolerance) and
    w.equals(z, tolerance) give the same answer for all parts and every
    tolerance, because |x - y| and |y - x| are the same number in
    binary64 arithmetic. *)
Theorem X30_complex_equals_is_symmetric
  (z w : Complex.Complex) (tolerance : option float) :
  Complex.equals z w tolerance = Complex.equals w z tolerance.
Proof.
  unfold Complex.equals. cbv zeta.
  rewrite (float_abs_sub_comm (Complex.real z) (Complex.real w)),
          (float_abs_sub_comm (Complex.imag z) (Complex.imag w)).
  reflexivity.
Qed.

(* ------------------------------------------------------------------ *)
(** ** The variable that a trial evaluation writes *)

Lemma evaluateExpression_starts_with_unbound rt expression context global v rest :
  parse rt expression = Ok (VARIABLE v :: rest) ->
  lookup (resolved_memory context global) v = None ->
  evaluateExpression rt expression context global = Throw (UndefinedVariable v).
Proof.
  intros Hparse Hv. unfold evaluateExpression. rewrite Hparse. cbn [rbind].
  rewrite evaluate_resolved. cbn [evaluate_loop]. rewrite Hv. reflexivity.
Qed.

Lemma closure_misses_lower_case_x rt expression rest value st :
  well_formed st ->
  toUpperCase rt (str "x") = str "X" ->
  lookup (bindings st) (str "x") = None ->
  parse rt expression = Ok (VARIABLE (str "x") :: rest) ->
  fst (createFunctionFromExpression rt expression (str "x") value st)
  = Throw (UndefinedVariable (str "x")).
Proof.
  intros Hwf Hupper Hx Hparse.
  destruct (createFunctionFromExpression_run rt expression (str "x") value st Hwf)
    as (Hrun & _).
  cbv zeta in Hrun. rewrite Hrun.
  apply (evaluateExpression_starts_with_unbound rt expression _ _ (str "x") rest Hparse).
  unfold trial_context, resolved_memory. cbn [ctx_memory].
  rewrite lookup_assign, Hupper. exact Hx.
Qed.

Lemma solve_misses_lower_case_x rt st :
  well_formed st ->
  toUpperCase rt (str "x") = str "X" ->
  lookup (bindings st) (str "x") = None ->
  fst (solve rt (str "x*x-4") (Some (str "x")) (Some 2%float)
         default_solve_options st)
  = Throw (SolverError (UndefinedVariable (str "x"))).
Proof.
  intros Hwf Hupper Hx.
  pose proof (closure_misses_lower_case_x rt (str "x*x-4") _ (2 - 10)%float st
                Hwf Hupper Hx eq_refl) as Hf.
  unfold solve, default_solve_options.
  cbn [default method bounds tolerance maxIterations].
  change (jseq (str "brent") (str "bisection")) with false.
  change (jseq (str "brent") (str "newton")) with false.
  change (jseq (str "brent") (str "secant")) with false.
  cbv iota. unfold try_catch, bind.
  change (solve_f rt (str "x*x-4") (str "x"))
    with (createFunctionFromExpression rt (str "x*x-4") (str "x")).
  destruct (createFunctionFromExpression rt (str "x*x-4") (str "x")
              (2 - 10)%float st) as [r st'].
  cbn [fst] in Hf. subst r. reflexivity.
Qed.

Lemma integrate_misses_lower_case_x rt st :
  well_formed st ->
  toUpperCase rt (str "x") = str "X" ->
  lookup (bindings st) (str "x") = None ->
  fst (integrate rt (ExpressionString (str "x*x")) 0 1
         default_integrate_options st)
  = Throw (IntegrationError (UndefinedVariable (str "x"))).
Proof.
  intros Hwf Hupper Hx.
  pose proof (closure_misses_lower_case_x rt (str "x*x") _ 0%float st
                Hwf Hupper Hx eq_refl) as Hf.
  unfold integrate, default_integrate_options. cbn [integrate_rec].
  cbn [default io_tolerance io_maxDepth io_variable].
  change (negb (isFinite 0) || negb (isFinite 1)) with false.
  change (0 =? 1)%float with false. change (1 <? 0)%float with false.
  cbv iota. unfold try_catch, bind.
  destruct (createFunctionFromExpression rt (str "x*x") (str "x") 0%float st)
    as [r st'].
  cbn [fst] in Hf. subst r. reflexivity.
Qed.

(** C2. The trial value is not written into the named variable.  Each
    evaluation inside solve or integrate snapshots the bindings, writes
    the trial value under the UPPER-CASED variable name, runs the
    evaluator and makes [state.memory] the snapshot again, on return and
    on throw, so the caller's bindings after a call equal those before
    (this half of the claim holds, for every expression and variable).
    But with toUpperCase("x") = "X" and no binding for "x" in the memory
    (the registers are upper-case), the variable x that the expression
    names never receives the trial value: the closure of the expression
    x in the variable x throws 'Undefined variable: x' at every trial
    value while X is what gets written, and solve("x*x-4", "x", 2) and
    integrate("x*x", 0, 1) throw that error wrapped, where the claim has
    the named variable bound to the trial value. *)
Theorem C2_trial_value_is_not_written_to_named_variable
  (rt : Native)
  (expression variable : jsstring) (value : float)
  (a b : float) (integrateOptions : IntegrateOptions)
  (solveVariable : option jsstring) (initialGuess : option float)
  (solveOptions : SolveOptions)
  (st : Store) (Hst : well_formed st)
  (Hupper : toUpperCase rt (str "x") = str "X")
  (Hx : lookup (bindings st) (str "x") = None) :
  (fst (createFunctionFromExpression rt (str "x") (str "x") value st)
     = Throw (UndefinedVariable (str "x")) /\
   fst (solve_f rt (str "x") (str "x") value st)
     = Throw (UndefinedVariable (str "x")) /\
   deref (snd (solve_f rt (str "x") (str "x") value st)) (state_memory st)
     = assign (bindings st) (str "X") (JNum value)) /\
  (fst (solve rt (str "x*x-4") (Some (str "x")) (Some 2%float)
          default_solve_options st)
     = Throw (SolverError (UndefinedVariable (str "x"))) /\
   fst (integrate rt (ExpressionString (str "x*x")) 0 1
          default_integrate_options st)
     = Throw (IntegrationError (UndefinedVariable (str "x")))) /\
  (bindings (snd (createFunctionFromExpression rt expression variable value st))
     = bindings st /\
   bindings (snd (solve_f rt expression variable value st)) = bindings st /\
   bindings (snd (integrate rt (ExpressionString expression) a b
                    integrateOptions st)) = bindings st /\
   bindings (snd (solve rt expression solveVariable initialGuess
                    solveOptions st)) = bindings st).
Proof.
  split; [|split].
  - pose proof (closure_misses_lower_case_x rt (str "x") [] value st
                  Hst Hupper Hx eq_refl) as Hf.
    split; [exact Hf|]. split; [exact Hf|].
    change (solve_f rt (str "x") (str "x") value st)
      with (createFunctionFromExpression rt (str "x") (str "x") value st).
    rewrite closure_final_store, Hupper.
    unfold spread_memory, write_memory, set_memory, deref, bindings.
    cbn [snd heap state_memory].
    unfold well_formed in Hst.
    rewrite nth_update_nth_same by (rewrite length_app; lia).
    unfold deref. cbn [heap]. rewrite app_nth1 by assumption. reflexivity.
  - split.
    + exact (solve_misses_lower_case_x rt st Hst Hupper Hx).
    + exact (integrate_misses_lower_case_x rt st Hst Hupper Hx).
  - split; [|split; [|split]].
    + destruct (createFunctionFromExpression_run rt expression variable value st Hst)
        as (_ & _ & _ & H). exact H.
    + destruct (solve_f_run rt expression variable value st Hst)
        as (_ & _ & _ & H). exact H.
    + destruct (integrate_restores rt expression a b integrateOptions st Hst)
        as (_ & _ & H). exact H.
    + destruct (solve_restores rt expression solveVariable initialGuess
                  solveOptions st Hst) as (_ & _ & H). exact H.
Qed.

(** C2 at the test runtime from the initial registers, at the trial
    value 2; the restoring half on "1/X", where solve and integrate
    throw mid-evaluation. *)
Lemma C2_trial_value_is_not_written_to_named_variable_witness :
  (fst (createFunctionFromExpression TestRuntime.runtime (str "x") (str "x") 2
          sample_store)
     = Throw (UndefinedVariable (str "x")) /\
   fst (solve_f TestRuntime.runtime (str "x") (str "x") 2 sample_store)
     = Throw (UndefinedVariable (str "x")) /\
   deref (snd (solve_f TestRuntime.runtime (str "x") (str "x") 2 sample_store))
         (state_memory sample_store)
     = assign (bindings sample_store) (str "X") (JNum 2)) /\
  (fst (solve TestRuntime.runtime (str "x*x-4") (Some (str "x")) (Some 2%float)
          default_solve_options sample_store)
     = Throw (SolverError (UndefinedVariable (str "x"))) /\
   fst (integrate TestRuntime.runtime (ExpressionString (str "x*x")) 0 1
          default_integrate_options sample_store)
     = Throw (IntegrationError (UndefinedVariable (str "x")))) /\
  (bindings (snd (createFunctionFromExpression TestRuntime.runtime (str "1/X")
                    (str "x") 2 sample_store))
     = bindings sample_store /\
   bindings (snd (solve_f TestRuntime.runtime (str "1/X") (str "x") 2 sample_store))
     = bindings sample_store /\
   bindings (snd (integrate TestRuntime.runtime (ExpressionString (str "1/X")) 0 1
                    default_integrate_options sample_store))
     = bindings sample_store /\
   bindings (snd (solve TestRuntime.runtime (str "1/X") (Some (str "x"))
                    (Some 0%float) newton_options sample_store))
     = bindings sample_store).
Proof.
  apply (C2_trial_value_is_not_written_to_named_variable TestRuntime.runtime
           (str "1/X") (str "x") 2 0 1 default_integrate_options
           (Some (str "x")) (Some 0%float) newton_options sample_store).
  - unfold well_formed. cbn. lia.
  - reflexivity.
  - reflexivity.
Defined.
